(** * Minimal-region discovery for transition systems (sapn/regions/regions.py)

    A shallow embedding of the multiset algebra, the transition-system
    queries, the region predicates, the expansion kernel and the search
    driver [generate_all_minimal_regions_v1], followed by the properties
    of the specification that were checked against them; then the other
    functions of regions.py, the first driver
    [generate_all_minimal_regions_o] and the builder of
    objects/sa_transition_system.py, with further properties of the
    code.

    Python values are modelled as follows.
    - a marking (a [dict] from state names to [int]) is a [gmap string Z];
      dictionary equality [==] is equality of the maps;
    - the sets of a transition system are given by the lists in which
      Python enumerates them; every statement holds for every order;
    - a call either returns a value, raises an exception that nobody
      catches, or (for the two [while] loops only) runs out of the
      iteration budget handed to the model; what a call prints is not
      modelled.  *)

From stdpp Require Import gmap strings list fin_maps sorting.
From Stdlib Require Import ZArith Lia.

Open Scope Z_scope.

(** ** Outcomes of a Python call *)

Inductive exn : Set :=
  | ValueError | TypeError | KeyError | IndexError | AttributeError
  | OverflowError.

Inductive py (A : Type) : Type :=
  | Ok (a : A)
  | Raise (e : exn)
  | OutOfFuel.
Arguments Ok {A} a.
Arguments Raise {A} e.
Arguments OutOfFuel {A}.

Global Instance py_ret : MRet py := λ A a, Ok a.
Global Instance py_bind : MBind py := λ A B f c,
  match c with
  | Ok a => f a
  | Raise e => Raise e
  | OutOfFuel => OutOfFuel
  end.

Global Instance py_fmap : FMap py := λ A B f c,
  match c with
  | Ok a => Ok (f a)
  | Raise e => Raise e
  | OutOfFuel => OutOfFuel
  end.

(** [try: body except ValueError: return handler] *)
Definition try_except_ValueError {A} (body : py A) (handler : A) : py A :=
  match body with
  | Raise ValueError => Ok handler
  | r => r
  end.

(** [for x in l: ys.append(f x)], stopping at the first exception. *)
Fixpoint for_each {A B} (f : A → py B) (l : list A) : py (list B) :=
  match l with
  | [] => Ok []
  | x :: l' => y ← f x; ys ← for_each f l'; Ok (y :: ys)
  end.

(** Python's [max(l)] and [min(l)] on a list of integers. *)
Definition py_max (l : list Z) : py Z :=
  match l with
  | [] => Raise ValueError
  | x :: l' => Ok (foldl Z.max x l')
  end.

Definition py_min (l : list Z) : py Z :=
  match l with
  | [] => Raise ValueError
  | x :: l' => Ok (foldl Z.min x l')
  end.

(** [sum(l)] *)
Definition py_sum (l : list Z) : Z := foldl Z.add 0 l.

(** [len(set(l))] *)
Definition len_set (l : list Z) : nat := size (list_to_set l : gset Z).

(** ** Transition systems (objects/sa_transition_system.py)

    Only the three name-level views that regions.py reads are kept. *)

Definition state_transition : Type := string * string * string.

Definition st_from (t : state_transition) : string := t.1.1.
Definition st_event (t : state_transition) : string := t.1.2.
Definition st_to (t : state_transition) : string := t.2.

Record SATransitionSystem : Type := {
  get_state_names : list string;
  get_event_names : list string;
  get_all_state_transitions : list state_transition
}.

Definition get_state_transition_by_event (event_name : string)
    (ts : SATransitionSystem) : list state_transition :=
  filter (λ t, st_event t = event_name) (get_all_state_transitions ts).

(** The invariant of the data model that [add_transition] maintains: every
    state referenced by a transition is a state of the system. *)
Definition ts_closed (ts : SATransitionSystem) : Prop :=
  Forall (λ t, st_from t ∈ get_state_names ts ∧ st_to t ∈ get_state_names ts)
         (get_all_state_transitions ts).

Definition state_set (ts : SATransitionSystem) : gset string :=
  list_to_set (get_state_names ts).

(** ** Dictionaries as ordered collections

    Every marking built by the search has its keys in ascending order
    ([dict(sorted(...))] for the seeds, and the expansions copy the key
    order of their argument), so [items] and [values] enumerate by
    ascending key. *)

Definition key_le (p q : string * Z) : Prop := String.leb p.1 q.1.

Global Instance key_le_dec p q : Decision (key_le p q).
Proof. unfold key_le. apply _. Defined.

Definition dict_items (m : gmap string Z) : list (string * Z) :=
  merge_sort key_le (map_to_list m).

Definition dict_values (m : gmap string Z) : list Z := (dict_items m).*2.

(** ** Multiset algebra *)

Definition get_power_of_multiset (multiset : gmap string Z) : py Z :=
  py_max (dict_values multiset).

Definition is_trivial (multiset : gmap string Z) : bool :=
  forallb (λ value, 1 <=? value) (dict_values multiset).

(** [multiset_b.get(k)] is defined for every key of [multiset_a] once the
    key sets have been found equal. *)
Definition is_subset (multiset_a multiset_b : gmap string Z) : py bool :=
  try_except_ValueError
    (if decide (dom multiset_a = dom multiset_b) then
       Ok (forallb (λ item,
                      match multiset_b !! item.1 with
                      | Some w => item.2 <=? w
                      | None => false
                      end)
                   (dict_items multiset_a))
     else Raise ValueError)
    false.

Definition get_union_of_multisets (multiset_a multiset_b : gmap string Z)
    : py (option (gmap string Z)) :=
  try_except_ValueError
    (if decide (dom multiset_a = dom multiset_b) then
       Ok (Some (map_zip_with Z.max multiset_a multiset_b))
     else Raise ValueError)
    None.

Definition get_intersection_of_multisets (multiset_a multiset_b : gmap string Z)
    : py (option (gmap string Z)) :=
  try_except_ValueError
    (if decide (dom multiset_a = dom multiset_b) then
       Ok (Some (map_zip_with Z.min multiset_a multiset_b))
     else Raise ValueError)
    None.

Definition get_difference_of_multisets (multiset_a multiset_b : gmap string Z)
    : py (option (gmap string Z)) :=
  try_except_ValueError
    (if decide (dom multiset_a = dom multiset_b) then
       Ok (Some (map_zip_with (λ x y, Z.max 0 (x - y)) multiset_a multiset_b))
     else Raise ValueError)
    None.

(** ** Queries on the transition system *)

Definition get_excitation_set_by_event (event_name : string)
    (ts : SATransitionSystem) : py (option (gmap string Z)) :=
  try_except_ValueError
    (if decide (event_name ∈ get_event_names ts) then
       let excitation_set :=
         foldl (λ acc k, <[k := 0]> acc) (∅ : gmap string Z)
               (get_state_names ts) in
       Ok (Some (foldl (λ acc st,
                          if decide (st_event st = event_name)
                          then <[st_from st := 1]> acc else acc)
                       excitation_set (get_all_state_transitions ts)))
     else Raise ValueError)
    None.

Definition get_excitation_sets (ts : SATransitionSystem)
    : py (list (string * option (gmap string Z))) :=
  for_each (λ e, v ← get_excitation_set_by_event e ts; Ok (e, v))
           (get_event_names ts).

Definition get_switching_set_by_event (event_name : string)
    (ts : SATransitionSystem) : py (option (gmap string Z)) :=
  try_except_ValueError
    (if decide (event_name ∈ get_event_names ts) then
       let switching_set :=
         foldl (λ acc k, <[k := 0]> acc) (∅ : gmap string Z)
               (get_state_names ts) in
       Ok (Some (foldl (λ acc st,
                          if decide (st_event st = event_name)
                          then <[st_to st := 1]> acc else acc)
                       switching_set (get_all_state_transitions ts)))
     else Raise ValueError)
    None.

Definition get_switching_sets (ts : SATransitionSystem)
    : py (list (string * option (gmap string Z))) :=
  for_each (λ e, v ← get_switching_set_by_event e ts; Ok (e, v))
           (get_event_names ts).

(** [multiset.get(st[2]) - multiset.get(st[0])]: a missing key yields
    [None], and the subtraction raises [TypeError]. *)
Definition gradient_of_arc (multiset : gmap string Z) (st : state_transition)
    : py Z :=
  match multiset !! st_to st, multiset !! st_from st with
  | Some a, Some b => Ok (a - b)
  | _, _ => Raise TypeError
  end.

Definition get_gradient_of_event (event_name : string)
    (multiset : gmap string Z) (ts : SATransitionSystem) : py (list Z) :=
  for_each (gradient_of_arc multiset)
           (filter (λ st, st_event st = event_name)
                   (get_all_state_transitions ts)).

Definition get_gradients_for_multisets (multiset : gmap string Z)
    (ts : SATransitionSystem) : py (list (string * list Z)) :=
  for_each (λ e, grad ← get_gradient_of_event e multiset ts; Ok (e, grad))
           (get_event_names ts).

(** ** Region predicates *)

Definition is_region (multiset : gmap string Z) (ts : SATransitionSystem)
    : py bool :=
  gradients ← get_gradients_for_multisets multiset ts;
  Ok (forallb (λ kg, bool_decide (len_set kg.2 = 1%nat)) gradients).

(** ** Expansion kernel *)

(** [multiset[st[2]] - multiset[st[0]] - g]: a missing key raises
    [KeyError]. *)
Definition get_delta_g (g : Z) (multiset : gmap string Z)
    (event_name state_name : string) (ts : SATransitionSystem) : py Z :=
  max_values ←
    for_each (λ st, match multiset !! st_to st, multiset !! st_from st with
                    | Some a, Some b => Ok (a - b - g)
                    | _, _ => Raise KeyError
                    end)
             (filter (λ st, st_from st = state_name)
                     (get_state_transition_by_event event_name ts));
  match max_values with
  | [] => Ok 0
  | _ => mx ← py_max max_values; Ok (Z.max 0 mx)
  end.

Definition get_delta_G (g : Z) (multiset : gmap string Z)
    (event_name state_name : string) (ts : SATransitionSystem) : py Z :=
  max_values ←
    for_each (λ st, match multiset !! st_from st, multiset !! st_to st with
                    | Some a, Some b => Ok (a - b + g)
                    | _, _ => Raise KeyError
                    end)
             (filter (λ st, st_to st = state_name)
                     (get_state_transition_by_event event_name ts));
  match max_values with
  | [] => Ok 0
  | _ => mx ← py_max max_values; Ok (Z.max 0 mx)
  end.

Definition get_multiset_expansion_on_event_by_g (g : Z) (event_name : string)
    (multiset : gmap string Z) (ts : SATransitionSystem)
    : py (gmap string Z) :=
  if decide (dom multiset = state_set ts) then
    items ← for_each (λ kv, d ← get_delta_g g multiset event_name kv.1 ts;
                            Ok (kv.1, kv.2 + d))
                     (dict_items multiset);
    Ok (list_to_map items)
  else Raise ValueError.

Definition get_multiset_expansion_on_event_by_G (g : Z) (event_name : string)
    (multiset : gmap string Z) (ts : SATransitionSystem)
    : py (gmap string Z) :=
  if decide (dom multiset = state_set ts) then
    items ← for_each (λ kv, d ← get_delta_G g multiset event_name kv.1 ts;
                            Ok (kv.1, kv.2 + d))
                     (dict_items multiset);
    Ok (list_to_map items)
  else Raise ValueError.

Definition get_candidates (ts : SATransitionSystem)
    : py (list (option (gmap string Z))) :=
  excitation_sets ← get_excitation_sets ts;
  switching_sets ← get_switching_sets ts;
  Ok (excitation_sets.*2 ++ switching_sets.*2).

(** [int(math.floor((g_min+g_max)/2))].  The quotient [/] is Python's true
    division of integers: the binary64 number nearest to the exact
    quotient (ties to even), [OverflowError] when that is not finite.
    With [n = g_min+g_max]: when [|n|] has at most 53 bits the half is
    exact and its floor is [n / 2]; otherwise [|n|] is first rounded to 53
    significant bits and the half of that is an integer. *)
Definition __get_gradient_for_binary_search (g_min g_max : Z) : py Z :=
  let n := g_min + g_max in
  let a := Z.abs n in
  let bits := Z.log2 a + 1 in
  if bits <=? 53 then Ok (n / 2)
  else
    let sh := bits - 53 in
    let q := a / 2 ^ sh in
    let r := a mod 2 ^ sh in
    let half := 2 ^ (sh - 1) in
    let mant :=
      if r <? half then q
      else if half <? r then q + 1
      else if Z.even q then q else q + 1 in
    let v := mant * 2 ^ (sh - 1) in
    if 2 ^ 1024 <=? v then Raise OverflowError else Ok (Z.sgn n * v).

Definition event_le (p q : string * list Z) : Prop := String.leb p.1 q.1.

Global Instance event_le_dec p q : Decision (event_le p q).
Proof. unfold event_le. apply _. Defined.

Definition illegal_event : Type := string * Z * Z * Z.

(** One round of the loop of [get_illegal_events]: [None] when the event
    is skipped, the tuple appended to [lst] otherwise. *)
Definition illegal_entry (kg : string * list Z) : py (option illegal_event) :=
  if bool_decide (len_set kg.2 = 1%nat) then Ok None
  else g_min ← py_min kg.2;
       g_max ← py_max kg.2;
       g_e ← __get_gradient_for_binary_search g_min g_max;
       Ok (Some (kg.1, g_min, g_max, g_e)).

Definition get_illegal_events (multiset : gmap string Z)
    (ts : SATransitionSystem) : py (list illegal_event) :=
  gradients ← get_gradients_for_multisets multiset ts;
  let gradients := merge_sort event_le gradients in
  for_each illegal_entry gradients
    ≫= λ lst : list (option illegal_event), Ok (omap id lst).

(** [max(tuples_list, key=lambda x: abs(x[3]))]: the first element whose
    key is maximal. *)
Definition __get_event_gradient_for_expansion (tuples_list : list illegal_event)
    : py illegal_event :=
  match tuples_list with
  | [] => Raise ValueError
  | x :: l =>
      Ok (foldl (λ best y, if Z.abs best.2 <? Z.abs y.2 then y else best) x l)
  end.

Definition __is_valid_candidate (k : Z) (multiset : gmap string Z) : py bool :=
  p ← get_power_of_multiset multiset;
  Ok (if p <=? k then negb (is_trivial multiset) else false).

(** ** Search driver *)

(** [min(range(len(keys)), key=lambda i: keys[i])]: the first index whose
    key is minimal; [max] likewise. *)
Definition py_argmin (keys : list Z) : py nat :=
  match keys with
  | [] => Raise ValueError
  | k0 :: rest =>
      Ok (foldl (λ (acc : nat * Z * nat) k,
                   let '(bi, bk, i) := acc in
                   if k <? bk then (i, k, S i) else (bi, bk, S i))
                (0%nat, k0, 1%nat) rest).1.1
  end.

Definition py_argmax (keys : list Z) : py nat :=
  match keys with
  | [] => Raise ValueError
  | k0 :: rest =>
      Ok (foldl (λ (acc : nat * Z * nat) k,
                   let '(bi, bk, i) := acc in
                   if bk <? k then (i, k, S i) else (bi, bk, S i))
                (0%nat, k0, 1%nat) rest).1.1
  end.

(** [l.pop(idx)] *)
Definition py_pop {A} (l : list A) (idx : nat) : py (A * list A) :=
  match l !! idx with
  | Some x => Ok (x, delete idx l)
  | None => Raise IndexError
  end.

(** [[x for x in l if f(x)]] for a test that may raise. *)
Fixpoint filter_py {A} (f : A → py bool) (l : list A) : py (list A) :=
  match l with
  | [] => Ok []
  | x :: l' => b ← f x; r ← filter_py f l'; Ok (if b : bool then x :: r else r)
  end.

(** The loop of [__remove_duplicates], [seen] being the set of the
    dictionaries met so far.  A [None] among the dictionaries has no
    [items]. *)
Fixpoint remove_duplicates_loop (seen : list (gmap string Z))
    (l : list (option (gmap string Z))) : py (list (gmap string Z)) :=
  match l with
  | [] => Ok []
  | None :: _ => Raise AttributeError
  | Some d :: l' =>
      if decide (d ∈ seen) then remove_duplicates_loop seen l'
      else unique_dicts ← remove_duplicates_loop (d :: seen) l';
           Ok (d :: unique_dicts)
  end.

Definition __remove_duplicates (list_of_multisets : list (option (gmap string Z)))
    : py (list (gmap string Z)) :=
  remove_duplicates_loop [] list_of_multisets.

Fixpoint __has_subset_of_list (multiset : gmap string Z)
    (lst_of_multisets : list (gmap string Z)) : py bool :=
  match lst_of_multisets with
  | [] => Ok false
  | m :: l =>
      b ← is_subset m multiset;
      if b : bool then Ok true else __has_subset_of_list multiset l
  end.

(** The test shared by [__remove_supersets] and by the final filter of the
    driver: [m] has no subset among the elements of the list other than
    (the copies of) [m]. *)
Definition has_no_other_subset (l : list (gmap string Z)) (m : gmap string Z)
    : py bool :=
  b ← __has_subset_of_list m (filter (λ e, e ≠ m) l);
  Ok (negb b).

Definition __remove_supersets (list_of_multisets : list (gmap string Z))
    : py (list (gmap string Z)) :=
  filter_py (has_no_other_subset list_of_multisets) list_of_multisets.

(** The entries of the [explored] log: the driver appends dictionaries, the
    expansion appends lists of values; a list never equals a dictionary. *)
Definition explored_entry : Type := gmap string Z + list Z.

Definition search_state : Type :=
  list (gmap string Z) * list (gmap string Z) * list explored_entry.

(** The body of [for i in [r_1, r_2]] in [multiset_expansion]. *)
Definition route (k : Z) (ts : SATransitionSystem) (i : gmap string Z)
    (s : search_state) : py search_state :=
  let '(r, discovered, explored) := s in
  if decide (inr (dict_values i) ∈ explored) then Ok (r, discovered, explored)
  else
    valid ← __is_valid_candidate k i;
    if valid : bool then
      reg ← is_region i ts;
      if reg : bool
      then Ok (r, discovered ++ [i], explored ++ [inr (dict_values i)])
      else Ok (r ++ [i], discovered, explored)
    else Ok (r, discovered, explored ++ [inr (dict_values i)]).

Definition loop_result : Type :=
  list (gmap string Z) * list explored_entry * nat.

(** One round of the [while r] loop of [multiset_expansion] on a
    non-empty work list; [continue] stands for the rest of the loop. *)
Definition expansion_round
    (continue : list (gmap string Z) → list (gmap string Z) →
                list explored_entry → nat → py loop_result)
    (k : Z) (ts : SATransitionSystem)
    (r discovered : list (gmap string Z)) (explored : list explored_entry)
    (niter : nat) : py loop_result :=
  idx ← py_argmax ((λ i, py_sum (dict_values i)) <$> r);
  '(r_hat, r) ← py_pop r idx;
  if decide (inr (dict_values r_hat) ∈ explored)
  then continue r discovered explored (S niter)
  else
    let explored := explored ++ [inr (dict_values r_hat)] in
    lst_non_constant_events ← get_illegal_events r_hat ts;
    chosen ← __get_event_gradient_for_expansion lst_non_constant_events;
    let '(event_name, g_min, g_max, g_e) := chosen in
    r_1 ← get_multiset_expansion_on_event_by_g g_e event_name r_hat ts;
    r_2 ← get_multiset_expansion_on_event_by_G (g_e + 1) event_name r_hat ts;
    s1 ← route k ts r_1 (r, discovered, explored);
    s2 ← route k ts r_2 s1;
    let '(r, discovered, explored) := s2 in
    continue r discovered explored (S niter).

(** The [while r] loop; [fuel] bounds the number of rounds. *)
Fixpoint expansion_loop (fuel : nat) (k : Z) (ts : SATransitionSystem)
    (r discovered : list (gmap string Z)) (explored : list explored_entry)
    (niter : nat) : py loop_result :=
  match r with
  | [] => Ok (discovered, explored, niter)
  | _ :: _ =>
    match fuel with
    | O => OutOfFuel
    | S fuel' =>
        expansion_round (expansion_loop fuel' k ts) k ts r discovered
                        explored niter
    end
  end.

Definition multiset_expansion (fuel : nat) (k : Z) (multiset : gmap string Z)
    (niter : nat) (ts : SATransitionSystem)
    (discovered_minimal_regions : list (gmap string Z))
    (explored_multisets : list explored_entry) : py loop_result :=
  expansion_loop fuel k ts [multiset] discovered_minimal_regions
                 explored_multisets niter.

(** One round of the [while candidates] loop of
    [generate_all_minimal_regions_v1] on a non-empty list of candidates;
    [expand] stands for the call of [multiset_expansion]. *)
Definition candidates_round
    (continue : list (gmap string Z) → list (gmap string Z) →
                list explored_entry → nat → py loop_result)
    (expand : gmap string Z → nat → list (gmap string Z) →
              list explored_entry → py loop_result)
    (ts : SATransitionSystem)
    (candidates discovered : list (gmap string Z))
    (explored : list explored_entry) (iterations : nat) : py loop_result :=
  idx ← py_argmin ((λ c, py_sum (dict_values c)) <$> candidates);
  '(r_tilde, candidates) ← py_pop candidates idx;
  reg ← is_region r_tilde ts;
  if reg : bool then
    if decide (r_tilde ∈ discovered)
    then continue candidates discovered explored (S iterations)
    else continue candidates (discovered ++ [r_tilde])
                  (explored ++ [inl r_tilde]) (S iterations)
  else
    res ← expand r_tilde iterations discovered explored;
    let '(discovered, explored, niter) := res in
    continue candidates discovered explored niter.

(** The [while candidates] loop; [fuel] bounds the number of its rounds
    and of the rounds of each expansion. *)
Fixpoint candidates_loop (fuel : nat) (k : Z) (ts : SATransitionSystem)
    (candidates discovered : list (gmap string Z))
    (explored : list explored_entry) (iterations : nat) : py loop_result :=
  match candidates with
  | [] => Ok (discovered, explored, iterations)
  | _ :: _ =>
    match fuel with
    | O => OutOfFuel
    | S fuel' =>
        candidates_round
          (candidates_loop fuel' k ts)
          (λ multiset niter discovered explored,
             multiset_expansion fuel' k multiset niter ts discovered explored)
          ts candidates discovered explored iterations
    end
  end.

Definition generate_all_minimal_regions_v1 (fuel : nat) (k : Z)
    (ts : SATransitionSystem) : py loop_result :=
  candidates ← get_candidates ts;
  candidates ← __remove_duplicates candidates;
  candidates ← __remove_supersets candidates;
  res ← candidates_loop fuel k ts candidates [] [] 0%nat;
  let '(discovered_minimal_regions, explored_multisets, iterations) := res in
  temp ← filter_py (has_no_other_subset discovered_minimal_regions)
                   discovered_minimal_regions;
  let iterations := (iterations + length discovered_minimal_regions)%nat in
  discovered_minimal_regions ← __remove_duplicates (Some <$> temp);
  Ok (discovered_minimal_regions, explored_multisets, iterations).

(** ** Sample systems *)

(** [create_sample_ts] *)
Definition sample_ts : SATransitionSystem :=
  {| get_state_names := ["s_1"; "s_2"; "s_3"; "s_4"]%string;
     get_event_names := ["a"; "b"; "c"]%string;
     get_all_state_transitions :=
       [("s_1", "a", "s_2"); ("s_1", "b", "s_3");
        ("s_2", "c", "s_4"); ("s_3", "c", "s_4")]%string |}.

(** The system left by [add_transition('a', '', 's1')]: the event and the
    target state are registered, the arc is not (the empty state name is
    refused), so event [a] labels no transition. *)
Definition isolated_event_ts : SATransitionSystem :=
  {| get_state_names := ["s1"]%string;
     get_event_names := ["a"]%string;
     get_all_state_transitions := [] |}.

Definition m_s1_zero : gmap string Z := {[ "s1"%string := 0 ]}.

(** One event with two arcs whose gradients are far apart. *)
Definition wide_ts : SATransitionSystem :=
  {| get_state_names := ["s1"; "s2"; "s3"]%string;
     get_event_names := ["a"]%string;
     get_all_state_transitions :=
       [("s1", "a", "s2"); ("s1", "a", "s3")]%string |}.

Definition m_wide : gmap string Z :=
  {[ "s1"%string := 0; "s2"%string := 2 ^ 53 + 3; "s3"%string := 0 ]}.

(** Single self-loop: S = {s1}, E = {a}, T = {(s1, a, s1)}. *)
Definition self_loop_ts : SATransitionSystem :=
  {| get_state_names := ["s1"]%string;
     get_event_names := ["a"]%string;
     get_all_state_transitions := [("s1", "a", "s1")]%string |}.

Definition m_s1_one : gmap string Z := {[ "s1"%string := 1 ]}.

(** One arc: S = {s1, s2}, E = {a}, T = {(s1, a, s2)}. *)
Definition one_arc_ts : SATransitionSystem :=
  {| get_state_names := ["s1"; "s2"]%string;
     get_event_names := ["a"]%string;
     get_all_state_transitions := [("s1", "a", "s2")]%string |}.

Definition m_s1 : gmap string Z := {[ "s1"%string := 1; "s2"%string := 0 ]}.
Definition m_s2 : gmap string Z := {[ "s1"%string := 0; "s2"%string := 1 ]}.

(** The regions and the log of the run on [sample_ts] with [k = 1]. *)
Definition m_1000 : gmap string Z :=
  {[ "s_1"%string := 1; "s_2"%string := 0; "s_3"%string := 0;
     "s_4"%string := 0 ]}.
Definition m_0110 : gmap string Z :=
  {[ "s_1"%string := 0; "s_2"%string := 1; "s_3"%string := 1;
     "s_4"%string := 0 ]}.
Definition m_0001 : gmap string Z :=
  {[ "s_1"%string := 0; "s_2"%string := 0; "s_3"%string := 0;
     "s_4"%string := 1 ]}.

Definition sample_regions : list (gmap string Z) := [m_1000; m_0110; m_0001].

Definition sample_explored : list explored_entry :=
  [inl m_1000; inr [0; 1; 0; 0]; inr [0; 1; 1; 0]; inr [0; 1; 0; 1];
   inr [0; 1; 1; 1]; inr [0; 1; 0; 2]; inr [0; 0; 1; 0]; inr [0; 0; 1; 1];
   inr [0; 0; 1; 2]; inl m_0001].

(** A marking over the states of [sample_ts] that is not a region. *)
Definition m_0101 : gmap string Z :=
  {[ "s_1"%string := 0; "s_2"%string := 1; "s_3"%string := 0;
     "s_4"%string := 1 ]}.

(** Three markings over one domain. *)
Definition m_a : gmap string Z := {[ "s1"%string := 1; "s2"%string := 0 ]}.
Definition m_b : gmap string Z := {[ "s1"%string := 0; "s2"%string := 2 ]}.
Definition m_c : gmap string Z := {[ "s1"%string := 3; "s2"%string := 1 ]}.

(** The two markings of the domain-mismatch scenario. *)
Definition m_s1_s2 : gmap string Z := {[ "s1"%string := 1; "s2"%string := 0 ]}.
Definition m_s1_s3 : gmap string Z := {[ "s1"%string := 1; "s3"%string := 0 ]}.

(** ** The per-state increments as the specification words them

    [delta_g_spec ts r e s g d]: [d] is 0 when [s] has no outgoing [e]-arc,
    and otherwise [max(0, M)] for [M] the greatest of the values
    [r(to) - r(s) - g] over the arcs [(s, e, to)]; [delta_G_spec] is the
    same over the incoming arcs [(from, e, s)] with [r(from) - r(s) + g]. *)

Definition is_max_of (P : Z → Prop) (M : Z) : Prop :=
  P M ∧ ∀ v, P v → v ≤ M.

Definition outgoing_value (ts : SATransitionSystem) (r : gmap string Z)
    (e s : string) (g v : Z) : Prop :=
  ∃ to rt rs, (s, e, to) ∈ get_all_state_transitions ts
              ∧ r !! to = Some rt ∧ r !! s = Some rs ∧ v = rt - rs - g.

Definition incoming_value (ts : SATransitionSystem) (r : gmap string Z)
    (e s : string) (g v : Z) : Prop :=
  ∃ from rf rs, (from, e, s) ∈ get_all_state_transitions ts
                ∧ r !! from = Some rf ∧ r !! s = Some rs ∧ v = rf - rs + g.

Definition delta_g_spec (ts : SATransitionSystem) (r : gmap string Z)
    (e s : string) (g d : Z) : Prop :=
  ((∀ to, (s, e, to) ∉ get_all_state_transitions ts) ∧ d = 0)
  ∨ (∃ M, is_max_of (outgoing_value ts r e s g) M ∧ d = Z.max 0 M).

Definition delta_G_spec (ts : SATransitionSystem) (r : gmap string Z)
    (e s : string) (g d : Z) : Prop :=
  ((∀ from, (from, e, s) ∉ get_all_state_transitions ts) ∧ d = 0)
  ∨ (∃ M, is_max_of (incoming_value ts r e s g) M ∧ d = Z.max 0 M).

(** ** Seeds of the search *)

(** [seed ts m]: [m] is the excitation set or the switching set of an
    event of [ts]. *)
Definition seed (ts : SATransitionSystem) (m : gmap string Z) : Prop :=
  ∃ e, e ∈ get_event_names ts
       ∧ (get_excitation_set_by_event e ts = Ok (Some m)
          ∨ get_switching_set_by_event e ts = Ok (Some m)).

(** [expansion_of r i]: [i] is one of the two repair expansions of [r]. *)
Definition expansion_of (ts : SATransitionSystem) (r i : gmap string Z)
    : Prop :=
  ∃ g e, get_multiset_expansion_on_event_by_g g e r ts = Ok i
         ∨ get_multiset_expansion_on_event_by_G g e r ts = Ok i.

(** ** The finite space of the expansion

    The lists of [n] values between 0 and [K], and, for the search on
    [ts] with bound [k], the lists of values of the markings over the
    states of [ts] with multiplicities between 0 and [max(k, 1)]. *)

Fixpoint all_lists (n : nat) (K : Z) : list (list Z) :=
  match n with
  | O => [[]]
  | S n' => seqZ 0 (K + 1) ≫= λ x, cons x <$> all_lists n' K
  end.

Definition value_space (k : Z) (ts : SATransitionSystem) : list (list Z) :=
  all_lists (size (state_set ts)) (Z.max k 1).

Definition in_space (k : Z) (ts : SATransitionSystem) (m : gmap string Z)
    : Prop :=
  dom m = state_set ts ∧ ∀ s v, m !! s = Some v → 0 ≤ v ≤ Z.max k 1.

(** The number of lists of the space that are not yet in the log. *)
Definition unexplored (space : list (list Z)) (ex : list explored_entry)
    : nat :=
  length (filter (λ v, inr v ∉ ex) space).

(** Every event of the system labels a transition (as in every system
    built by [add_transition] from non-empty state names). *)
Definition ts_live (ts : SATransitionSystem) : Prop :=
  Forall (λ e, Exists (λ t, st_event t = e) (get_all_state_transitions ts))
         (get_event_names ts).

(** The budget of rounds that suffices for the search on [ts] with [k]. *)
Definition enough_fuel (k : Z) (ts : SATransitionSystem) : nat :=
  2 * length (get_event_names ts) + 3 * length (value_space k ts) + 2.

(** ** Further functions of regions.py *)

Definition is_valid_multiset (multiset : gmap string Z)
    (ts : SATransitionSystem) : bool :=
  bool_decide (dom multiset = state_set ts).

(** The keys are enumerated by ascending name, as for the dictionaries of
    the search. *)
Definition get_support_of_region (multiset : gmap string Z) : list string :=
  (filter (λ kv, 0 < kv.2) (dict_items multiset)).*1.

Definition get_k_topset (k : Z) (multiset : gmap string Z) : gmap string Z :=
  (λ v, if v <? k then 0 else v) <$> multiset.

Definition is_multiset_k_bounded (k : Z) (multiset : gmap string Z) : bool :=
  forallb (λ value, value <=? k) (dict_values multiset).

(** [is_subset] called on what [get_excitation_set_by_event] returned:
    [None] has no [keys], and [AttributeError] is not caught. *)
Definition is_subset_of_result (multiset_a : option (gmap string Z))
    (multiset_b : gmap string Z) : py bool :=
  match multiset_a with
  | Some a => is_subset a multiset_b
  | None => Raise AttributeError
  end.

Definition is_preregion_of_event (event_name : string)
    (multiset : gmap string Z) (ts : SATransitionSystem) : py bool :=
  excitation_set_by_event ← get_excitation_set_by_event event_name ts;
  reg ← is_region multiset ts;
  if reg : bool then is_subset_of_result excitation_set_by_event multiset
  else Ok false.

Definition is_postregion_of_event (event_name : string)
    (multiset : gmap string Z) (ts : SATransitionSystem) : py bool :=
  switching_set_by_event ← get_switching_set_by_event event_name ts;
  reg ← is_region multiset ts;
  if reg : bool then is_subset_of_result switching_set_by_event multiset
  else Ok false.

(** [[d for d in lst if not all(d.get(k) == v for k, v in target.items())]] *)
Definition __remove_duplicates_from_list (lst : list (gmap string Z))
    (target : gmap string Z) : list (gmap string Z) :=
  filter (λ d, forallb (λ kv, bool_decide (d !! kv.1 = Some kv.2))
                       (dict_items target) = false) lst.


Definition __is_minimal_region (k : Z) (multiset : gmap string Z)
    (minimal_regions : list (gmap string Z)) : py bool :=
  valid ← __is_valid_candidate k multiset;
  if valid : bool then
    if decide (multiset ∈ minimal_regions) then Ok false
    else has_subset ← __has_subset_of_list multiset minimal_regions;
         Ok (negb has_subset)
  else Ok false.

(** ** Repairs of an event

    [repairs_sources ts e g r r']: measured from [r'] at the source to [r]
    at the target, no arc of [e] has a gradient above [g];
    [repairs_targets ts e g r r']: measured from [r] at the source to [r']
    at the target, no arc of [e] has a gradient below [g]. *)

Definition repairs_sources (ts : SATransitionSystem) (e : string) (g : Z)
    (r r' : gmap string Z) : Prop :=
  ∀ s to v' rt, (s, e, to) ∈ get_all_state_transitions ts →
                r' !! s = Some v' → r !! to = Some rt → rt - v' ≤ g.

Definition repairs_targets (ts : SATransitionSystem) (e : string) (g : Z)
    (r r' : gmap string Z) : Prop :=
  ∀ from s rf v', (from, e, s) ∈ get_all_state_transitions ts →
                  r !! from = Some rf → r' !! s = Some v' → g ≤ v' - rf.

(** ** Building a transition system (objects/sa_transition_system.py)

    The object is kept as its getters show it: the names of its states
    and of its events, and the triples of its transitions.  The states
    and the transitions are stored in the sets of the base class of
    pm4py, to which [add_arc_from_to] adds the new transition.  A method
    returns its result together with the object as it leaves it. *)

Record ts_object : Type := {
  obj_states : gset string;
  obj_events : gset string;
  obj_transitions : gset state_transition;
  obj_initial_states : gset string
}.

(** [SATransitionSystem()] *)
Definition new_ts : ts_object :=
  {| obj_states := ∅; obj_events := ∅; obj_transitions := ∅;
     obj_initial_states := ∅ |}.

(** What regions.py reads of the object. *)
Definition system_of (o : ts_object) : SATransitionSystem :=
  {| get_state_names := elements (obj_states o);
     get_event_names := elements (obj_events o);
     get_all_state_transitions := elements (obj_transitions o) |}.

Definition set_intial_state (state_name : string) (o : ts_object)
    : bool * ts_object :=
  if decide (state_name ∈ obj_states o) then
    (true, {| obj_states := obj_states o; obj_events := obj_events o;
              obj_transitions := obj_transitions o;
              obj_initial_states := {[ state_name ]} ∪ obj_initial_states o |})
  else (false, o).

Definition __add_state (state_name : string) (o : ts_object)
    : bool * ts_object :=
  if decide (state_name = EmptyString) then (false, o)
  else if decide (state_name ∈ obj_states o) then (false, o)
  else (true, {| obj_states := {[ state_name ]} ∪ obj_states o;
                 obj_events := obj_events o;
                 obj_transitions := obj_transitions o;
                 obj_initial_states := obj_initial_states o |}).

Definition __ensure_state_exists (state_name : string) (o : ts_object)
    : ts_object :=
  if decide (state_name ∈ obj_states o) then o
  else (__add_state state_name o).2.

Definition __add_event (event_name : string) (o : ts_object)
    : bool * ts_object :=
  if decide (event_name ∈ obj_events o) then (true, o)
  else (true, {| obj_states := obj_states o;
                 obj_events := {[ event_name ]} ∪ obj_events o;
                 obj_transitions := obj_transitions o;
                 obj_initial_states := obj_initial_states o |}).

Definition __ensure_event_exists (event_name : string) (o : ts_object)
    : ts_object :=
  if decide (event_name ∈ obj_events o) then o
  else (__add_event event_name o).2.

(** The state object of that name, or [None] (after a warning). *)
Definition get_state_by_name (state_name : string) (o : ts_object)
    : option string :=
  if decide (state_name ∈ obj_states o) then Some state_name else None.

Definition add_transition (event_name from_state_name to_state_name : string)
    (o : ts_object) : py (bool * ts_object) :=
  let st := (from_state_name, event_name, to_state_name) in
  if decide (st ∈ obj_transitions o) then Raise ValueError
  else
    let o := __ensure_event_exists event_name o in
    let o := __ensure_state_exists from_state_name o in
    let o := __ensure_state_exists to_state_name o in
    match get_state_by_name from_state_name o,
          get_state_by_name to_state_name o with
    | Some _, Some _ =>
        Ok (true, {| obj_states := obj_states o; obj_events := obj_events o;
                     obj_transitions := {[ st ]} ∪ obj_transitions o;
                     obj_initial_states := obj_initial_states o |})
    | _, _ => Ok (false, o)
    end.

Fixpoint add_transitions_batch (state_transitions : list state_transition)
    (o : ts_object) : py (list state_transition * ts_object) :=
  match state_transitions with
  | [] => Ok ([], o)
  | st :: rest =>
      let '(from_state_name, event_name, to_state_name) := st in
      match add_transition event_name from_state_name to_state_name o with
      | Ok (flag, o) =>
          '(added, o) ← add_transitions_batch rest o;
          Ok (if flag : bool then st :: added else added, o)
      | Raise ValueError => add_transitions_batch rest o
      | Raise e => Raise e
      | OutOfFuel => OutOfFuel
      end
  end.

(** [create_sample_ts()] of regions.py *)
Definition create_sample_ts : py ts_object :=
  '(_, ts) ← add_transitions_batch
               [("s_1", "a", "s_2"); ("s_1", "b", "s_3");
                ("s_2", "c", "s_4"); ("s_3", "c", "s_4")]%string new_ts;
  let '(_, ts) := set_intial_state "s_1" ts in
  Ok ts.

(** The invariant of the objects built from [SATransitionSystem()] by
    [add_transition]: no state has the empty name, and every transition
    joins two states by an event of the object. *)
Definition obj_wf (o : ts_object) : Prop :=
  (EmptyString ∉ obj_states o)
  ∧ (∀ st, st ∈ obj_transitions o →
           st_from st ∈ obj_states o ∧ st_to st ∈ obj_states o
           ∧ st_event st ∈ obj_events o).


(** ** The first search driver ([generate_all_minimal_regions_o])

    [candidates], [minimal_multisets], [explored_multisets] and
    [iterations] are the variables of the loop. *)

Definition o_result : Type :=
  list (gmap string Z) * list (gmap string Z) * nat.

(** [if get_power_of_multiset(r) <= k and not is_trivial(r):
       candidates.append(r)
     else: explored_multisets.append(r)] *)
Definition o_route (k : Z) (r : gmap string Z)
    (candidates explored : list (gmap string Z))
    : py (list (gmap string Z) * list (gmap string Z)) :=
  p ← get_power_of_multiset r;
  if (p <=? k) && negb (is_trivial r)
  then Ok (candidates ++ [r], explored)
  else Ok (candidates, explored ++ [r]).

(** One round of the [while candidates] loop on a non-empty list;
    [candidates.pop()] takes the last element. *)
Definition o_round
    (continue : list (gmap string Z) → list (gmap string Z) →
                list (gmap string Z) → nat → py o_result)
    (k : Z) (ts : SATransitionSystem)
    (candidates minimal_multisets explored : list (gmap string Z))
    (iterations : nat) : py o_result :=
  '(candidate, candidates) ←
     py_pop candidates (Nat.pred (length candidates));
  let explored := explored ++ [candidate] in
  if decide (candidate ∈ minimal_multisets)
  then continue candidates minimal_multisets explored (S iterations)
  else
    let minimal_multisets := minimal_multisets ++ [candidate] in
    reg ← is_region candidate ts;
    if reg : bool
    then continue candidates minimal_multisets explored (S iterations)
    else
      lst_non_constant_events ← get_illegal_events candidate ts;
      chosen ← __get_event_gradient_for_expansion lst_non_constant_events;
      let '(event_name, g_min, g_max, g_e) := chosen in
      r_1 ← get_multiset_expansion_on_event_by_g g_e event_name candidate ts;
      '(candidates, explored) ← o_route k r_1 candidates explored;
      r_2 ← get_multiset_expansion_on_event_by_G (g_e + 1) event_name
              candidate ts;
      '(candidates, explored) ← o_route k r_2 candidates explored;
      continue candidates minimal_multisets explored (S iterations).

Fixpoint o_loop (fuel : nat) (k : Z) (ts : SATransitionSystem)
    (candidates minimal_multisets explored : list (gmap string Z))
    (iterations : nat) : py o_result :=
  match candidates with
  | [] => Ok (minimal_multisets, explored, iterations)
  | _ :: _ =>
    match fuel with
    | O => OutOfFuel
    | S fuel' =>
        o_round (o_loop fuel' k ts) k ts candidates minimal_multisets
                explored iterations
    end
  end.

(** The candidates of [get_candidates] are dictionaries (an excitation
    or switching set is [None] only for an event that the system does not
    have), so the loop is given on dictionaries. *)
Definition generate_all_minimal_regions_o (fuel : nat) (k : Z)
    (ts : SATransitionSystem) : py o_result :=
  candidates ← get_candidates ts;
  res ← o_loop fuel k ts (omap id candidates) [] [] 0%nat;
  let '(minimal_multisets, explored_multisets, iterations) := res in
  temp ← filter_py (λ ms, is_region ms ts) minimal_multisets;
  let iterations := (iterations + length minimal_multisets)%nat in
  minimal_regions ← filter_py (has_no_other_subset temp) temp;
  let iterations := (iterations + length temp)%nat in
  Ok (minimal_regions, explored_multisets, iterations).

(** The markings over the given states with multiplicities between 0 and
    [K], and the budget of rounds that suffices for the first search. *)
Definition all_markings (states : list string) (K : Z)
    : list (gmap string Z) :=
  foldr (λ s acc, x ← seqZ 0 (K + 1); (λ m, <[s := x]> m) <$> acc)
        [∅] states.

Definition o_enough_fuel (k : Z) (ts : SATransitionSystem) : nat :=
  3 * length (all_markings (get_state_names ts) (Z.max k 1))
  + 2 * length (get_event_names ts) + 1.

(* ================================================================= *)
(** * Properties *)

(** ** Outcomes *)

Lemma bind_Ok {A B} (c : py A) (f : A → py B) (y : B) :
  c ≫= f = Ok y → ∃ a, c = Ok a ∧ f a = Ok y.
Proof. destruct c as [a| |]; simpl; try discriminate. by exists a. Qed.

Ltac bind_inv H :=
  let a := fresh "a" in
  let Ha := fresh "Ha" in
  apply bind_Ok in H as (a & Ha & H).

(** ** Loops over lists *)

Lemma for_each_Forall2 {A B} (f : A → py B) (l : list A) (ys : list B) :
  for_each f l = Ok ys → Forall2 (λ x y, f x = Ok y) l ys.
Proof.
  revert ys. induction l as [|x l IH]; intros ys; simpl.
  - intros [= <-]. constructor.
  - destruct (f x) as [y| |] eqn:Hx; simpl; try discriminate.
    destruct (for_each f l) as [ys'| |]; simpl; try discriminate.
    intros [= <-]. constructor; [done|]. by apply IH.
Qed.

Lemma for_each_ok {A B} (f : A → py B) (l : list A) :
  Forall (λ x, ∃ y, f x = Ok y) l → ∃ ys, for_each f l = Ok ys.
Proof.
  induction 1 as [|x l [y Hy] _ [ys Hys]]; simpl.
  - by eexists.
  - rewrite Hy. simpl. rewrite Hys. simpl. by eexists.
Qed.

Lemma for_each_pure {A B} (f : A → py B) (g : A → B) (l : list A) :
  Forall (λ x, f x = Ok (g x)) l → for_each f l = Ok (g <$> l).
Proof.
  induction 1 as [|x l Hx _ IH]; simpl; [done|].
  rewrite Hx. simpl. rewrite IH. done.
Qed.

(** ** Lists of integers *)

Lemma foldl_max_spec (l : list Z) (x : Z) :
  foldl Z.max x l ∈ x :: l ∧ ∀ v, v ∈ x :: l → v ≤ foldl Z.max x l.
Proof.
  revert x. induction l as [|y l IH]; intros x; simpl.
  - split; [left|]. intros v Hv. apply list_elem_of_singleton in Hv. lia.
  - destruct (IH (Z.max x y)) as [Hin Hub]. split.
    + apply elem_of_cons in Hin as [Heq|Hin].
      * rewrite Heq. destruct (Z.max_spec x y) as [[_ ->]|[_ ->]];
          [right; left | left].
      * right. right. exact Hin.
    + intros v Hv. apply elem_of_cons in Hv as [->|Hv].
      * etrans; [|apply Hub; left]. lia.
      * apply elem_of_cons in Hv as [->|Hv].
        -- etrans; [|apply Hub; left]. lia.
        -- apply Hub. right. exact Hv.
Qed.

Lemma foldl_min_spec (l : list Z) (x : Z) :
  foldl Z.min x l ∈ x :: l ∧ ∀ v, v ∈ x :: l → foldl Z.min x l ≤ v.
Proof.
  revert x. induction l as [|y l IH]; intros x; simpl.
  - split; [left|]. intros v Hv. apply list_elem_of_singleton in Hv. lia.
  - destruct (IH (Z.min x y)) as [Hin Hlb]. split.
    + apply elem_of_cons in Hin as [Heq|Hin].
      * rewrite Heq. destruct (Z.min_spec x y) as [[_ ->]|[_ ->]];
          [left | right; left].
      * right. right. exact Hin.
    + intros v Hv. apply elem_of_cons in Hv as [->|Hv].
      * etrans; [apply Hlb; left|]. lia.
      * apply elem_of_cons in Hv as [->|Hv].
        -- etrans; [apply Hlb; left|]. lia.
        -- apply Hlb. right. exact Hv.
Qed.

Lemma py_max_spec (l : list Z) (p : Z) :
  py_max l = Ok p → p ∈ l ∧ ∀ v, v ∈ l → v ≤ p.
Proof.
  destruct l as [|x l]; simpl; [discriminate|].
  intros [= <-]. apply foldl_max_spec.
Qed.

Lemma py_min_spec (l : list Z) (p : Z) :
  py_min l = Ok p → p ∈ l ∧ ∀ v, v ∈ l → p ≤ v.
Proof.
  destruct l as [|x l]; simpl; [discriminate|].
  intros [= <-]. apply foldl_min_spec.
Qed.

Lemma py_max_ok (l : list Z) : l ≠ [] → ∃ p, py_max l = Ok p.
Proof. destruct l; [done|]. intros _. eexists. reflexivity. Qed.

(** ** Dictionaries *)

Lemma dict_items_perm (m : gmap string Z) : dict_items m ≡ₚ map_to_list m.
Proof. apply merge_sort_Permutation. Qed.

Lemma elem_of_dict_items (m : gmap string Z) (k : string) (v : Z) :
  (k, v) ∈ dict_items m ↔ m !! k = Some v.
Proof. rewrite dict_items_perm. apply elem_of_map_to_list. Qed.

Lemma NoDup_fst_dict_items (m : gmap string Z) : NoDup (dict_items m).*1.
Proof. rewrite dict_items_perm. apply NoDup_fst_map_to_list. Qed.

Lemma elem_of_dict_values (m : gmap string Z) (v : Z) :
  v ∈ dict_values m ↔ ∃ k, m !! k = Some v.
Proof.
  unfold dict_values. rewrite list_elem_of_fmap. split.
  - intros [[k w] [-> Hin]]. exists k. by apply elem_of_dict_items.
  - intros [k Hk]. exists (k, v). split; [done|]. by apply elem_of_dict_items.
Qed.

Lemma dict_values_nil (m : gmap string Z) : dict_values m = [] ↔ m = ∅.
Proof.
  unfold dict_values. split.
  - intros H. apply fmap_nil_inv in H.
    apply map_to_list_empty_iff. apply Permutation_nil_r.
    rewrite <- H. symmetry. apply dict_items_perm.
  - intros ->. unfold dict_items. rewrite map_to_list_empty. reflexivity.
Qed.

(** ** Multiset algebra *)

Lemma power_spec (a : gmap string Z) (p : Z) :
  get_power_of_multiset a = Ok p →
  (∃ s, a !! s = Some p) ∧ (∀ s v, a !! s = Some v → v ≤ p).
Proof.
  intros H. apply py_max_spec in H as [Hin Hub]. split.
  - by apply elem_of_dict_values.
  - intros s v Hs. apply Hub. apply elem_of_dict_values. by exists s.
Qed.

Lemma power_ok (a : gmap string Z) :
  a ≠ ∅ → ∃ p, get_power_of_multiset a = Ok p.
Proof.
  intros Hne. apply py_max_ok. intros H. by apply dict_values_nil in H.
Qed.

Lemma power_empty : get_power_of_multiset ∅ = Raise ValueError.
Proof. reflexivity. Qed.

(** C8, as amended: on a marking with a non-empty domain
    [get_power_of_multiset] returns the maximum of the multiplicities, and
    for such a marking with non-negative multiplicities the power is 0
    exactly when the marking is all-zero.  (On the empty domain the call
    raises [ValueError], see [power_empty].) *)
Theorem power_of_nonempty_multiset (a : gmap string Z) :
  a ≠ ∅ →
  ∃ p, get_power_of_multiset a = Ok p
       ∧ (∃ s, a !! s = Some p)
       ∧ (∀ s v, a !! s = Some v → v ≤ p)
       ∧ ((∀ s v, a !! s = Some v → 0 ≤ v) →
          (p = 0 ↔ ∀ s v, a !! s = Some v → v = 0)).
Proof.
  intros Hne. destruct (power_ok a Hne) as [p Hp]. exists p.
  destruct (power_spec a p Hp) as [[s Hs] Hub].
  split; [done|]. split; [by exists s|]. split; [done|].
  intros Hnn. split.
  - intros -> s' v Hv. specialize (Hub s' v Hv). specialize (Hnn s' v Hv). lia.
  - intros Hz. by apply (Hz s).
Qed.

Lemma power_of_nonempty_multiset_witness :
  ∃ p, get_power_of_multiset m_s1_s2 = Ok p
       ∧ (∃ s, m_s1_s2 !! s = Some p)
       ∧ (∀ s v, m_s1_s2 !! s = Some v → v ≤ p)
       ∧ ((∀ s v, m_s1_s2 !! s = Some v → 0 ≤ v) →
          (p = 0 ↔ ∀ s v, m_s1_s2 !! s = Some v → v = 0)).
Proof.
  apply (power_of_nonempty_multiset m_s1_s2).
  intros H. apply (f_equal (λ m : gmap string Z, m !! "s1"%string)) in H.
  vm_compute in H. discriminate.
Defined.

(** C8 as stated fails on the empty domain: the call does not return 0. *)
Lemma power_of_empty_multiset_is_not_zero :
  dom (∅ : gmap string Z) = ∅ ∧ get_power_of_multiset ∅ ≠ Ok 0.
Proof. split; [apply dom_empty_L | discriminate]. Qed.

(** C4, as amended: on markings with unequal key sets the [ValueError] is
    caught inside each operation; union, intersection and difference
    return [None] and [is_subset] returns [False], so no exception
    reaches the caller.  In particular [union({s1:1,s2:0}, {s1:1,s3:0})]
    returns [None]. *)
Theorem domain_mismatch_is_caught (a b : gmap string Z) :
  dom a ≠ dom b →
  get_union_of_multisets a b = Ok None
  ∧ get_intersection_of_multisets a b = Ok None
  ∧ get_difference_of_multisets a b = Ok None
  ∧ is_subset a b = Ok false.
Proof.
  intros Hne.
  unfold get_union_of_multisets, get_intersection_of_multisets,
    get_difference_of_multisets, is_subset.
  destruct (decide (dom a = dom b)) as [Heq|_]; [done|]. simpl. done.
Qed.

Lemma m_s1_s2_s3_mismatch : dom m_s1_s2 ≠ dom m_s1_s3.
Proof.
  intros H.
  assert (Hin : "s2"%string ∈ dom m_s1_s2).
  { apply elem_of_dom. exists 0. reflexivity. }
  rewrite H in Hin. apply elem_of_dom in Hin as [v Hv].
  vm_compute in Hv. discriminate.
Qed.

Lemma domain_mismatch_is_caught_witness :
  get_union_of_multisets m_s1_s2 m_s1_s3 = Ok None
  ∧ get_intersection_of_multisets m_s1_s2 m_s1_s3 = Ok None
  ∧ get_difference_of_multisets m_s1_s2 m_s1_s3 = Ok None
  ∧ is_subset m_s1_s2 m_s1_s3 = Ok false.
Proof.
  apply (domain_mismatch_is_caught m_s1_s2 m_s1_s3).
  exact m_s1_s2_s3_mismatch.
Defined.

(** C4 as stated fails: on [{s1:1,s2:0}] and [{s1:1,s3:0}], whose key sets
    differ, neither [union] nor [is_subset] ends in an exception. *)
Lemma domain_mismatch_does_not_raise :
  dom m_s1_s2 ≠ dom m_s1_s3
  ∧ ¬ (∃ e, get_union_of_multisets m_s1_s2 m_s1_s3 = Raise e)
  ∧ ¬ (∃ e, is_subset m_s1_s2 m_s1_s3 = Raise e).
Proof.
  split; [exact m_s1_s2_s3_mismatch|].
  assert (Hu : get_union_of_multisets m_s1_s2 m_s1_s3 = Ok None)
    by (vm_compute; reflexivity).
  assert (Hs : is_subset m_s1_s2 m_s1_s3 = Ok false)
    by (vm_compute; reflexivity).
  rewrite Hu, Hs. split; intros [e He]; discriminate.
Qed.

Lemma union_same_dom (a b : gmap string Z) :
  dom a = dom b →
  get_union_of_multisets a b = Ok (Some (map_zip_with Z.max a b)).
Proof.
  intros H. unfold get_union_of_multisets. rewrite decide_True; done.
Qed.

Lemma intersection_same_dom (a b : gmap string Z) :
  dom a = dom b →
  get_intersection_of_multisets a b = Ok (Some (map_zip_with Z.min a b)).
Proof.
  intros H. unfold get_intersection_of_multisets. rewrite decide_True; done.
Qed.

Lemma dom_zip_same {f : Z → Z → Z} (a b : gmap string Z) :
  dom a = dom b → dom (map_zip_with f a b) = dom a.
Proof. intros H. rewrite dom_map_zip_with_L, <- H. apply intersection_idemp_L. Qed.

Lemma zip_comm (f : Z → Z → Z) (a b : gmap string Z) :
  (∀ x y, f x y = f y x) → map_zip_with f a b = map_zip_with f b a.
Proof.
  intros Hf. apply map_eq. intros i. rewrite !map_lookup_zip_with.
  destruct (a !! i), (b !! i); simpl; try done. by rewrite Hf.
Qed.

Lemma zip_assoc (f : Z → Z → Z) (a b c : gmap string Z) :
  (∀ x y z, f (f x y) z = f x (f y z)) →
  map_zip_with f (map_zip_with f a b) c = map_zip_with f a (map_zip_with f b c).
Proof.
  intros Hf. apply map_eq. intros i. rewrite !map_lookup_zip_with.
  destruct (a !! i), (b !! i), (c !! i); simpl; try done. by rewrite Hf.
Qed.

Lemma zip_idemp (f : Z → Z → Z) (a : gmap string Z) :
  (∀ x, f x x = x) → map_zip_with f a a = a.
Proof.
  intros Hf. apply map_eq. intros i. rewrite map_lookup_zip_with.
  destruct (a !! i); simpl; try done. by rewrite Hf.
Qed.

(** C9: on markings over one domain, [union] (pointwise max) and
    [intersect] (pointwise min) return a marking and are commutative,
    associative and idempotent. *)
Theorem union_intersection_laws (a b c : gmap string Z) :
  dom a = dom b → dom b = dom c →
  ∃ ab bc iab ibc,
    get_union_of_multisets a b = Ok (Some ab)
    ∧ get_union_of_multisets b c = Ok (Some bc)
    ∧ get_union_of_multisets b a = Ok (Some ab)
    ∧ get_union_of_multisets ab c = get_union_of_multisets a bc
    ∧ (∃ abc, get_union_of_multisets ab c = Ok (Some abc))
    ∧ get_union_of_multisets a a = Ok (Some a)
    ∧ get_intersection_of_multisets a b = Ok (Some iab)
    ∧ get_intersection_of_multisets b c = Ok (Some ibc)
    ∧ get_intersection_of_multisets b a = Ok (Some iab)
    ∧ get_intersection_of_multisets iab c = get_intersection_of_multisets a ibc
    ∧ (∃ iabc, get_intersection_of_multisets iab c = Ok (Some iabc))
    ∧ get_intersection_of_multisets a a = Ok (Some a).
Proof.
  intros Hab Hbc.
  exists (map_zip_with Z.max a b), (map_zip_with Z.max b c),
         (map_zip_with Z.min a b), (map_zip_with Z.min b c).
  assert (Hac : dom a = dom c) by congruence.
  repeat split.
  - by apply union_same_dom.
  - by apply union_same_dom.
  - rewrite union_same_dom by done. by rewrite (zip_comm Z.max b a Z.max_comm).
  - rewrite !union_same_dom; rewrite ?dom_zip_same; try congruence.
    by rewrite (zip_assoc Z.max) by (intros; lia).
  - eexists. apply union_same_dom. rewrite dom_zip_same; congruence.
  - rewrite union_same_dom by done. by rewrite zip_idemp by (intros; lia).
  - by apply intersection_same_dom.
  - by apply intersection_same_dom.
  - rewrite intersection_same_dom by done.
    by rewrite (zip_comm Z.min b a Z.min_comm).
  - rewrite !intersection_same_dom; rewrite ?dom_zip_same; try congruence.
    by rewrite (zip_assoc Z.min) by (intros; lia).
  - eexists. apply intersection_same_dom. rewrite dom_zip_same; congruence.
  - rewrite intersection_same_dom by done. by rewrite zip_idemp by (intros; lia).
Qed.

Lemma union_intersection_laws_witness :
  ∃ ab bc iab ibc,
    get_union_of_multisets m_a m_b = Ok (Some ab)
    ∧ get_union_of_multisets m_b m_c = Ok (Some bc)
    ∧ get_union_of_multisets m_b m_a = Ok (Some ab)
    ∧ get_union_of_multisets ab m_c = get_union_of_multisets m_a bc
    ∧ (∃ abc, get_union_of_multisets ab m_c = Ok (Some abc))
    ∧ get_union_of_multisets m_a m_a = Ok (Some m_a)
    ∧ get_intersection_of_multisets m_a m_b = Ok (Some iab)
    ∧ get_intersection_of_multisets m_b m_c = Ok (Some ibc)
    ∧ get_intersection_of_multisets m_b m_a = Ok (Some iab)
    ∧ get_intersection_of_multisets iab m_c
      = get_intersection_of_multisets m_a ibc
    ∧ (∃ iabc, get_intersection_of_multisets iab m_c = Ok (Some iabc))
    ∧ get_intersection_of_multisets m_a m_a = Ok (Some m_a).
Proof.
  apply (union_intersection_laws m_a m_b m_c).
  - apply (bool_decide_unpack _). vm_compute. exact I.
  - apply (bool_decide_unpack _). vm_compute. exact I.
Defined.

(** ** Expansion kernel *)

Lemma delta_g_nonneg g r e s ts d : get_delta_g g r e s ts = Ok d → 0 ≤ d.
Proof.
  unfold get_delta_g. destruct (for_each _ _) as [mv| |]; simpl; try done.
  destruct mv as [|x mv]; [intros [= <-]; lia|].
  simpl. intros [= <-]. lia.
Qed.

Lemma delta_G_nonneg g r e s ts d : get_delta_G g r e s ts = Ok d → 0 ≤ d.
Proof.
  unfold get_delta_G. destruct (for_each _ _) as [mv| |]; simpl; try done.
  destruct mv as [|x mv]; [intros [= <-]; lia|].
  simpl. intros [= <-]. lia.
Qed.

(** What the loop of the two expansions builds from the per-state
    increments. *)
Lemma expansion_items_lookup (delta : string → py Z) (r : gmap string Z)
    (items : list (string * Z)) :
  for_each (λ kv, d ← delta kv.1; Ok (kv.1, kv.2 + d)) (dict_items r)
    = Ok items →
  ∀ s, (list_to_map items : gmap string Z) !! s
       = match r !! s with
         | Some v => match delta s with Ok d => Some (v + d) | _ => None end
         | None => None
         end
       ∧ (is_Some (r !! s) → ∃ d, delta s = Ok d).
Proof.
  intros H. apply for_each_Forall2 in H.
  assert (Hfst : items.*1 = (dict_items r).*1).
  { clear -H. induction H as [|[k v] y l ys Hy _ IH]; [done|].
    simpl in Hy. bind_inv Hy. injection Hy as <-.
    rewrite !fmap_cons, IH. done. }
  assert (Hnd : NoDup items.*1).
  { rewrite Hfst. apply NoDup_fst_dict_items. }
  assert (Hel : ∀ k w, (k, w) ∈ items ↔
            ∃ v d, r !! k = Some v ∧ delta k = Ok d ∧ w = v + d).
  { intros k w. split.
    - intros Hin. apply list_elem_of_lookup in Hin as [i Hi].
      destruct (Forall2_lookup_r _ _ _ _ _ H Hi) as ([k' v] & Hl & Hf).
      simpl in Hf. apply bind_Ok in Hf as (d & Hd & Hf).
      injection Hf as <- <-. exists v, d. split; [|done].
      apply elem_of_dict_items. apply list_elem_of_lookup. by exists i.
    - intros (v & d & Hr & Hd & ->).
      apply elem_of_dict_items, list_elem_of_lookup in Hr as [i Hi].
      destruct (Forall2_lookup_l _ _ _ _ _ H Hi) as (y & Hy & Hf).
      simpl in Hf. rewrite Hd in Hf. simpl in Hf. injection Hf as <-.
      apply list_elem_of_lookup. by exists i. }
  intros s. split.
  - destruct (r !! s) as [v|] eqn:Hr.
    + assert (Hin : (s, v) ∈ dict_items r) by by apply elem_of_dict_items.
      apply list_elem_of_lookup in Hin as [i Hi].
      destruct (Forall2_lookup_l _ _ _ _ _ H Hi) as (y & Hy & Hf).
      simpl in Hf. apply bind_Ok in Hf as (d & Hd & Hf). rewrite Hd.
      apply elem_of_list_to_map; [done|]. apply Hel. by exists v, d.
    + apply not_elem_of_list_to_map. rewrite Hfst.
      intros Hin. apply list_elem_of_fmap in Hin as [[k v] [Hk Hin]].
      simpl in Hk. subst k. apply elem_of_dict_items in Hin. congruence.
  - intros [v Hr].
    assert (Hin : (s, v) ∈ dict_items r) by by apply elem_of_dict_items.
    apply list_elem_of_lookup in Hin as [i Hi].
    destruct (Forall2_lookup_l _ _ _ _ _ H Hi) as (y & Hy & Hf).
    simpl in Hf. apply bind_Ok in Hf as (d & Hd & Hf). by exists d.
Qed.

Lemma expansion_items_dom (delta : string → py Z) (r : gmap string Z)
    (items : list (string * Z)) :
  for_each (λ kv, d ← delta kv.1; Ok (kv.1, kv.2 + d)) (dict_items r)
    = Ok items →
  dom (list_to_map items : gmap string Z) = dom r.
Proof.
  intros H. apply set_eq. intros s. rewrite !elem_of_dom.
  destruct (expansion_items_lookup delta r items H s) as [Hl Hd].
  rewrite Hl. destruct (r !! s) as [v|] eqn:Hr.
  - destruct Hd as [d Hd]; [by eexists|]. rewrite Hd. split; eauto.
  - split; intros [? ?]; done.
Qed.

Lemma expansion_by_g_inv g e r ts r1 :
  get_multiset_expansion_on_event_by_g g e r ts = Ok r1 →
  dom r = state_set ts ∧ dom r1 = dom r
  ∧ ∀ s v, r !! s = Some v →
      ∃ d, get_delta_g g r e s ts = Ok d ∧ r1 !! s = Some (v + d).
Proof.
  unfold get_multiset_expansion_on_event_by_g.
  destruct (decide (dom r = state_set ts)) as [Hdom|]; [|done].
  destruct (for_each _ _) as [items| |] eqn:Hitems; simpl; try done.
  intros [= <-]. split; [done|]. split.
  - by apply (expansion_items_dom (λ s, get_delta_g g r e s ts)).
  - intros s v Hs.
    destruct (expansion_items_lookup (λ s, get_delta_g g r e s ts)
                r items Hitems s) as [Hl Hd].
    destruct Hd as [d Hd]; [by eexists|]. exists d. split; [done|].
    rewrite Hl, Hs. simpl. by rewrite Hd.
Qed.

Lemma expansion_by_G_inv g e r ts r2 :
  get_multiset_expansion_on_event_by_G g e r ts = Ok r2 →
  dom r = state_set ts ∧ dom r2 = dom r
  ∧ ∀ s v, r !! s = Some v →
      ∃ d, get_delta_G g r e s ts = Ok d ∧ r2 !! s = Some (v + d).
Proof.
  unfold get_multiset_expansion_on_event_by_G.
  destruct (decide (dom r = state_set ts)) as [Hdom|]; [|done].
  destruct (for_each _ _) as [items| |] eqn:Hitems; simpl; try done.
  intros [= <-]. split; [done|]. split.
  - by apply (expansion_items_dom (λ s, get_delta_G g r e s ts)).
  - intros s v Hs.
    destruct (expansion_items_lookup (λ s, get_delta_G g r e s ts)
                r items Hitems s) as [Hl Hd].
    destruct Hd as [d Hd]; [by eexists|]. exists d. split; [done|].
    rewrite Hl, Hs. simpl. by rewrite Hd.
Qed.

Lemma closed_lookup ts (r : gmap string Z) (t : state_transition) :
  ts_closed ts → dom r = state_set ts → t ∈ get_all_state_transitions ts →
  is_Some (r !! st_from t) ∧ is_Some (r !! st_to t).
Proof.
  intros Hc Hdom Ht.
  destruct (proj1 (Forall_forall _ _) Hc t Ht) as [Hf Hto].
  split; apply elem_of_dom; rewrite Hdom; unfold state_set;
    by apply elem_of_list_to_set.
Qed.

Lemma elem_of_arcs_by_event_from ts e s (t : state_transition) :
  t ∈ filter (λ st, st_from st = s) (get_state_transition_by_event e ts)
  ↔ ∃ to, t = (s, e, to) ∧ (s, e, to) ∈ get_all_state_transitions ts.
Proof.
  unfold get_state_transition_by_event. rewrite !list_elem_of_filter.
  destruct t as [[f ev] to]. unfold st_from, st_event. simpl. split.
  - intros (-> & -> & Hin). by exists to.
  - intros (to' & [= -> -> ->] & Hin). done.
Qed.

Lemma elem_of_arcs_by_event_to ts e s (t : state_transition) :
  t ∈ filter (λ st, st_to st = s) (get_state_transition_by_event e ts)
  ↔ ∃ from, t = (from, e, s) ∧ (from, e, s) ∈ get_all_state_transitions ts.
Proof.
  unfold get_state_transition_by_event. rewrite !list_elem_of_filter.
  destruct t as [[f ev] to]. unfold st_to, st_event. simpl. split.
  - intros (-> & -> & Hin). by exists f.
  - intros (f' & [= -> -> ->] & Hin). done.
Qed.

Lemma delta_g_meets_spec g (r : gmap string Z) e s ts :
  ts_closed ts → dom r = state_set ts →
  ∃ d, get_delta_g g r e s ts = Ok d ∧ delta_g_spec ts r e s g d.
Proof.
  intros Hc Hdom. unfold get_delta_g.
  set (arcs := filter (λ st, st_from st = s)
                      (get_state_transition_by_event e ts)).
  set (val := λ st : state_transition,
         default 0 (r !! st_to st) - default 0 (r !! st_from st) - g).
  assert (Hin : ∀ t, t ∈ arcs → t ∈ get_all_state_transitions ts).
  { intros t Ht. apply elem_of_arcs_by_event_from in Ht as (to & -> & H).
    done. }
  rewrite (for_each_pure _ val).
  2:{ apply Forall_forall. intros t Ht.
      destruct (closed_lookup ts r t Hc Hdom (Hin t Ht)) as [[a Ha] [b Hb]].
      unfold val. rewrite Ha, Hb. done. }
  simpl. destruct (val <$> arcs) as [|x mv] eqn:Hmv.
  - exists 0. split; [done|]. left. split; [|done]. intros to Hto.
    apply fmap_nil_inv in Hmv.
    assert (H : (s, e, to) ∈ arcs).
    { apply elem_of_arcs_by_event_from. by exists to. }
    rewrite Hmv in H. by apply not_elem_of_nil in H.
  - destruct (py_max_ok (x :: mv)) as [M HM]; [done|].
    rewrite HM. simpl. exists (Z.max 0 M). split; [done|]. right.
    exists M. split; [|done].
    apply py_max_spec in HM as [HMin Hub]. rewrite <- Hmv in HMin, Hub.
    split.
    + apply list_elem_of_fmap in HMin as (t & -> & Ht).
      pose proof (Hin t Ht) as HtT.
      destruct (closed_lookup ts r t Hc Hdom HtT) as [[a Ha] [b Hb]].
      apply elem_of_arcs_by_event_from in Ht as (to & -> & H).
      exists to, b, a. unfold val. unfold st_to, st_from in *. simpl in *.
      rewrite Ha, Hb. done.
    + intros v (to & rt & rs & HT & Hrt & Hrs & ->).
      apply Hub. apply list_elem_of_fmap. exists (s, e, to). split.
      * unfold val, st_to, st_from. simpl. rewrite Hrt, Hrs. done.
      * apply elem_of_arcs_by_event_from. by exists to.
Qed.

Lemma delta_G_meets_spec g (r : gmap string Z) e s ts :
  ts_closed ts → dom r = state_set ts →
  ∃ d, get_delta_G g r e s ts = Ok d ∧ delta_G_spec ts r e s g d.
Proof.
  intros Hc Hdom. unfold get_delta_G.
  set (arcs := filter (λ st, st_to st = s)
                      (get_state_transition_by_event e ts)).
  set (val := λ st : state_transition,
         default 0 (r !! st_from st) - default 0 (r !! st_to st) + g).
  assert (Hin : ∀ t, t ∈ arcs → t ∈ get_all_state_transitions ts).
  { intros t Ht. apply elem_of_arcs_by_event_to in Ht as (from & -> & H).
    done. }
  rewrite (for_each_pure _ val).
  2:{ apply Forall_forall. intros t Ht.
      destruct (closed_lookup ts r t Hc Hdom (Hin t Ht)) as [[a Ha] [b Hb]].
      unfold val. rewrite Ha, Hb. done. }
  simpl. destruct (val <$> arcs) as [|x mv] eqn:Hmv.
  - exists 0. split; [done|]. left. split; [|done]. intros from Hfrom.
    apply fmap_nil_inv in Hmv.
    assert (H : (from, e, s) ∈ arcs).
    { apply elem_of_arcs_by_event_to. by exists from. }
    rewrite Hmv in H. by apply not_elem_of_nil in H.
  - destruct (py_max_ok (x :: mv)) as [M HM]; [done|].
    rewrite HM. simpl. exists (Z.max 0 M). split; [done|]. right.
    exists M. split; [|done].
    apply py_max_spec in HM as [HMin Hub]. rewrite <- Hmv in HMin, Hub.
    split.
    + apply list_elem_of_fmap in HMin as (t & -> & Ht).
      pose proof (Hin t Ht) as HtT.
      destruct (closed_lookup ts r t Hc Hdom HtT) as [[a Ha] [b Hb]].
      apply elem_of_arcs_by_event_to in Ht as (from & -> & H).
      exists from, a, b. unfold val. unfold st_to, st_from in *. simpl in *.
      rewrite Ha, Hb. done.
    + intros v (from & rf & rs & HT & Hrf & Hrs & ->).
      apply Hub. apply list_elem_of_fmap. exists (from, e, s). split.
      * unfold val, st_to, st_from. simpl. rewrite Hrf, Hrs. done.
      * apply elem_of_arcs_by_event_to. by exists from.
Qed.

Lemma expansion_items_ok (delta : string → py Z) (r : gmap string Z) :
  (∀ s, ∃ d, delta s = Ok d) →
  ∃ items,
    for_each (λ kv, d ← delta kv.1; Ok (kv.1, kv.2 + d)) (dict_items r)
      = Ok items.
Proof.
  intros H. apply for_each_ok. apply Forall_forall. intros [k v] _.
  destruct (H k) as [d Hd]. simpl. rewrite Hd. simpl. by eexists.
Qed.

Lemma expansion_by_g_ok g e (r : gmap string Z) ts :
  ts_closed ts → dom r = state_set ts →
  ∃ r1, get_multiset_expansion_on_event_by_g g e r ts = Ok r1.
Proof.
  intros Hc Hdom. unfold get_multiset_expansion_on_event_by_g.
  rewrite decide_True by done.
  destruct (expansion_items_ok (λ s, get_delta_g g r e s ts) r) as [it Hit].
  { intros s. destruct (delta_g_meets_spec g r e s ts Hc Hdom) as (d & Hd & _).
    by exists d. }
  rewrite Hit. simpl. by eexists.
Qed.

Lemma expansion_by_G_ok g e (r : gmap string Z) ts :
  ts_closed ts → dom r = state_set ts →
  ∃ r2, get_multiset_expansion_on_event_by_G g e r ts = Ok r2.
Proof.
  intros Hc Hdom. unfold get_multiset_expansion_on_event_by_G.
  rewrite decide_True by done.
  destruct (expansion_items_ok (λ s, get_delta_G g r e s ts) r) as [it Hit].
  { intros s. destruct (delta_G_meets_spec g r e s ts Hc Hdom) as (d & Hd & _).
    by exists d. }
  rewrite Hit. simpl. by eexists.
Qed.

(** C6: on a marking [r] whose domain is the state set of a (closed)
    system, both expansions return a marking over the same domain, equal
    to [r] plus the per-state increment of the specification. *)
Theorem expansions_meet_spec g e (r : gmap string Z) ts :
  ts_closed ts → dom r = state_set ts →
  ∃ r1 r2,
    get_multiset_expansion_on_event_by_g g e r ts = Ok r1
    ∧ get_multiset_expansion_on_event_by_G g e r ts = Ok r2
    ∧ dom r1 = state_set ts ∧ dom r2 = state_set ts
    ∧ ∀ s, s ∈ state_set ts →
        ∃ rs d1 d2, r !! s = Some rs
                    ∧ delta_g_spec ts r e s g d1 ∧ r1 !! s = Some (rs + d1)
                    ∧ delta_G_spec ts r e s g d2 ∧ r2 !! s = Some (rs + d2).
Proof.
  intros Hc Hdom.
  destruct (expansion_by_g_ok g e r ts Hc Hdom) as [r1 H1].
  destruct (expansion_by_G_ok g e r ts Hc Hdom) as [r2 H2].
  exists r1, r2. split; [done|]. split; [done|].
  destruct (expansion_by_g_inv _ _ _ _ _ H1) as (_ & Hd1 & Hl1).
  destruct (expansion_by_G_inv _ _ _ _ _ H2) as (_ & Hd2 & Hl2).
  split; [congruence|]. split; [congruence|].
  intros s Hs. rewrite <- Hdom in Hs. apply elem_of_dom in Hs as [rs Hrs].
  destruct (Hl1 s rs Hrs) as (d1 & Hg1 & Hr1).
  destruct (Hl2 s rs Hrs) as (d2 & Hg2 & Hr2).
  exists rs, d1, d2.
  destruct (delta_g_meets_spec g r e s ts Hc Hdom) as (d1' & Hd1' & Hs1).
  destruct (delta_G_meets_spec g r e s ts Hc Hdom) as (d2' & Hd2' & Hs2).
  assert (d1' = d1) as -> by congruence.
  assert (d2' = d2) as -> by congruence.
  done.
Qed.

(** C10: neither expansion decreases a multiplicity. *)
Theorem expansions_never_decrease g e (r : gmap string Z) ts :
  ts_closed ts → dom r = state_set ts →
  ∃ r1 r2,
    get_multiset_expansion_on_event_by_g g e r ts = Ok r1
    ∧ get_multiset_expansion_on_event_by_G g e r ts = Ok r2
    ∧ ∀ s, s ∈ state_set ts →
        ∃ v v1 v2, r !! s = Some v ∧ r1 !! s = Some v1 ∧ r2 !! s = Some v2
                   ∧ v ≤ v1 ∧ v ≤ v2.
Proof.
  intros Hc Hdom.
  destruct (expansion_by_g_ok g e r ts Hc Hdom) as [r1 H1].
  destruct (expansion_by_G_ok g e r ts Hc Hdom) as [r2 H2].
  exists r1, r2. split; [done|]. split; [done|].
  destruct (expansion_by_g_inv _ _ _ _ _ H1) as (_ & _ & Hl1).
  destruct (expansion_by_G_inv _ _ _ _ _ H2) as (_ & _ & Hl2).
  intros s Hs. rewrite <- Hdom in Hs. apply elem_of_dom in Hs as [v Hv].
  destruct (Hl1 s v Hv) as (d1 & Hg1 & Hr1).
  destruct (Hl2 s v Hv) as (d2 & Hg2 & Hr2).
  apply delta_g_nonneg in Hg1. apply delta_G_nonneg in Hg2.
  exists v, (v + d1), (v + d2). repeat split; try done; lia.
Qed.

Lemma sample_ts_closed : ts_closed sample_ts.
Proof. apply (bool_decide_unpack _). vm_compute. exact I. Qed.

Lemma m_0101_dom : dom m_0101 = state_set sample_ts.
Proof. apply (bool_decide_unpack _). vm_compute. exact I. Qed.

Lemma expansions_meet_spec_witness :
  ∃ r1 r2,
    get_multiset_expansion_on_event_by_g 0 "c" m_0101 sample_ts = Ok r1
    ∧ get_multiset_expansion_on_event_by_G 0 "c" m_0101 sample_ts = Ok r2
    ∧ dom r1 = state_set sample_ts ∧ dom r2 = state_set sample_ts
    ∧ ∀ s, s ∈ state_set sample_ts →
        ∃ rs d1 d2, m_0101 !! s = Some rs
                    ∧ delta_g_spec sample_ts m_0101 "c" s 0 d1
                    ∧ r1 !! s = Some (rs + d1)
                    ∧ delta_G_spec sample_ts m_0101 "c" s 0 d2
                    ∧ r2 !! s = Some (rs + d2).
Proof.
  apply (expansions_meet_spec 0 "c" m_0101 sample_ts).
  - apply (bool_decide_unpack _). vm_compute. exact I.
  - apply (bool_decide_unpack _). vm_compute. exact I.
Defined.

Lemma expansions_never_decrease_witness :
  ∃ r1 r2,
    get_multiset_expansion_on_event_by_g 0 "c" m_0101 sample_ts = Ok r1
    ∧ get_multiset_expansion_on_event_by_G 0 "c" m_0101 sample_ts = Ok r2
    ∧ ∀ s, s ∈ state_set sample_ts →
        ∃ v v1 v2, m_0101 !! s = Some v ∧ r1 !! s = Some v1
                   ∧ r2 !! s = Some v2 ∧ v ≤ v1 ∧ v ≤ v2.
Proof.
  apply (expansions_never_decrease 0 "c" m_0101 sample_ts).
  - apply (bool_decide_unpack _). vm_compute. exact I.
  - apply (bool_decide_unpack _). vm_compute. exact I.
Defined.

(** The expansions of the hand-traced round of the sample system. *)
Example expansion_by_g_sample :
  dict_items <$> get_multiset_expansion_on_event_by_g 0 "c" m_0101 sample_ts
  = Ok [("s_1", 0); ("s_2", 1); ("s_3", 1); ("s_4", 1)]%string.
Proof. vm_compute. reflexivity. Qed.

Example expansion_by_G_sample :
  dict_items <$> get_multiset_expansion_on_event_by_G 1 "c" m_0101 sample_ts
  = Ok [("s_1", 0); ("s_2", 1); ("s_3", 0); ("s_4", 2)]%string.
Proof. vm_compute. reflexivity. Qed.

(** ** Region predicate and illegal events *)

(** C3 fails on the code: an event that labels no transition has an empty
    gradient list, whose set of values has 0 elements and not 1, so
    [is_region] answers [False] for every marking, here the all-zero one.
    The claim has such an event vacuously consistent. *)
Theorem is_region_false_on_isolated_event :
  dom m_s1_zero = state_set isolated_event_ts
  ∧ get_gradient_of_event "a" m_s1_zero isolated_event_ts = Ok []
  ∧ is_region m_s1_zero isolated_event_ts = Ok false.
Proof.
  split; [apply (bool_decide_unpack _); vm_compute; exact I|].
  split; reflexivity.
Qed.

(** C7 fails on the code: on the same system the event without
    transitions is taken for an illegal one and [min] of its empty
    gradient list raises [ValueError]; the claim has the call return the
    (here empty) list of the events with two or more gradient values. *)
Theorem get_illegal_events_raises_on_isolated_event :
  get_gradient_of_event "a" m_s1_zero isolated_event_ts = Ok []
  ∧ get_illegal_events m_s1_zero isolated_event_ts = Raise ValueError.
Proof. split; reflexivity. Qed.

(** The midpoint goes through binary64: for gradients 0 and 2^53+3 the
    code yields 2^52+2 where the integer floor of the half sum is
    2^52+1. *)
Example midpoint_is_rounded_on_wide_gradients :
  get_illegal_events m_wide wide_ts = Ok [("a"%string, 0, 2 ^ 53 + 3, 2 ^ 52 + 2)]
  ∧ (0 + (2 ^ 53 + 3)) / 2 = 2 ^ 52 + 1.
Proof. split; vm_compute; reflexivity. Qed.

Lemma len_set_1 (g : list Z) :
  len_set g = 1%nat ↔ ∃ v, ∀ x, x ∈ g ↔ x = v.
Proof.
  unfold len_set. split.
  - intros H. apply size_1_elem_of in H as [v Hv]. exists v. intros x.
    rewrite <- (elem_of_list_to_set (C:=gset Z)). rewrite Hv.
    apply elem_of_singleton.
  - intros [v Hv].
    assert (Heq : (list_to_set g : gset Z) = {[ v ]}).
    { apply set_eq. intros x. rewrite elem_of_list_to_set, elem_of_singleton.
      apply Hv. }
    rewrite Heq. apply size_singleton.
Qed.

Lemma gradients_inv (m : gmap string Z) ts gradients :
  get_gradients_for_multisets m ts = Ok gradients →
  Forall2 (λ e kg, kg.1 = e ∧ get_gradient_of_event e m ts = Ok kg.2)
          (get_event_names ts) gradients.
Proof.
  intros H. apply for_each_Forall2 in H.
  eapply Forall2_impl; [exact H|]. simpl. intros e kg Hkg.
  bind_inv Hkg. injection Hkg as <-. done.
Qed.

(** [is_region] answers [True] exactly when every event of the system has
    a gradient list with exactly one distinct value. *)
Lemma is_region_true_iff (m : gmap string Z) ts :
  is_region m ts = Ok true
  ↔ ∀ e, e ∈ get_event_names ts →
      ∃ g, get_gradient_of_event e m ts = Ok g ∧ len_set g = 1%nat.
Proof.
  unfold is_region. split.
  - intros H. bind_inv H. injection H as H.
    apply gradients_inv in Ha. intros e He.
    apply list_elem_of_lookup in He as [i Hi].
    destruct (Forall2_lookup_l _ _ _ _ _ Ha Hi) as (kg & Hkg & <- & Hg).
    exists kg.2. split; [done|].
    rewrite forallb_forall in H.
    specialize (H kg). rewrite <- list_elem_of_In in H.
    eapply bool_decide_eq_true_1. apply H. apply list_elem_of_lookup.
    by exists i.
  - intros H.
    destruct (for_each_ok
                (λ e, grad ← get_gradient_of_event e m ts; Ok (e, grad))
                (get_event_names ts)) as [gradients Hgs].
    { apply Forall_forall. intros e He. destruct (H e He) as (g & Hg & _).
      rewrite Hg. simpl. by eexists. }
    unfold get_gradients_for_multisets. rewrite Hgs. simpl. f_equal.
    apply forallb_forall. intros kg Hkg. apply list_elem_of_In in Hkg.
    apply bool_decide_eq_true_2.
    apply gradients_inv in Hgs.
    apply list_elem_of_lookup in Hkg as [i Hi].
    destruct (Forall2_lookup_r _ _ _ _ _ Hgs Hi) as (e & He & <- & Hg).
    destruct (H kg.1) as (g & Hg' & Hlen).
    { apply list_elem_of_lookup. by exists i. }
    congruence.
Qed.

(** A region of a system with an event is defined on the endpoints of an
    arc, so its domain is not empty. *)
Lemma is_region_nonempty (m : gmap string Z) ts e :
  e ∈ get_event_names ts → is_region m ts = Ok true → m ≠ ∅.
Proof.
  intros He H. destruct (proj1 (is_region_true_iff m ts) H e He)
    as (g & Hg & Hlen).
  unfold get_gradient_of_event in Hg. apply for_each_Forall2 in Hg.
  destruct g as [|x g].
  { exfalso. vm_compute in Hlen. discriminate. }
  apply Forall2_cons_inv_r in Hg as (t & l & Ht & _ & _).
  unfold gradient_of_arc in Ht. intros ->.
  rewrite lookup_empty in Ht. discriminate.
Qed.

(** ** Seeds *)

Lemma zero_dict_lookup (states : list string) (acc : gmap string Z) s :
  foldl (λ acc k, <[k := 0]> acc) acc states !! s
  = if decide (s ∈ states) then Some 0 else acc !! s.
Proof.
  revert acc. induction states as [|k states IH]; intros acc; cbn [foldl].
  - rewrite decide_False; [done|]. apply not_elem_of_nil.
  - rewrite IH. destruct (decide (s ∈ states)) as [Hin|Hnin].
    + rewrite decide_True; [done|]. by right.
    + destruct (decide (s = k)) as [->|Hne].
      * rewrite decide_True by left. apply lookup_insert_eq.
      * rewrite decide_False.
        -- by rewrite lookup_insert_ne.
        -- intros H. apply elem_of_cons in H as [?|?]; done.
Qed.

(** The marking loop of the excitation and switching sets, [key] being
    the end of the arc that is marked. *)
Lemma mark_arcs_lookup (key : state_transition → string) e
    (arcs : list state_transition) (acc : gmap string Z) s :
  foldl (λ acc st, if decide (st_event st = e)
                   then <[key st := 1]> acc else acc) acc arcs !! s
  = if decide (Exists (λ st, st_event st = e ∧ key st = s) arcs)
    then Some 1 else acc !! s.
Proof.
  revert acc. induction arcs as [|t arcs IH]; intros acc; cbn [foldl].
  - rewrite decide_False; [done|]. by intros H%Exists_nil.
  - rewrite IH.
    destruct (decide (Exists (λ st, st_event st = e ∧ key st = s) arcs))
      as [Hex|Hnex].
    + rewrite decide_True; [done|]. by right.
    + destruct (decide (st_event t = e)) as [He|He].
      * destruct (decide (key t = s)) as [Hk|Hk].
        -- rewrite decide_True by (by left).
           rewrite <- Hk. apply lookup_insert_eq.
        -- rewrite lookup_insert_ne by done.
           rewrite decide_False; [done|].
           intros [[? ?]|?]%Exists_cons; done.
      * rewrite decide_False; [done|].
        intros [[? ?]|?]%Exists_cons; done.
Qed.

Lemma seed_cases ts m :
  seed ts m →
  ∃ e key, e ∈ get_event_names ts ∧ (key = st_from ∨ key = st_to)
    ∧ m = foldl (λ acc st, if decide (st_event st = e)
                           then <[key st := 1]> acc else acc)
                (foldl (λ acc k, <[k := 0]> acc) ∅ (get_state_names ts))
                (get_all_state_transitions ts).
Proof.
  intros (e & He & [H|H]).
  - exists e, st_from. split; [done|]. split; [by left|].
    unfold get_excitation_set_by_event in H.
    rewrite decide_True in H by done. simpl in H. congruence.
  - exists e, st_to. split; [done|]. split; [by right|].
    unfold get_switching_set_by_event in H.
    rewrite decide_True in H by done. simpl in H. congruence.
Qed.

Lemma seed_values ts m s v : seed ts m → m !! s = Some v → v = 0 ∨ v = 1.
Proof.
  intros Hseed Hs. apply seed_cases in Hseed as (e & key & _ & _ & ->).
  rewrite mark_arcs_lookup, zero_dict_lookup in Hs.
  repeat case_decide; rewrite ?lookup_empty in Hs; naive_solver.
Qed.

Lemma seed_dom ts m : ts_closed ts → seed ts m → dom m = state_set ts.
Proof.
  intros Hc Hseed. apply seed_cases in Hseed as (e & key & _ & Hkey & ->).
  apply set_eq. intros s. rewrite elem_of_dom.
  rewrite mark_arcs_lookup, zero_dict_lookup. unfold state_set.
  rewrite elem_of_list_to_set. rewrite lookup_empty.
  destruct (decide (s ∈ get_state_names ts)) as [Hin|Hnin].
  - split; [done|]. intros _. case_decide; eauto.
  - rewrite decide_False.
    + split; [by intros [? ?]|done].
    + intros (st & Hst & _ & Hk)%Exists_exists.
      destruct (proj1 (Forall_forall _ _) Hc st Hst) as [Hf Ht].
      destruct Hkey as [-> | ->]; congruence.
Qed.

Lemma get_candidates_seeds ts l :
  get_candidates ts = Ok l → Forall (λ o, ∃ m, o = Some m ∧ seed ts m) l.
Proof.
  unfold get_candidates, get_excitation_sets, get_switching_sets.
  intros H. bind_inv H. rename a into ex. bind_inv H. rename a into sw.
  injection H as <-.
  apply for_each_Forall2 in Ha, Ha0. apply Forall_app. split.
  - apply Forall_fmap. apply Forall_forall. intros [e o] Hin.
    apply list_elem_of_lookup in Hin as [i Hi].
    destruct (Forall2_lookup_r _ _ _ _ _ Ha Hi) as (e' & He' & Hf).
    bind_inv Hf. injection Hf as <- <-. simpl.
    assert (Hev : e' ∈ get_event_names ts).
    { apply list_elem_of_lookup. by exists i. }
    pose proof Ha1 as Hex. unfold get_excitation_set_by_event in Ha1.
    rewrite decide_True in Ha1 by done. simpl in Ha1.
    injection Ha1 as <-. eexists. split; [done|]. exists e'. split; [done|].
    by left.
  - apply Forall_fmap. apply Forall_forall. intros [e o] Hin.
    apply list_elem_of_lookup in Hin as [i Hi].
    destruct (Forall2_lookup_r _ _ _ _ _ Ha0 Hi) as (e' & He' & Hf).
    bind_inv Hf. injection Hf as <- <-. simpl.
    assert (Hev : e' ∈ get_event_names ts).
    { apply list_elem_of_lookup. by exists i. }
    pose proof Ha1 as Hex. unfold get_switching_set_by_event in Ha1.
    rewrite decide_True in Ha1 by done. simpl in Ha1.
    injection Ha1 as <-. eexists. split; [done|]. exists e'. split; [done|].
    by right.
Qed.

(** ** Helpers of the driver *)

Lemma filter_py_spec {A} (f : A → py bool) (l l' : list A) :
  filter_py f l = Ok l' →
  sublist l' l ∧ ∀ x, x ∈ l' → f x = Ok true.
Proof.
  revert l'. induction l as [|x l IH]; intros l'; simpl.
  - intros [= <-]. split; [done|]. intros x Hx.
    by apply not_elem_of_nil in Hx.
  - intros H. bind_inv H. rename a into b. bind_inv H. injection H as <-.
    destruct (IH a Ha0) as [Hsub Hall]. destruct b.
    + split; [by constructor|]. intros y Hy.
      apply elem_of_cons in Hy as [->|Hy]; [done|]. by apply Hall.
    + split; [by constructor|]. done.
Qed.

Lemma remove_duplicates_loop_spec seen l l' :
  remove_duplicates_loop seen l = Ok l' →
  NoDup l' ∧ ∀ m, m ∈ l' → Some m ∈ l ∧ m ∉ seen.
Proof.
  revert seen l'. induction l as [|[d|] l IH]; intros seen l'; simpl.
  - intros [= <-]. split; [constructor|]. intros m Hm.
    by apply not_elem_of_nil in Hm.
  - destruct (decide (d ∈ seen)) as [Hin|Hnin].
    + intros H. destruct (IH _ _ H) as [Hnd Hel]. split; [done|].
      intros m Hm. destruct (Hel m Hm). split; [by right|done].
    + intros H. bind_inv H. injection H as <-.
      destruct (IH _ _ Ha) as [Hnd Hel]. split.
      * constructor; [|done]. intros Hd. destruct (Hel d Hd) as [_ Hns].
        apply Hns. left.
      * intros m Hm. apply elem_of_cons in Hm as [->|Hm].
        -- split; [left|done].
        -- destruct (Hel m Hm) as [? Hns]. split; [by right|].
           intros ?. apply Hns. by right.
  - discriminate.
Qed.

Lemma remove_duplicates_spec l l' :
  __remove_duplicates l = Ok l' → NoDup l' ∧ ∀ m, m ∈ l' → Some m ∈ l.
Proof.
  intros H. apply remove_duplicates_loop_spec in H as [Hnd Hel].
  split; [done|]. intros m Hm. by destruct (Hel m Hm).
Qed.

Lemma py_pop_spec {A} (l : list A) idx x l' :
  py_pop l idx = Ok (x, l') →
  l !! idx = Some x ∧ l' = delete idx l ∧ x ∈ l ∧ l' ⊆ l.
Proof.
  unfold py_pop. destruct (l !! idx) as [y|] eqn:Hy; [|done].
  intros [= <- <-]. split; [done|]. split; [done|]. split.
  - apply list_elem_of_lookup. by exists idx.
  - apply sublist_subseteq, sublist_delete.
Qed.

Lemma forallb_false {A} (f : A → bool) (l : list A) :
  forallb f l = false → ∃ x, x ∈ l ∧ f x = false.
Proof.
  induction l as [|x l IH]; simpl; [done|].
  destruct (f x) eqn:Hx; simpl.
  - intros H. destruct (IH H) as (y & Hy & Hfy). exists y. split; [by right|done].
  - intros _. exists x. split; [left|done].
Qed.

Lemma is_subset_same_dom (a b : gmap string Z) :
  dom a = dom b →
  ∃ res, is_subset a b = Ok res
         ∧ (res = false →
            ∃ s va vb, a !! s = Some va ∧ b !! s = Some vb ∧ vb < va).
Proof.
  intros Hdom. unfold is_subset. rewrite decide_True by done. simpl.
  eexists. split; [done|]. intros Hf.
  apply forallb_false in Hf as ([s va] & Hin & Hf). simpl in Hf.
  apply elem_of_dict_items in Hin.
  assert (Hb : is_Some (b !! s)).
  { apply elem_of_dom. rewrite <- Hdom. apply elem_of_dom. by eexists. }
  destruct Hb as [vb Hb]. rewrite Hb in Hf. apply Z.leb_gt in Hf.
  by exists s, va, vb.
Qed.

Lemma has_subset_false (m : gmap string Z) (l : list (gmap string Z)) :
  __has_subset_of_list m l = Ok false →
  ∀ m', m' ∈ l → is_subset m' m = Ok false.
Proof.
  induction l as [|x l IH]; simpl.
  - intros _ m' Hm'. by apply not_elem_of_nil in Hm'.
  - intros H. bind_inv H. destruct a; [discriminate|].
    intros m' Hm'. apply elem_of_cons in Hm' as [->|Hm']; [done|].
    by apply IH.
Qed.

Lemma has_no_other_subset_true (l : list (gmap string Z)) (m : gmap string Z) :
  has_no_other_subset l m = Ok true →
  ∀ m', m' ∈ l → m' ≠ m → is_subset m' m = Ok false.
Proof.
  unfold has_no_other_subset. intros H. bind_inv H. injection H as H.
  apply negb_true_iff in H. subst a.
  intros m' Hin Hne. eapply has_subset_false; [exact Ha|].
  apply list_elem_of_filter. done.
Qed.

(** ** Invariants of the two loops

    [C] holds of the candidates, [R] of the markings on the work list of
    the expansion and [D] of the discovered markings. *)
Section loop_invariant.
Variable k : Z.
Variable ts : SATransitionSystem.
Variables C R D : gmap string Z → Prop.

Hypothesis C_to_R : ∀ m, C m → R m.
Hypothesis region_candidate :
  ∀ m, C m → is_region m ts = Ok true → D m.
Hypothesis routed :
  ∀ r_hat i, R r_hat → expansion_of ts r_hat i → i ≠ r_hat →
    __is_valid_candidate k i = Ok true →
    (is_region i ts = Ok true → D i) ∧ (is_region i ts = Ok false → R i).

Lemma route_invariant r_hat i r d ex r' d' ex' :
  route k ts i (r, d, ex) = Ok (r', d', ex') →
  R r_hat → expansion_of ts r_hat i → inr (dict_values r_hat) ∈ ex →
  Forall R r → Forall D d →
  Forall R r' ∧ Forall D d' ∧ inr (dict_values r_hat) ∈ ex'.
Proof.
  intros H Hr Hexp Hin HR HD. unfold route in H.
  destruct (decide (inr (dict_values i) ∈ ex)) as [|Hnin].
  { injection H as <- <- <-. done. }
  assert (Hne : i ≠ r_hat) by (intros ->; done).
  bind_inv H. destruct a.
  - destruct (routed r_hat i Hr Hexp Hne Ha) as [HDi HRi].
    bind_inv H. destruct a; injection H as <- <- <-.
    + split; [done|]. split.
      * apply Forall_app. split; [done|]. constructor; [|done].
        by apply HDi.
      * apply elem_of_app. by left.
    + split; [|done]. apply Forall_app. split; [done|].
      constructor; [|done]. by apply HRi.
  - injection H as <- <- <-. split; [done|]. split; [done|].
    apply elem_of_app. by left.
Qed.

Lemma expansion_loop_invariant fuel r d ex n d' ex' n' :
  expansion_loop fuel k ts r d ex n = Ok (d', ex', n') →
  Forall R r → Forall D d → Forall D d'.
Proof.
  revert r d ex n. induction fuel as [|fuel IH]; intros r d ex n.
  { destruct r; simpl; [|done]. by intros [= <- <- <-]. }
  destruct r as [|m0 r0]; [simpl; by intros [= <- <- <-]|].
  set (r := m0 :: r0). intros H HR HD.
  cbn [expansion_loop] in H. fold r in H.
  bind_inv H. rename a into idx. bind_inv H. destruct a as [r_hat r1].
  apply py_pop_spec in Ha0 as (_ & _ & Hhat & Hsub).
  assert (HRhat : R r_hat).
  { by apply (proj1 (Forall_forall _ _) HR). }
  assert (HR1 : Forall R r1).
  { apply Forall_forall. intros x Hx.
    apply (proj1 (Forall_forall _ _) HR). by apply Hsub. }
  destruct (decide (inr (dict_values r_hat) ∈ ex)) as [|Hnin].
  { by apply IH in H. }
  bind_inv H. rename a into lst. bind_inv H.
  destruct a as [[[e g_min] g_max] g_e].
  bind_inv H. rename a into r_1. bind_inv H. rename a into r_2.
  bind_inv H. destruct a as [[ra da] exa].
  bind_inv H. destruct a as [[rb db] exb].
  eapply (route_invariant r_hat) in Ha4 as (HRa & HDa & Hina);
    [| done | by exists g_e, e; left | apply elem_of_app; right; left
     | done | done].
  eapply (route_invariant r_hat) in Ha5 as (HRb & HDb & Hinb);
    [| done | by exists (g_e + 1), e; right | done | done | done].
  by apply IH in H.
Qed.

Lemma candidates_loop_invariant fuel cs d ex n d' ex' n' :
  candidates_loop fuel k ts cs d ex n = Ok (d', ex', n') →
  Forall C cs → Forall D d → Forall D d'.
Proof.
  revert cs d ex n. induction fuel as [|fuel IH]; intros cs d ex n.
  { destruct cs; simpl; [|done]. by intros [= <- <- <-]. }
  destruct cs as [|m0 cs0]; [simpl; by intros [= <- <- <-]|].
  set (cs := m0 :: cs0). intros H HC HD.
  cbn [candidates_loop] in H. fold cs in H.
  bind_inv H. rename a into idx. bind_inv H. destruct a as [r_tilde cs1].
  apply py_pop_spec in Ha0 as (_ & _ & Htilde & Hsub).
  assert (HCt : C r_tilde).
  { by apply (proj1 (Forall_forall _ _) HC). }
  assert (HC1 : Forall C cs1).
  { apply Forall_forall. intros x Hx.
    apply (proj1 (Forall_forall _ _) HC). by apply Hsub. }
  bind_inv H. destruct a.
  - destruct (decide (r_tilde ∈ d)).
    + by apply IH in H.
    + apply IH in H; [done|done|]. apply Forall_app. split; [done|].
      constructor; [|done]. by apply region_candidate.
  - bind_inv H. destruct a as [[d1 ex1] n1].
    apply IH in H; [done|done|].
    unfold multiset_expansion in Ha1.
    eapply expansion_loop_invariant; [exact Ha1| |done].
    constructor; [|done]. by apply C_to_R.
Qed.
End loop_invariant.

(** ** The driver *)

Lemma generate_inv fuel k ts regions ex it :
  generate_all_minimal_regions_v1 fuel k ts = Ok (regions, ex, it) →
  ∃ cs discovered it0,
    Forall (seed ts) cs
    ∧ candidates_loop fuel k ts cs [] [] 0%nat = Ok (discovered, ex, it0)
    ∧ NoDup regions
    ∧ ∀ m, m ∈ regions →
        m ∈ discovered ∧ has_no_other_subset discovered m = Ok true.
Proof.
  unfold generate_all_minimal_regions_v1. intros H.
  bind_inv H. rename a into cs0. bind_inv H. rename a into cs1.
  bind_inv H. rename a into cs. bind_inv H.
  destruct a as [[discovered ex0] it0].
  bind_inv H. rename a into temp. bind_inv H. injection H as <- <- <-.
  exists cs, discovered, it0.
  apply get_candidates_seeds in Ha.
  apply remove_duplicates_spec in Ha0 as [_ Hcs1].
  apply filter_py_spec in Ha1 as [Hsub1 _].
  apply filter_py_spec in Ha3 as [Hsub Hkeep].
  apply remove_duplicates_spec in Ha4 as [Hnd Hreg].
  split.
  { apply Forall_forall. intros m Hm.
    apply (sublist_subseteq _ _ Hsub1) in Hm. apply Hcs1 in Hm.
    destruct (proj1 (Forall_forall _ _) Ha _ Hm) as (m' & [= <-] & Hseed).
    done. }
  split; [done|]. split; [done|].
  intros m Hm. apply Hreg in Hm.
  apply list_elem_of_fmap in Hm as (m' & [= <-] & Hm). split.
  - by apply (sublist_subseteq _ _ Hsub).
  - by apply Hkeep.
Qed.

Lemma valid_candidate_true k (m : gmap string Z) :
  __is_valid_candidate k m = Ok true →
  ∃ p, get_power_of_multiset m = Ok p ∧ p ≤ k ∧ is_trivial m = false.
Proof.
  unfold __is_valid_candidate. intros H. bind_inv H. rename a into p.
  exists p. split; [done|]. destruct (p <=? k) eqn:Hle; [|done].
  apply Z.leb_le in Hle. injection H as H. apply negb_true_iff in H. done.
Qed.

Lemma seed_region_power ts (m : gmap string Z) :
  seed ts m → is_region m ts = Ok true →
  ∃ p, get_power_of_multiset m = Ok p ∧ p ≤ 1.
Proof.
  intros Hseed Hreg. pose proof Hseed as (e & He & _).
  destruct (power_ok m) as [p Hp]; [by eapply is_region_nonempty|].
  exists p. split; [done|].
  destruct (power_spec m p Hp) as [[s Hs] _].
  destruct (seed_values ts m s p Hseed Hs); lia.
Qed.

(** What the search establishes of a discovered marking: it is a region,
    and it is a seed or passed the validity test. *)
Lemma discovered_are_regions fuel k ts regions ex it :
  generate_all_minimal_regions_v1 fuel k ts = Ok (regions, ex, it) →
  ∀ m, m ∈ regions →
    is_region m ts = Ok true
    ∧ (seed ts m ∨ __is_valid_candidate k m = Ok true).
Proof.
  intros H m Hm.
  destruct (generate_inv _ _ _ _ _ _ H) as (cs & d & it0 & Hcs & Hloop & _ & Hr).
  destruct (Hr m Hm) as [Hd _].
  eapply (candidates_loop_invariant k ts (seed ts) (λ _, True)
            (λ m, is_region m ts = Ok true
                  ∧ (seed ts m ∨ __is_valid_candidate k m = Ok true)))
    in Hloop; [| done | | | done | constructor].
  - by apply (proj1 (Forall_forall _ _) Hloop).
  - intros m' Hs Hreg. split; [done|by left].
  - intros r_hat i _ _ _ Hv. split; [|done]. intros Hreg. split; [done|by right].
Qed.

Lemma expansion_of_dom ts (r i : gmap string Z) :
  expansion_of ts r i → dom r = state_set ts ∧ dom i = dom r.
Proof.
  intros (g & e & [H|H]).
  - by apply expansion_by_g_inv in H as (? & ? & _).
  - by apply expansion_by_G_inv in H as (? & ? & _).
Qed.

Lemma expansion_of_grows ts (r i : gmap string Z) s v :
  expansion_of ts r i → r !! s = Some v →
  ∃ d, 0 ≤ d ∧ i !! s = Some (v + d).
Proof.
  intros (g & e & [H|H]) Hs.
  - apply expansion_by_g_inv in H as (_ & _ & Hl).
    destruct (Hl s v Hs) as (d & Hd & Hi). exists d.
    split; [by eapply delta_g_nonneg|done].
  - apply expansion_by_G_inv in H as (_ & _ & Hl).
    destruct (Hl s v Hs) as (d & Hd & Hi). exists d.
    split; [by eapply delta_G_nonneg|done].
Qed.

Lemma discovered_have_state_domain fuel k ts regions ex it :
  ts_closed ts →
  generate_all_minimal_regions_v1 fuel k ts = Ok (regions, ex, it) →
  ∃ discovered,
    Forall (λ m, dom m = state_set ts) discovered
    ∧ NoDup regions
    ∧ ∀ m, m ∈ regions →
        m ∈ discovered ∧ has_no_other_subset discovered m = Ok true.
Proof.
  intros Hc H.
  destruct (generate_inv _ _ _ _ _ _ H) as (cs & d & it0 & Hcs & Hloop & Hnd & Hr).
  exists d. split; [|done].
  eapply (candidates_loop_invariant k ts (λ m, dom m = state_set ts)
            (λ m, dom m = state_set ts) (λ m, dom m = state_set ts));
    [done | done | | exact Hloop | | constructor].
  - intros r_hat i Hdom Hexp _ _.
    apply expansion_of_dom in Hexp as [_ Hi].
    split; intros _; congruence.
  - eapply Forall_impl; [exact Hcs|]. intros m Hm. by apply seed_dom.
Qed.

(** ** Termination of the search

    Only the two [while] loops consume the iteration budget: every other
    function ends by itself. *)

Lemma bind_ends {A B} (c : py A) (f : A → py B) :
  c ≠ OutOfFuel → (∀ a, c = Ok a → f a ≠ OutOfFuel) → c ≫= f ≠ OutOfFuel.
Proof. destruct c as [a| |]; simpl; [|done..]. intros _ H. by apply H. Qed.

Lemma for_each_ends {A B} (f : A → py B) (l : list A) :
  (∀ x, f x ≠ OutOfFuel) → for_each f l ≠ OutOfFuel.
Proof.
  intros Hf. induction l as [|x l IH]; simpl; [done|].
  apply bind_ends; [done|]. intros y _.
  apply bind_ends; [done|]. done.
Qed.

Lemma filter_py_ends {A} (f : A → py bool) (l : list A) :
  (∀ x, f x ≠ OutOfFuel) → filter_py f l ≠ OutOfFuel.
Proof.
  intros Hf. induction l as [|x l IH]; simpl; [done|].
  apply bind_ends; [done|]. intros y _.
  apply bind_ends; [done|]. done.
Qed.

Lemma try_except_ends {A} (c : py A) (h : A) :
  c ≠ OutOfFuel → try_except_ValueError c h ≠ OutOfFuel.
Proof. destruct c as [a|[]|]; simpl; done. Qed.

Lemma py_max_ends l : py_max l ≠ OutOfFuel.
Proof. by destruct l. Qed.

Lemma py_min_ends l : py_min l ≠ OutOfFuel.
Proof. by destruct l. Qed.

Lemma py_argmax_ends l : py_argmax l ≠ OutOfFuel.
Proof. by destruct l. Qed.

Lemma py_argmin_ends l : py_argmin l ≠ OutOfFuel.
Proof. by destruct l. Qed.

Lemma py_pop_ends {A} (l : list A) i : py_pop l i ≠ OutOfFuel.
Proof. unfold py_pop. by destruct (l !! i). Qed.

Lemma is_subset_ends a b : is_subset a b ≠ OutOfFuel.
Proof. unfold is_subset. apply try_except_ends. by case_decide. Qed.

Lemma has_subset_of_list_ends m l : __has_subset_of_list m l ≠ OutOfFuel.
Proof.
  induction l as [|x l IH]; simpl; [done|].
  apply bind_ends; [apply is_subset_ends|]. by intros [].
Qed.

Lemma has_no_other_subset_ends l m : has_no_other_subset l m ≠ OutOfFuel.
Proof.
  unfold has_no_other_subset.
  apply bind_ends; [apply has_subset_of_list_ends|done].
Qed.

Lemma remove_duplicates_ends l : __remove_duplicates l ≠ OutOfFuel.
Proof.
  unfold __remove_duplicates. generalize (@nil (gmap string Z)).
  induction l as [|[d|] l IH]; intros seen; simpl; [done| |done].
  case_decide; [done|]. apply bind_ends; done.
Qed.

Lemma get_candidates_ends ts : get_candidates ts ≠ OutOfFuel.
Proof.
  unfold get_candidates, get_excitation_sets, get_switching_sets.
  apply bind_ends.
  { apply for_each_ends. intros e. apply bind_ends; [|done].
    apply try_except_ends. by case_decide. }
  intros ? _. apply bind_ends; [|done].
  apply for_each_ends. intros e. apply bind_ends; [|done].
  apply try_except_ends. by case_decide.
Qed.

Lemma get_gradients_ends m ts : get_gradients_for_multisets m ts ≠ OutOfFuel.
Proof.
  apply for_each_ends. intros e. apply bind_ends; [|done].
  apply for_each_ends. intros t. unfold gradient_of_arc.
  by repeat case_match.
Qed.

Lemma is_region_ends m ts : is_region m ts ≠ OutOfFuel.
Proof. apply bind_ends; [apply get_gradients_ends|done]. Qed.

Lemma midpoint_ends a b : __get_gradient_for_binary_search a b ≠ OutOfFuel.
Proof.
  unfold __get_gradient_for_binary_search. cbv zeta.
  by repeat case_match.
Qed.

Lemma get_illegal_events_ends m ts : get_illegal_events m ts ≠ OutOfFuel.
Proof.
  apply bind_ends; [apply get_gradients_ends|]. intros gs _.
  apply bind_ends; [|done]. apply for_each_ends. intros kg.
  unfold illegal_entry. case_match; [done|].
  apply bind_ends; [apply py_min_ends|]. intros ? _.
  apply bind_ends; [apply py_max_ends|]. intros ? _.
  apply bind_ends; [apply midpoint_ends|]. done.
Qed.

Lemma select_event_ends l : __get_event_gradient_for_expansion l ≠ OutOfFuel.
Proof. by destruct l. Qed.

Lemma delta_g_ends g m e s ts : get_delta_g g m e s ts ≠ OutOfFuel.
Proof.
  apply bind_ends.
  { apply for_each_ends. intros t. by repeat case_match. }
  intros [|x l] _; [done|]. apply bind_ends; [apply py_max_ends|done].
Qed.

Lemma delta_G_ends g m e s ts : get_delta_G g m e s ts ≠ OutOfFuel.
Proof.
  apply bind_ends.
  { apply for_each_ends. intros t. by repeat case_match. }
  intros [|x l] _; [done|]. apply bind_ends; [apply py_max_ends|done].
Qed.

Lemma expansion_by_g_ends g e m ts :
  get_multiset_expansion_on_event_by_g g e m ts ≠ OutOfFuel.
Proof.
  unfold get_multiset_expansion_on_event_by_g. case_decide; [|done].
  apply bind_ends; [|done]. apply for_each_ends. intros kv.
  apply bind_ends; [apply delta_g_ends|done].
Qed.

Lemma expansion_by_G_ends g e m ts :
  get_multiset_expansion_on_event_by_G g e m ts ≠ OutOfFuel.
Proof.
  unfold get_multiset_expansion_on_event_by_G. case_decide; [|done].
  apply bind_ends; [|done]. apply for_each_ends. intros kv.
  apply bind_ends; [apply delta_G_ends|done].
Qed.

Lemma valid_candidate_ends k m : __is_valid_candidate k m ≠ OutOfFuel.
Proof. apply bind_ends; [apply py_max_ends|done]. Qed.

Lemma route_ends k ts i s : route k ts i s ≠ OutOfFuel.
Proof.
  destruct s as [[r d] ex]. unfold route. case_decide; [done|].
  apply bind_ends; [apply valid_candidate_ends|]. intros [] _; [|done].
  apply bind_ends; [apply is_region_ends|]. by intros [] _.
Qed.

Lemma all_lists_elem (n : nat) (K : Z) (l : list Z) :
  length l = n → Forall (λ x, 0 ≤ x ≤ K) l → l ∈ all_lists n K.
Proof.
  revert l. induction n as [|n IH]; intros l Hlen Hall.
  - destruct l; [left|done].
  - destruct l as [|x l]; [done|]. simpl in Hlen.
    apply Forall_cons in Hall as [Hx Hall]. cbn [all_lists].
    apply list_elem_of_bind. exists x. split.
    + apply list_elem_of_fmap. exists l. split; [done|]. apply IH; [lia|done].
    + apply elem_of_seqZ. lia.
Qed.

Lemma dict_values_length (m : gmap string Z) :
  length (dict_values m) = size (dom m).
Proof.
  unfold dict_values. rewrite length_fmap, dict_items_perm.
  rewrite length_map_to_list. symmetry. apply size_dom.
Qed.

Lemma in_space_values k ts (m : gmap string Z) :
  in_space k ts m → dict_values m ∈ value_space k ts.
Proof.
  intros [Hdom Hrange]. apply all_lists_elem.
  - rewrite dict_values_length. by rewrite Hdom.
  - apply Forall_forall. intros v Hv.
    apply elem_of_dict_values in Hv as [s Hs]. by eapply Hrange.
Qed.

Lemma filter_length_le {A} (P Q : A → Prop) `{!∀ x, Decision (P x)}
    `{!∀ x, Decision (Q x)} (l : list A) :
  (∀ x, P x → Q x) → (length (filter P l) ≤ length (filter Q l))%nat.
Proof.
  intros HPQ. induction l as [|x l IH]; [done|].
  rewrite !filter_cons.
  destruct (decide (P x)) as [HP|HP], (decide (Q x)) as [HQ|HQ];
    cbn [length]; try lia.
  exfalso. by apply HQ, HPQ.
Qed.

Lemma filter_length_lt {A} (P Q : A → Prop) `{!∀ x, Decision (P x)}
    `{!∀ x, Decision (Q x)} (l : list A) (x0 : A) :
  (∀ x, P x → Q x) → x0 ∈ l → Q x0 → ¬ P x0 →
  (length (filter P l) < length (filter Q l))%nat.
Proof.
  intros HPQ Hin HQ0 HP0. induction l as [|x l IH].
  { by apply not_elem_of_nil in Hin. }
  rewrite !filter_cons. apply elem_of_cons in Hin as [<-|Hin].
  - rewrite decide_False by done. rewrite decide_True by done.
    cbn [length]. pose proof (filter_length_le P Q l HPQ). lia.
  - specialize (IH Hin).
    destruct (decide (P x)) as [HP|HP], (decide (Q x)) as [HQ|HQ];
      cbn [length]; try lia.
    exfalso. by apply HQ, HPQ.
Qed.

Lemma unexplored_app_le space ex ex' :
  (unexplored space (ex ++ ex') ≤ unexplored space ex)%nat.
Proof.
  apply filter_length_le. intros v Hn H. apply Hn. apply elem_of_app.
  by left.
Qed.

Lemma unexplored_app_lt space ex v :
  v ∈ space → inr v ∉ ex →
  (unexplored space (ex ++ [inr v]) < unexplored space ex)%nat.
Proof.
  intros Hin Hnin. apply (filter_length_lt _ _ space v); [|done|done|].
  - intros w Hn H. apply Hn. apply elem_of_app. by left.
  - intros H. apply H. apply elem_of_app. right. left.
Qed.

Lemma unexplored_le_length space ex :
  (unexplored space ex ≤ length space)%nat.
Proof. apply length_filter. Qed.

Lemma seed_in_space k ts (m : gmap string Z) :
  seed ts m → dom m = state_set ts → in_space k ts m.
Proof.
  intros Hseed Hdom. split; [done|]. intros s v Hs.
  destruct (seed_values ts m s v Hseed Hs); lia.
Qed.

Lemma valid_expansion_in_space k ts (r_hat i : gmap string Z) :
  in_space k ts r_hat → expansion_of ts r_hat i →
  __is_valid_candidate k i = Ok true → in_space k ts i.
Proof.
  intros [Hdom Hrange] Hexp Hv.
  destruct (expansion_of_dom _ _ _ Hexp) as [_ Hdi].
  apply valid_candidate_true in Hv as (p & Hp & Hle & _).
  apply power_spec in Hp as [_ Hub].
  split; [congruence|]. intros s w Hw. split; [|specialize (Hub s w Hw); lia].
  assert (Hs : is_Some (r_hat !! s)).
  { apply elem_of_dom. rewrite <- Hdi. apply elem_of_dom. by eexists. }
  destruct Hs as [v Hs].
  destruct (expansion_of_grows _ _ _ s v Hexp Hs) as (d & Hd & Hi).
  rewrite Hi in Hw. injection Hw as <-. specialize (Hrange s v Hs). lia.
Qed.

Lemma route_measure k ts i r d ex r' d' ex' :
  route k ts i (r, d, ex) = Ok (r', d', ex') →
  (length r' ≤ S (length r))%nat ∧ ∃ l, ex' = ex ++ l.
Proof.
  unfold route. destruct (decide (inr (dict_values i) ∈ ex)) as [|_].
  { intros [= <- <- <-]. split; [lia|]. exists []. by rewrite app_nil_r. }
  intros H. bind_inv H. destruct a.
  - bind_inv H. destruct a; injection H as <- <- <-.
    + split; [lia|]. by eexists.
    + split; [rewrite length_app; simpl; lia|]. exists [].
      by rewrite app_nil_r.
  - injection H as <- <- <-. split; [lia|]. by eexists.
Qed.

Lemma expansion_loop_nil fuel k ts d ex n :
  expansion_loop fuel k ts [] d ex n = Ok (d, ex, n).
Proof. by destruct fuel. Qed.

Lemma expansion_loop_ends k ts fuel r d ex n :
  Forall (in_space k ts) r →
  (3 * unexplored (value_space k ts) ex + length r < fuel)%nat →
  expansion_loop fuel k ts r d ex n ≠ OutOfFuel.
Proof.
  revert r d ex n. induction fuel as [|fuel IH]; intros r d ex n HR Hfuel.
  { lia. }
  destruct r as [|m0 r0]; [done|].
  set (r := m0 :: r0) in *. cbn [expansion_loop]. fold r.
  unfold expansion_round.
  apply bind_ends; [apply py_argmax_ends|]. intros idx _.
  apply bind_ends; [apply py_pop_ends|]. intros [r_hat r1] Hpop.
  apply py_pop_spec in Hpop as (Hlook & -> & Hhat & Hsub).
  assert (Hlen : S (length (delete idx r)) = length r).
  { rewrite length_delete by by eexists.
    apply lookup_lt_Some in Hlook. lia. }
  assert (HRhat : in_space k ts r_hat).
  { by apply (proj1 (Forall_forall _ _) HR). }
  assert (HR1 : Forall (in_space k ts) (delete idx r)).
  { apply Forall_forall. intros x Hx.
    apply (proj1 (Forall_forall _ _) HR). by apply Hsub. }
  destruct (decide (inr (dict_values r_hat) ∈ ex)) as [|Hnin].
  { apply IH; [done|]. clearbody r. lia. }
  pose proof (unexplored_app_lt (value_space k ts) ex (dict_values r_hat)
                (in_space_values _ _ _ HRhat) Hnin) as Hlt.
  apply bind_ends; [apply get_illegal_events_ends|]. intros lst _.
  apply bind_ends; [apply select_event_ends|].
  intros [[[e g_min] g_max] g_e] _.
  apply bind_ends; [apply expansion_by_g_ends|]. intros r_1 H1.
  apply bind_ends; [apply expansion_by_G_ends|]. intros r_2 H2.
  apply bind_ends; [apply route_ends|]. intros [[ra da] exa] Ha.
  apply bind_ends; [apply route_ends|]. intros [[rb db] exb] Hb.
  destruct (route_measure _ _ _ _ _ _ _ _ _ Ha) as [Hla [la ->]].
  destruct (route_measure _ _ _ _ _ _ _ _ _ Hb) as [Hlb [lb ->]].
  assert (HRa : Forall (in_space k ts) ra).
  { eapply (route_invariant k ts (in_space k ts) (λ _, True) _ r_hat)
      in Ha as (HRa & _ & _);
      [done | done | by exists g_e, e; left
      | apply elem_of_app; right; left | done | by apply Forall_true].
    Unshelve.
    intros h i Hh Hexp _ Hv. split; [done|]. intros _.
    by eapply valid_expansion_in_space. }
  assert (HRb : Forall (in_space k ts) rb).
  { eapply (route_invariant k ts (in_space k ts) (λ _, True) _ r_hat)
      in Hb as (HRb & _ & _);
      [done | done | by exists (g_e + 1), e; right
      | apply elem_of_app; left; apply elem_of_app; right; left
      | done | by apply Forall_true].
    Unshelve.
    intros h i Hh Hexp _ Hv. split; [done|]. intros _.
    by eapply valid_expansion_in_space. }
  apply IH; [done|].
  pose proof (unexplored_app_le (value_space k ts)
                ((ex ++ [inr (dict_values r_hat)]) ++ la) lb).
  pose proof (unexplored_app_le (value_space k ts)
                (ex ++ [inr (dict_values r_hat)]) la).
  unfold explored_entry in *. clearbody r. lia.
Qed.

(** The expansion of a seed ends: within the space when the seed is a
    marking over the states; otherwise in its first round, where either
    the seed is skipped or an expansion refuses its key set. *)
Lemma multiset_expansion_ends k ts fuel (m : gmap string Z) n d ex :
  seed ts m → (3 * length (value_space k ts) + 1 < fuel)%nat →
  multiset_expansion fuel k m n ts d ex ≠ OutOfFuel.
Proof.
  intros Hseed Hfuel. unfold multiset_expansion.
  destruct (decide (dom m = state_set ts)) as [Hdom|Hdom].
  { apply expansion_loop_ends.
    - constructor; [|done]. by apply seed_in_space.
    - pose proof (unexplored_le_length (value_space k ts) ex).
      simpl. lia. }
  destruct fuel as [|fuel]; [lia|]. cbn [expansion_loop].
  unfold expansion_round.
  apply bind_ends; [apply py_argmax_ends|]. intros idx _.
  apply bind_ends; [apply py_pop_ends|]. intros [r_hat r1] Hpop.
  apply py_pop_spec in Hpop as (Hlook & -> & Hhat & _).
  apply list_elem_of_singleton in Hhat as ->.
  destruct idx as [|idx]; [|done]. cbn [delete list_delete].
  case_decide; [by rewrite expansion_loop_nil|].
  apply bind_ends; [apply get_illegal_events_ends|]. intros lst _.
  apply bind_ends; [apply select_event_ends|].
  intros [[[e g_min] g_max] g_e] _.
  unfold get_multiset_expansion_on_event_by_g.
  rewrite decide_False by done. done.
Qed.

Lemma candidates_loop_ends k ts fuel cs d ex n :
  Forall (seed ts) cs →
  (length cs + 3 * length (value_space k ts) + 1 < fuel)%nat →
  candidates_loop fuel k ts cs d ex n ≠ OutOfFuel.
Proof.
  revert cs d ex n. induction fuel as [|fuel IH]; intros cs d ex n HC Hfuel.
  { lia. }
  destruct cs as [|m0 cs0]; [done|].
  set (cs := m0 :: cs0) in *. cbn [candidates_loop]. fold cs.
  unfold candidates_round.
  apply bind_ends; [apply py_argmin_ends|]. intros idx _.
  apply bind_ends; [apply py_pop_ends|]. intros [r_tilde cs1] Hpop.
  apply py_pop_spec in Hpop as (Hlook & -> & Htilde & Hsub).
  assert (Hlen : S (length (delete idx cs)) = length cs).
  { rewrite length_delete by by eexists.
    apply lookup_lt_Some in Hlook. lia. }
  assert (HCt : seed ts r_tilde).
  { by apply (proj1 (Forall_forall _ _) HC). }
  assert (HC1 : Forall (seed ts) (delete idx cs)).
  { apply Forall_forall. intros x Hx.
    apply (proj1 (Forall_forall _ _) HC). by apply Hsub. }
  clearbody cs.
  apply bind_ends; [apply is_region_ends|]. intros [] _.
  - case_decide; apply IH; try done; lia.
  - apply bind_ends.
    + apply multiset_expansion_ends; [done|lia].
    + intros [[d1 ex1] n1] _. apply IH; [done|lia].
Qed.

Lemma remove_duplicates_loop_length seen l l' :
  remove_duplicates_loop seen l = Ok l' → (length l' ≤ length l)%nat.
Proof.
  revert seen l'. induction l as [|[x|] l IH]; intros seen l'; simpl.
  - intros [= <-]. done.
  - case_decide.
    + intros H'. apply IH in H'. lia.
    + intros H'. bind_inv H'. injection H' as <-. apply IH in Ha. simpl. lia.
  - done.
Qed.

Lemma get_candidates_length ts l :
  get_candidates ts = Ok l →
  length l = (2 * length (get_event_names ts))%nat.
Proof.
  unfold get_candidates, get_excitation_sets, get_switching_sets.
  intros H. bind_inv H. bind_inv H. injection H as <-.
  apply for_each_Forall2, Forall2_length in Ha, Ha0.
  rewrite length_app, !length_fmap. lia.
Qed.

(** The search ends on every system and for every [k]: with a budget of
    [enough_fuel] rounds or more, the driver returns or raises. *)
Theorem search_ends k ts fuel :
  (enough_fuel k ts ≤ fuel)%nat →
  generate_all_minimal_regions_v1 fuel k ts ≠ OutOfFuel.
Proof.
  unfold enough_fuel. intros Hfuel. unfold generate_all_minimal_regions_v1.
  apply bind_ends; [apply get_candidates_ends|]. intros cs0 Hcs0.
  apply bind_ends; [apply remove_duplicates_ends|]. intros cs1 Hcs1.
  apply bind_ends.
  { apply filter_py_ends. apply has_no_other_subset_ends. }
  intros cs Hcs.
  pose proof (get_candidates_length _ _ Hcs0) as Hl0.
  pose proof (remove_duplicates_loop_length _ _ _ Hcs1) as Hl1.
  pose proof (get_candidates_seeds _ _ Hcs0) as Hseeds.
  apply remove_duplicates_spec in Hcs1 as [_ Hin1].
  apply filter_py_spec in Hcs as [Hsub _].
  pose proof (sublist_length _ _ Hsub) as Hl.
  apply bind_ends.
  { apply candidates_loop_ends; [|lia].
    apply Forall_forall. intros m Hm.
    apply (sublist_subseteq _ _ Hsub) in Hm. apply Hin1 in Hm.
    destruct (proj1 (Forall_forall _ _) Hseeds _ Hm) as (m' & [= <-] & Hs).
    done. }
  intros [[discovered ex] it] _.
  apply bind_ends.
  { apply filter_py_ends. apply has_no_other_subset_ends. }
  intros temp _. apply bind_ends; [apply remove_duplicates_ends|done].
Qed.

(** A larger budget does not change an outcome that was reached. *)
Lemma expansion_round_more_fuel continue continue' k ts r d ex n :
  (∀ r d ex n, continue r d ex n ≠ OutOfFuel →
               continue' r d ex n = continue r d ex n) →
  expansion_round continue k ts r d ex n ≠ OutOfFuel →
  expansion_round continue' k ts r d ex n
  = expansion_round continue k ts r d ex n.
Proof.
  intros Hc. unfold expansion_round.
  destruct (py_argmax _) as [idx| |]; cbn [mbind py_bind]; [|done..].
  destruct (py_pop r idx) as [[r_hat r1]| |]; cbn [mbind py_bind]; [|done..].
  case_decide; [by apply Hc|].
  destruct (get_illegal_events r_hat ts) as [lst| |]; cbn [mbind py_bind]; [|done..].
  destruct (__get_event_gradient_for_expansion lst)
    as [[[[e g_min] g_max] g_e]| |]; cbn [mbind py_bind]; [|done..].
  destruct (get_multiset_expansion_on_event_by_g _ _ _ _) as [r_1| |];
    cbn [mbind py_bind]; [|done..].
  destruct (get_multiset_expansion_on_event_by_G _ _ _ _) as [r_2| |];
    cbn [mbind py_bind]; [|done..].
  destruct (route k ts r_1 _) as [[[ra da] exa]| |]; cbn [mbind py_bind]; [|done..].
  destruct (route k ts r_2 _) as [[[rb db] exb]| |]; cbn [mbind py_bind]; [|done..].
  by apply Hc.
Qed.

Lemma expansion_loop_more_fuel k ts fuel r d ex n :
  expansion_loop fuel k ts r d ex n ≠ OutOfFuel →
  expansion_loop (S fuel) k ts r d ex n = expansion_loop fuel k ts r d ex n.
Proof.
  revert r d ex n. induction fuel as [|fuel IH]; intros r d ex n.
  { by destruct r. }
  destruct r as [|m0 r0]; [done|]. intros H.
  change (expansion_round (expansion_loop (S fuel) k ts) k ts (m0 :: r0) d ex n
          = expansion_round (expansion_loop fuel k ts) k ts (m0 :: r0) d ex n).
  by apply expansion_round_more_fuel.
Qed.

Lemma candidates_round_more_fuel continue continue' expand expand' ts
    cs d ex n :
  (∀ cs d ex n, continue cs d ex n ≠ OutOfFuel →
                continue' cs d ex n = continue cs d ex n) →
  (∀ m n d ex, expand m n d ex ≠ OutOfFuel →
               expand' m n d ex = expand m n d ex) →
  candidates_round continue expand ts cs d ex n ≠ OutOfFuel →
  candidates_round continue' expand' ts cs d ex n
  = candidates_round continue expand ts cs d ex n.
Proof.
  intros Hc He. unfold candidates_round.
  destruct (py_argmin _) as [idx| |]; simpl; [|done..].
  destruct (py_pop cs idx) as [[r_tilde cs1]| |]; simpl; [|done..].
  destruct (is_region r_tilde ts) as [[]| |]; simpl; [| |done..].
  - case_decide; by apply Hc.
  - intros H. rewrite He.
    + destruct (expand r_tilde n d ex) as [[[d1 ex1] n1]| |]; simpl in *;
        [|done..]. by apply Hc.
    + by destruct (expand r_tilde n d ex).
Qed.

Lemma candidates_loop_more_fuel k ts fuel cs d ex n :
  candidates_loop fuel k ts cs d ex n ≠ OutOfFuel →
  candidates_loop (S fuel) k ts cs d ex n = candidates_loop fuel k ts cs d ex n.
Proof.
  revert cs d ex n. induction fuel as [|fuel IH]; intros cs d ex n.
  { by destruct cs. }
  destruct cs as [|m0 cs0]; [done|]. intros H.
  cbn [candidates_loop] in H |- *.
  apply candidates_round_more_fuel; [done| |done].
  intros m n' d' ex'. apply expansion_loop_more_fuel.
Qed.

Lemma generate_more_fuel k ts fuel :
  generate_all_minimal_regions_v1 fuel k ts ≠ OutOfFuel →
  generate_all_minimal_regions_v1 (S fuel) k ts
  = generate_all_minimal_regions_v1 fuel k ts.
Proof.
  unfold generate_all_minimal_regions_v1.
  destruct (get_candidates ts) as [cs0| |]; cbn [mbind py_bind]; [|done..].
  destruct (__remove_duplicates cs0) as [cs1| |]; cbn [mbind py_bind]; [|done..].
  destruct (__remove_supersets cs1) as [cs| |]; cbn [mbind py_bind]; [|done..].
  intros H. rewrite candidates_loop_more_fuel; [done|].
  by destruct (candidates_loop fuel k ts cs [] [] 0%nat).
Qed.

(** Beyond the bound of [search_ends] the outcome is one and the same. *)
Theorem search_outcome_is_stable k ts fuel fuel' :
  (enough_fuel k ts ≤ fuel)%nat →
  (fuel ≤ fuel')%nat →
  generate_all_minimal_regions_v1 fuel' k ts
  = generate_all_minimal_regions_v1 fuel k ts.
Proof.
  intros Hfuel Hle. induction Hle as [|fuel' Hle IH]; [done|].
  rewrite generate_more_fuel; [done|]. rewrite IH. by apply search_ends.
Qed.

(** ** What holds of the illegal events and of the selection *)

(** The selection returns the first tuple of the list whose [|g_e|] is
    maximal. *)
Lemma select_first_max_aux (rest pre : list illegal_event)
    (best : illegal_event) (i : nat) :
  pre !! i = Some best →
  (∀ y, y ∈ pre → Z.abs y.2 ≤ Z.abs best.2) →
  (∀ j y, (j < i)%nat → pre !! j = Some y → Z.abs y.2 < Z.abs best.2) →
  ∃ i', (pre ++ rest) !! i'
        = Some (foldl (λ best y, if Z.abs best.2 <? Z.abs y.2 then y else best)
                      best rest)
    ∧ (∀ y, y ∈ pre ++ rest →
         Z.abs y.2
         ≤ Z.abs (foldl (λ best y, if Z.abs best.2 <? Z.abs y.2 then y
                                   else best) best rest).2)
    ∧ (∀ j y, (j < i')%nat → (pre ++ rest) !! j = Some y →
         Z.abs y.2
         < Z.abs (foldl (λ best y, if Z.abs best.2 <? Z.abs y.2 then y
                                   else best) best rest).2).
Proof.
  revert pre best i. induction rest as [|y rest IH]; intros pre best i Hi Hub Hlt.
  - rewrite app_nil_r. by exists i.
  - cbn [foldl]. replace (pre ++ y :: rest) with ((pre ++ [y]) ++ rest)
      by (by rewrite <- app_assoc).
    destruct (Z.abs best.2 <? Z.abs y.2) eqn:Hcmp.
    + apply Z.ltb_lt in Hcmp. apply (IH (pre ++ [y]) y (length pre)).
      * rewrite lookup_app_r by lia. by rewrite Nat.sub_diag.
      * intros z Hz. apply elem_of_app in Hz as [Hz|Hz].
        -- specialize (Hub z Hz). lia.
        -- apply list_elem_of_singleton in Hz as ->. lia.
      * intros j z Hj Hz. rewrite lookup_app_l in Hz by done.
        assert (z ∈ pre) as Hin by (apply list_elem_of_lookup; eauto).
        specialize (Hub z Hin). lia.
    + apply Z.ltb_ge in Hcmp. apply (IH (pre ++ [y]) best i).
      * apply lookup_app_l_Some. done.
      * intros z Hz. apply elem_of_app in Hz as [Hz|Hz].
        -- by apply Hub.
        -- apply list_elem_of_singleton in Hz as ->. lia.
      * intros j z Hj Hz. apply (Hlt j z Hj).
        rewrite lookup_app_l in Hz; [done|].
        apply lookup_lt_Some in Hi. unfold illegal_event in *. lia.
Qed.

Lemma select_first_max (l : list illegal_event) (x : illegal_event) :
  __get_event_gradient_for_expansion l = Ok x →
  ∃ i, l !! i = Some x
       ∧ (∀ y, y ∈ l → Z.abs y.2 ≤ Z.abs x.2)
       ∧ (∀ j y, (j < i)%nat → l !! j = Some y → Z.abs y.2 < Z.abs x.2).
Proof.
  destruct l as [|x0 rest]; [done|]. simpl. intros [= <-].
  apply (select_first_max_aux rest [x0] x0 0%nat).
  - done.
  - intros y Hy. apply list_elem_of_singleton in Hy as ->. lia.
  - intros j y Hj. lia.
Qed.

(** The midpoint is the integer floor of the half sum as long as the sum
    fits the 53 bits of a binary64 significand. *)
Lemma midpoint_exact (g_min g_max : Z) :
  Z.abs (g_min + g_max) < 2 ^ 53 →
  __get_gradient_for_binary_search g_min g_max = Ok ((g_min + g_max) / 2).
Proof.
  intros Hb. unfold __get_gradient_for_binary_search. cbv zeta.
  destruct (Z.log2 (Z.abs (g_min + g_max)) + 1 <=? 53) eqn:Hle; [done|].
  apply Z.leb_gt in Hle. exfalso.
  destruct (Z.eq_dec (Z.abs (g_min + g_max)) 0) as [Hz|Hz].
  - rewrite Hz in Hle. simpl in Hle. lia.
  - assert (Hpos : 0 < Z.abs (g_min + g_max)) by lia.
    apply (Z.log2_lt_pow2 _ 53) in Hb; [lia|done].
Qed.

(** Apart from the events without transitions, and as long as the
    midpoint is exact, the list is the one of the claim: the events with
    two or more gradient values, each with the least and the greatest
    gradient and the floor of their half sum. *)
Lemma illegal_entry_spec (kg : string * list Z) :
  kg.2 ≠ [] → (∀ v, v ∈ kg.2 → Z.abs v < 2 ^ 52) →
  ∃ g_min g_max,
    py_min kg.2 = Ok g_min ∧ py_max kg.2 = Ok g_max
    ∧ illegal_entry kg
      = Ok (if bool_decide (len_set kg.2 = 1%nat) then None
            else Some (kg.1, g_min, g_max, (g_min + g_max) / 2)).
Proof.
  intros Hne Hb. destruct kg as [e g]. simpl in *.
  destruct g as [|x g]; [done|].
  destruct (foldl_min_spec g x) as [Hmin _].
  destruct (foldl_max_spec g x) as [Hmax _].
  exists (foldl Z.min x g), (foldl Z.max x g).
  split; [done|]. split; [done|].
  unfold illegal_entry. simpl. case_bool_decide; [done|]. simpl.
  rewrite midpoint_exact; [done|].
  specialize (Hb _ Hmin) as H1. specialize (Hb _ Hmax) as H2.
  change (2 ^ 53) with (2 ^ 52 + 2 ^ 52). lia.
Qed.

Lemma gradient_of_event_closed (m : gmap string Z) ts e :
  ts_closed ts → dom m = state_set ts →
  ∃ g, get_gradient_of_event e m ts = Ok g
       ∧ (g = [] ↔ ∀ t, t ∈ get_all_state_transitions ts → st_event t ≠ e)
       ∧ ∀ B, (∀ s v, m !! s = Some v → Z.abs v < B) →
              ∀ v, v ∈ g → Z.abs v < B + B.
Proof.
  intros Hc Hdom. unfold get_gradient_of_event.
  set (arcs := filter (λ st, st_event st = e) (get_all_state_transitions ts)).
  set (val := λ st : state_transition,
         default 0 (m !! st_to st) - default 0 (m !! st_from st)).
  assert (Hin : ∀ t, t ∈ arcs → t ∈ get_all_state_transitions ts).
  { intros t Ht. by apply list_elem_of_filter in Ht as [_ ?]. }
  exists (val <$> arcs). split; [|split].
  - apply for_each_pure. apply Forall_forall. intros t Ht.
    destruct (closed_lookup ts m t Hc Hdom (Hin t Ht)) as [[a Ha] [b Hb]].
    unfold gradient_of_arc, val. rewrite Ha, Hb. done.
  - split.
    + intros Hnil%fmap_nil_inv t Ht He.
      assert (t ∈ arcs) as Hta by (by apply list_elem_of_filter).
      rewrite Hnil in Hta. by apply not_elem_of_nil in Hta.
    + intros Hno. destruct arcs as [|t arcs'] eqn:Harcs; [done|].
      exfalso. assert (t ∈ arcs) as Ht by (rewrite Harcs; left).
      apply list_elem_of_filter in Ht as [He Ht]. by apply (Hno t).
  - intros B HB v Hv. apply list_elem_of_fmap in Hv as (t & -> & Ht).
    destruct (closed_lookup ts m t Hc Hdom (Hin t Ht)) as [[a Ha] [b Hb]].
    unfold val. rewrite Ha, Hb. simpl.
    specialize (HB _ _ Ha) as H1. specialize (HB _ _ Hb) as H2. lia.
Qed.

Lemma illegal_events_of_live_system (m : gmap string Z) ts :
  ts_closed ts → dom m = state_set ts →
  (∀ e, e ∈ get_event_names ts →
        ∃ t, t ∈ get_all_state_transitions ts ∧ st_event t = e) →
  (∀ s v, m !! s = Some v → Z.abs v < 2 ^ 51) →
  ∃ l, get_illegal_events m ts = Ok l
       ∧ ∀ x, x ∈ l ↔
           ∃ e g g_min g_max,
             e ∈ get_event_names ts
             ∧ get_gradient_of_event e m ts = Ok g
             ∧ len_set g ≠ 1%nat
             ∧ py_min g = Ok g_min ∧ py_max g = Ok g_max
             ∧ x = (e, g_min, g_max, (g_min + g_max) / 2).
Proof.
  intros Hc Hdom Hlive Hbound. unfold get_illegal_events.
  destruct (for_each_ok
              (λ e, grad ← get_gradient_of_event e m ts; Ok (e, grad))
              (get_event_names ts)) as [gs Hgs].
  { apply Forall_forall. intros e _.
    destruct (gradient_of_event_closed m ts e Hc Hdom) as (g & Hg & _).
    rewrite Hg. simpl. by eexists. }
  unfold get_gradients_for_multisets. rewrite Hgs. cbn [mbind py_bind].
  apply gradients_inv in Hgs.
  set (sorted := merge_sort event_le gs).
  assert (Hperm : sorted ≡ₚ gs) by apply merge_sort_Permutation.
  assert (Hkg : ∀ kg, kg ∈ sorted ↔
            kg.1 ∈ get_event_names ts
            ∧ get_gradient_of_event kg.1 m ts = Ok kg.2).
  { intros kg. rewrite Hperm. split.
    - intros Hin. apply list_elem_of_lookup in Hin as [i Hi].
      destruct (Forall2_lookup_r _ _ _ _ _ Hgs Hi) as (e & He & <- & Hg).
      split; [|done]. apply list_elem_of_lookup. by exists i.
    - intros [He Hg]. apply list_elem_of_lookup in He as [i Hi].
      destruct (Forall2_lookup_l _ _ _ _ _ Hgs Hi) as (kg' & Hkg' & He & Hg').
      assert (kg' = kg) as <-.
      { destruct kg, kg'. simpl in *. congruence. }
      apply list_elem_of_lookup. by exists i. }
  assert (Hspec : ∀ kg, kg ∈ sorted →
            ∃ g_min g_max,
              py_min kg.2 = Ok g_min ∧ py_max kg.2 = Ok g_max
              ∧ illegal_entry kg
                = Ok (if bool_decide (len_set kg.2 = 1%nat) then None
                      else Some (kg.1, g_min, g_max, (g_min + g_max) / 2))).
  { intros kg Hin. apply Hkg in Hin as [He Hg].
    destruct (gradient_of_event_closed m ts kg.1 Hc Hdom)
      as (g & Hg' & Hnil & Hb).
    assert (g = kg.2) as -> by congruence.
    apply illegal_entry_spec.
    - intros Hz. destruct (Hlive _ He) as (t & Ht & Het).
      by apply (proj1 Hnil Hz t).
    - intros v Hv. change (2 ^ 52) with (2 ^ 51 + 2 ^ 51).
      by apply Hb. }
  destruct (for_each_ok illegal_entry sorted) as [lst Hlst].
  { apply Forall_forall. intros kg Hin.
    destruct (Hspec kg Hin) as (? & ? & _ & _ & ->). by eexists. }
  rewrite Hlst. cbn [mbind py_bind]. eexists. split; [done|].
  apply for_each_Forall2 in Hlst. intros x.
  rewrite list_elem_of_omap. split.
  - intros (o & Ho & Hox). simpl in Hox. subst o.
    apply list_elem_of_lookup in Ho as [i Hi].
    destruct (Forall2_lookup_r _ _ _ _ _ Hlst Hi) as (kg & Hkgi & Hentry).
    assert (Hin : kg ∈ sorted) by (apply list_elem_of_lookup; eauto).
    destruct (Hspec kg Hin) as (g_min & g_max & Hmin & Hmax & Heq).
    rewrite Heq in Hentry. case_bool_decide; [done|].
    injection Hentry as <-. apply Hkg in Hin as [He Hg].
    by exists kg.1, kg.2, g_min, g_max.
  - intros (e & g & g_min & g_max & He & Hg & Hlen & Hmin & Hmax & ->).
    exists (Some (e, g_min, g_max, (g_min + g_max) / 2)). split; [|done].
    assert (Hin : (e, g) ∈ sorted) by (by apply Hkg).
    apply list_elem_of_lookup in Hin as [i Hi].
    destruct (Forall2_lookup_l _ _ _ _ _ Hlst Hi) as (o & Ho & Hentry).
    destruct (Hspec (e, g)) as (g_min' & g_max' & Hmin' & Hmax' & Heq).
    { apply list_elem_of_lookup. eauto. }
    simpl in *. rewrite Heq in Hentry. rewrite bool_decide_eq_false_2 in Hentry
      by done.
    injection Hentry as <-.
    assert (g_min' = g_min) as -> by congruence.
    assert (g_max' = g_max) as -> by congruence.
    apply list_elem_of_lookup. eauto.
Qed.

(** In general: an event without transitions keeps every marking from
    being a region. *)
Lemma isolated_event_never_region (m : gmap string Z) ts e :
  e ∈ get_event_names ts →
  (∀ t, t ∈ get_all_state_transitions ts → st_event t ≠ e) →
  is_region m ts ≠ Ok true.
Proof.
  intros He Hno Hreg.
  destruct (proj1 (is_region_true_iff m ts) Hreg e He) as (g & Hg & Hlen).
  unfold get_gradient_of_event in Hg.
  assert (Hnil : filter (λ st, st_event st = e) (get_all_state_transitions ts)
                 = []).
  { destruct (filter _ _) as [|t l] eqn:Hf; [done|]. exfalso.
    assert (Ht : t ∈ t :: l) by left. rewrite <- Hf in Ht.
    apply list_elem_of_filter in Ht as [Hev Ht]. by apply (Hno t). }
  rewrite Hnil in Hg. injection Hg as <-. vm_compute in Hlen. discriminate.
Qed.

(** ** The search returns

    On a closed system in which every event labels a transition, and for
    [k] below 2^51 (so that every midpoint is exact), no step of the
    search raises. *)

Lemma argmax_fold_lt (rest : list Z) (bi : nat) (bk : Z) (i : nat) :
  (bi < i)%nat →
  ((foldl (λ (acc : nat * Z * nat) k,
             let '(bi, bk, i) := acc in
             if (bk <? k)%Z then (i, k, S i) else (bi, bk, S i))
          (bi, bk, i) rest).1.1 < i + length rest)%nat.
Proof.
  revert bi bk i. induction rest as [|x rest IH]; intros bi bk i Hlt; simpl.
  - lia.
  - destruct (bk <? x).
    + specialize (IH i x (S i)). lia.
    + specialize (IH bi bk (S i)). lia.
Qed.

Lemma argmin_fold_lt (rest : list Z) (bi : nat) (bk : Z) (i : nat) :
  (bi < i)%nat →
  ((foldl (λ (acc : nat * Z * nat) k,
             let '(bi, bk, i) := acc in
             if (k <? bk)%Z then (i, k, S i) else (bi, bk, S i))
          (bi, bk, i) rest).1.1 < i + length rest)%nat.
Proof.
  revert bi bk i. induction rest as [|x rest IH]; intros bi bk i Hlt; simpl.
  - lia.
  - destruct (x <? bk).
    + specialize (IH i x (S i)). lia.
    + specialize (IH bi bk (S i)). lia.
Qed.

Lemma py_argmax_lt (keys : list Z) :
  keys ≠ [] → ∃ i, py_argmax keys = Ok i ∧ (i < length keys)%nat.
Proof.
  destruct keys as [|k0 rest]; [done|]. intros _. eexists. split; [done|].
  pose proof (argmax_fold_lt rest 0 k0 1). simpl. lia.
Qed.

Lemma py_argmin_lt (keys : list Z) :
  keys ≠ [] → ∃ i, py_argmin keys = Ok i ∧ (i < length keys)%nat.
Proof.
  destruct keys as [|k0 rest]; [done|]. intros _. eexists. split; [done|].
  pose proof (argmin_fold_lt rest 0 k0 1). simpl. lia.
Qed.

Lemma pop_by_sum_ok (select : list Z → py nat) (l : list (gmap string Z)) :
  (∀ keys, keys ≠ [] → ∃ i, select keys = Ok i ∧ (i < length keys)%nat) →
  l ≠ [] →
  ∃ idx x l', select ((λ c, py_sum (dict_values c)) <$> l) = Ok idx
              ∧ py_pop l idx = Ok (x, l').
Proof.
  intros Hsel Hne.
  destruct (Hsel ((λ c, py_sum (dict_values c)) <$> l)) as (idx & Hidx & Hlt).
  { by destruct l. }
  rewrite length_fmap in Hlt. apply lookup_lt_is_Some in Hlt as [x Hx].
  exists idx, x, (delete idx l). split; [done|]. unfold py_pop. by rewrite Hx.
Qed.

Lemma is_subset_ok (a b : gmap string Z) : ∃ res, is_subset a b = Ok res.
Proof. unfold is_subset. case_decide; simpl; by eexists. Qed.

Lemma has_subset_of_list_ok (m : gmap string Z) l :
  ∃ res, __has_subset_of_list m l = Ok res.
Proof.
  induction l as [|x l IH]; simpl; [by eexists|].
  destruct (is_subset_ok x m) as [[] ->]; simpl; [by eexists|done].
Qed.

Lemma has_no_other_subset_ok l (m : gmap string Z) :
  ∃ res, has_no_other_subset l m = Ok res.
Proof.
  unfold has_no_other_subset.
  destruct (has_subset_of_list_ok m (filter (λ e, e ≠ m) l)) as [b ->].
  simpl. by eexists.
Qed.

Lemma filter_py_ok {A} (f : A → py bool) (l : list A) :
  (∀ x, ∃ b, f x = Ok b) → ∃ l', filter_py f l = Ok l'.
Proof.
  intros Hf. induction l as [|x l [l' IH]]; simpl; [by eexists|].
  destruct (Hf x) as [b ->]. simpl. rewrite IH. simpl. by eexists.
Qed.

Lemma remove_duplicates_loop_ok seen (l : list (gmap string Z)) :
  ∃ l', remove_duplicates_loop seen (Some <$> l) = Ok l'.
Proof.
  revert seen. induction l as [|x l IH]; intros seen; [by eexists|].
  rewrite fmap_cons. cbn [remove_duplicates_loop].
  case_decide; [done|]. destruct (IH (x :: seen)) as [l' ->]. simpl.
  by eexists.
Qed.

Lemma seed_sets_ok (f : string → py (option (gmap string Z)))
    (events : list string) :
  (∀ e, e ∈ events → ∃ m, f e = Ok (Some m)) →
  ∃ xs l, for_each (λ e, v ← f e; Ok (e, v)) events = Ok xs
          ∧ xs.*2 = Some <$> l.
Proof.
  induction events as [|e es IH]; intros Hf.
  - by exists [], [].
  - destruct (Hf e) as [m Hm]; [left|].
    destruct IH as (xs & l & Hxs & Hl); [intros e' He'; apply Hf; by right|].
    exists ((e, Some m) :: xs), (m :: l). split.
    + simpl. rewrite Hm. simpl. rewrite Hxs. done.
    + rewrite !fmap_cons. by rewrite Hl.
Qed.

Lemma get_candidates_ok ts : ∃ l, get_candidates ts = Ok (Some <$> l).
Proof.
  unfold get_candidates, get_excitation_sets, get_switching_sets.
  destruct (seed_sets_ok (λ e, get_excitation_set_by_event e ts)
              (get_event_names ts)) as (xs & l1 & -> & H1).
  { intros e He. unfold get_excitation_set_by_event.
    rewrite decide_True by done. by eexists. }
  destruct (seed_sets_ok (λ e, get_switching_set_by_event e ts)
              (get_event_names ts)) as (ys & l2 & -> & H2).
  { intros e He. unfold get_switching_set_by_event.
    rewrite decide_True by done. by eexists. }
  simpl. exists (l1 ++ l2). by rewrite fmap_app, H1, H2.
Qed.

Lemma ts_live_spec ts e :
  ts_live ts → e ∈ get_event_names ts →
  ∃ t, t ∈ get_all_state_transitions ts ∧ st_event t = e.
Proof.
  intros Hlive He.
  apply (proj1 (Forall_forall _ _) Hlive) in He. by apply Exists_exists in He.
Qed.

Lemma is_region_ok (m : gmap string Z) ts :
  ts_closed ts → dom m = state_set ts → ∃ b, is_region m ts = Ok b.
Proof.
  intros Hc Hdom. unfold is_region, get_gradients_for_multisets.
  destruct (for_each_ok
              (λ e, grad ← get_gradient_of_event e m ts; Ok (e, grad))
              (get_event_names ts)) as [gs ->].
  { apply Forall_forall. intros e _.
    destruct (gradient_of_event_closed m ts e Hc Hdom) as (g & -> & _).
    simpl. by eexists. }
  simpl. by eexists.
Qed.

Lemma is_region_false_inv (m : gmap string Z) ts :
  is_region m ts = Ok false →
  ∃ e g, e ∈ get_event_names ts
         ∧ get_gradient_of_event e m ts = Ok g ∧ len_set g ≠ 1%nat.
Proof.
  unfold is_region. intros H. bind_inv H. injection H as H.
  apply forallb_false in H as (kg & Hin & Hkg).
  apply bool_decide_eq_false_1 in Hkg.
  apply gradients_inv in Ha. apply list_elem_of_lookup in Hin as [i Hi].
  destruct (Forall2_lookup_r _ _ _ _ _ Ha Hi) as (e & He & <- & Hg).
  exists kg.1, kg.2. split; [|done]. apply list_elem_of_lookup. by exists i.
Qed.

Lemma closed_states_nonempty ts (t : state_transition) :
  ts_closed ts → t ∈ get_all_state_transitions ts → state_set ts ≠ ∅.
Proof.
  intros Hc Ht Hempty.
  destruct (proj1 (Forall_forall _ _) Hc t Ht) as [Hf _].
  apply (elem_of_list_to_set (C:=gset string)) in Hf.
  fold (state_set ts) in Hf. rewrite Hempty in Hf. set_solver.
Qed.

(** A marking of the space that is not a region has an illegal event, so
    the selection has something to choose from. *)
Lemma chosen_event_ok k ts (m : gmap string Z) :
  ts_closed ts → ts_live ts → k < 2 ^ 51 →
  in_space k ts m → is_region m ts = Ok false →
  ∃ lst chosen, get_illegal_events m ts = Ok lst
                ∧ __get_event_gradient_for_expansion lst = Ok chosen.
Proof.
  intros Hc Hlive Hk [Hdom Hrange] Hreg.
  destruct (illegal_events_of_live_system m ts Hc Hdom) as (lst & Hlst & Hin).
  { intros e He. by apply ts_live_spec. }
  { intros s v Hv. specialize (Hrange s v Hv).
    assert (Z.max k 1 < 2 ^ 51) by (apply Z.max_lub_lt; [done|reflexivity]).
    lia. }
  exists lst.
  apply is_region_false_inv in Hreg as (e & g & He & Hg & Hlen).
  assert (Hne : g ≠ []).
  { destruct (gradient_of_event_closed m ts e Hc Hdom) as (g' & Hg' & Hnil & _).
    assert (g' = g) as -> by congruence. intros Hz.
    destruct (ts_live_spec ts e Hlive He) as (t & Ht & Het).
    by apply (proj1 Hnil Hz t). }
  destruct g as [|x g]; [done|].
  assert (Hx : (e, foldl Z.min x g, foldl Z.max x g,
                (foldl Z.min x g + foldl Z.max x g) / 2) ∈ lst).
  { apply Hin. by exists e, (x :: g), (foldl Z.min x g), (foldl Z.max x g). }
  destruct lst as [|y lst]; [by apply not_elem_of_nil in Hx|].
  eexists. split; [done|]. reflexivity.
Qed.

Lemma route_ok k ts (i : gmap string Z) (s : search_state) :
  ts_closed ts → dom i = state_set ts → state_set ts ≠ ∅ →
  ∃ s', route k ts i s = Ok s'.
Proof.
  intros Hc Hdom Hne. destruct s as [[r d] ex]. unfold route.
  case_decide; [by eexists|].
  assert (Hi : i ≠ ∅).
  { intros ->. rewrite dom_empty_L in Hdom. done. }
  destruct (power_ok i Hi) as [p Hp]. unfold __is_valid_candidate.
  rewrite Hp. cbn [mbind py_bind].
  destruct (is_region_ok i ts Hc Hdom) as [b Hb].
  destruct (if p <=? k then negb (is_trivial i) else false); [|by eexists].
  rewrite Hb. cbn [mbind py_bind]. destruct b; by eexists.
Qed.

Lemma expansion_loop_no_raise k ts fuel r d ex n e :
  ts_closed ts → ts_live ts → k < 2 ^ 51 →
  Forall (λ m, in_space k ts m ∧ is_region m ts = Ok false) r →
  expansion_loop fuel k ts r d ex n ≠ Raise e.
Proof.
  intros Hc Hlive Hk. revert r d ex n.
  induction fuel as [|fuel IH]; intros r d ex n HR.
  { by destruct r. }
  destruct r as [|m0 r0]; [done|].
  cbn [expansion_loop]. set (r := m0 :: r0) in *.
  unfold expansion_round.
  destruct (pop_by_sum_ok py_argmax r py_argmax_lt)
    as (idx & r_hat & r1 & -> & Hpop); [done|].
  cbn [mbind py_bind]. rewrite Hpop. cbn [mbind py_bind].
  apply py_pop_spec in Hpop as (_ & _ & Hhat & Hsub).
  destruct (proj1 (Forall_forall _ _) HR r_hat Hhat) as [Hsp Hreg].
  assert (HR1 : Forall (λ m, in_space k ts m ∧ is_region m ts = Ok false) r1).
  { apply Forall_forall. intros x Hx.
    apply (proj1 (Forall_forall _ _) HR). by apply Hsub. }
  clearbody r.
  case_decide; [by apply IH|].
  destruct (chosen_event_ok k ts r_hat Hc Hlive Hk Hsp Hreg)
    as (lst & [[[ev g_min] g_max] g_e] & -> & Hsel).
  cbn [mbind py_bind]. rewrite Hsel. cbn [mbind py_bind].
  destruct Hsp as [Hdom Hrange].
  destruct (expansion_by_g_ok g_e ev r_hat ts Hc Hdom) as [r_1 H1].
  destruct (expansion_by_G_ok (g_e + 1) ev r_hat ts Hc Hdom) as [r_2 H2].
  rewrite H1. cbn [mbind py_bind]. rewrite H2. cbn [mbind py_bind].
  assert (Hne : state_set ts ≠ ∅).
  { apply is_region_false_inv in Hreg as (e' & _ & He' & _).
    destruct (ts_live_spec ts e' Hlive He') as (t & Ht & _).
    by eapply closed_states_nonempty. }
  assert (Hd1 : dom r_1 = state_set ts).
  { apply expansion_by_g_inv in H1 as (_ & ? & _). congruence. }
  assert (Hd2 : dom r_2 = state_set ts).
  { apply expansion_by_G_inv in H2 as (_ & ? & _). congruence. }
  destruct (route_ok k ts r_1 (r1, d, ex ++ [inr (dict_values r_hat)])
              Hc Hd1 Hne) as [[[ra da] exa] Ha].
  rewrite Ha. cbn [mbind py_bind].
  destruct (route_ok k ts r_2 (ra, da, exa) Hc Hd2 Hne)
    as [[[rb db] exb] Hb].
  rewrite Hb. cbn [mbind py_bind].
  assert (Hrouted : ∀ h i : gmap string Z,
            in_space k ts h ∧ is_region h ts = Ok false →
            expansion_of ts h i → i ≠ h → __is_valid_candidate k i = Ok true →
            (is_region i ts = Ok true → True)
            ∧ (is_region i ts = Ok false →
               in_space k ts i ∧ is_region i ts = Ok false)).
  { intros h i [Hh _] Hexp _ Hv. split; [done|]. intros Hf. split; [|done].
    by eapply valid_expansion_in_space. }
  eapply (route_invariant k ts _ (λ _, True) Hrouted r_hat)
    in Ha as (HRa & _ & Hina);
    [| done | by exists g_e, ev; left | apply elem_of_app; right; left
     | done | by apply Forall_true].
  eapply (route_invariant k ts _ (λ _, True) Hrouted r_hat)
    in Hb as (HRb & _ & _);
    [| done | by exists (g_e + 1), ev; right | done | done
     | by apply Forall_true].
  by apply IH.
Qed.

Lemma candidates_loop_no_raise k ts fuel cs d ex n e :
  ts_closed ts → ts_live ts → k < 2 ^ 51 →
  Forall (seed ts) cs →
  candidates_loop fuel k ts cs d ex n ≠ Raise e.
Proof.
  intros Hc Hlive Hk. revert cs d ex n.
  induction fuel as [|fuel IH]; intros cs d ex n HC.
  { by destruct cs. }
  destruct cs as [|m0 cs0]; [done|].
  cbn [candidates_loop]. set (cs := m0 :: cs0) in *.
  unfold candidates_round.
  destruct (pop_by_sum_ok py_argmin cs py_argmin_lt)
    as (idx & r_tilde & cs1 & -> & Hpop); [done|].
  cbn [mbind py_bind]. rewrite Hpop. cbn [mbind py_bind].
  apply py_pop_spec in Hpop as (_ & _ & Htilde & Hsub).
  pose proof (proj1 (Forall_forall _ _) HC r_tilde Htilde) as Hseed.
  assert (HC1 : Forall (seed ts) cs1).
  { apply Forall_forall. intros x Hx.
    apply (proj1 (Forall_forall _ _) HC). by apply Hsub. }
  clearbody cs.
  pose proof (seed_dom ts r_tilde Hc Hseed) as Hdom.
  destruct (is_region_ok r_tilde ts Hc Hdom) as [[] Hreg];
    rewrite Hreg; cbn [mbind py_bind].
  - case_decide; by apply IH.
  - destruct (multiset_expansion fuel k r_tilde n ts d ex)
      as [[[d1 ex1] n1]|e'|] eqn:Hexp; cbn [mbind py_bind]; [|exfalso|done].
    + by apply IH.
    + revert Hexp. apply expansion_loop_no_raise; try done.
      constructor; [|done]. split; [|done]. by apply seed_in_space.
Qed.

Lemma generate_no_raise k ts fuel e :
  ts_closed ts → ts_live ts → k < 2 ^ 51 →
  generate_all_minimal_regions_v1 fuel k ts ≠ Raise e.
Proof.
  intros Hc Hlive Hk.
  unfold generate_all_minimal_regions_v1, __remove_duplicates.
  destruct (get_candidates_ok ts) as [l0 Hcs0]. rewrite Hcs0.
  cbn [mbind py_bind].
  destruct (remove_duplicates_loop_ok [] l0) as [cs1 Hcs1].
  rewrite Hcs1. cbn [mbind py_bind].
  destruct (filter_py_ok (has_no_other_subset cs1) cs1) as [cs Hcs].
  { apply has_no_other_subset_ok. }
  unfold __remove_supersets. rewrite Hcs. cbn [mbind py_bind].
  assert (Hseeds : Forall (seed ts) cs).
  { apply get_candidates_seeds in Hcs0.
    apply remove_duplicates_loop_spec in Hcs1 as [_ Hin1].
    apply filter_py_spec in Hcs as [Hsub _].
    apply Forall_forall. intros m Hm.
    apply (sublist_subseteq _ _ Hsub) in Hm. apply Hin1 in Hm as [Hm _].
    destruct (proj1 (Forall_forall _ _) Hcs0 _ Hm) as (m' & [= <-] & Hs).
    done. }
  destruct (candidates_loop fuel k ts cs [] [] 0%nat)
    as [[[discovered ex] it]|e'|] eqn:Hloop; cbn [mbind py_bind];
    [|exfalso|done].
  - destruct (filter_py_ok (has_no_other_subset discovered) discovered)
      as [temp ->].
    { apply has_no_other_subset_ok. }
    cbn [mbind py_bind].
    destruct (remove_duplicates_loop_ok [] temp) as [regions Hregions].
    rewrite Hregions. done.
  - revert Hloop. by apply candidates_loop_no_raise.
Qed.

(** On a closed system in which every event labels a transition, and for
    [k] below 2^51, the search returns: one and the same result for every
    budget of rounds from [enough_fuel] on. *)
Theorem search_returns k ts :
  ts_closed ts → ts_live ts → k < 2 ^ 51 →
  ∃ res, ∀ fuel, (enough_fuel k ts ≤ fuel)%nat →
                 generate_all_minimal_regions_v1 fuel k ts = Ok res.
Proof.
  intros Hc Hlive Hk.
  destruct (generate_all_minimal_regions_v1 (enough_fuel k ts) k ts)
    as [res|e|] eqn:Hrun.
  - exists res. intros fuel Hle.
    rewrite (search_outcome_is_stable k ts (enough_fuel k ts) fuel);
      [done|done|done].
  - exfalso. revert Hrun. by apply generate_no_raise.
  - exfalso. revert Hrun. by apply search_ends.
Qed.

Lemma sample_ts_live : ts_live sample_ts.
Proof. apply (bool_decide_unpack _). vm_compute. exact I. Qed.

(** ** The returned regions *)

(** C1, as amended: every returned marking is a region of power at most
    [k], and it is not trivial unless it is one of the seeds (the
    excitation or switching set of an event), which the driver accepts
    without the validity test.  The search does return on the systems
    described at [search_returns]. *)
Theorem returned_regions_are_bounded_regions k ts :
  0 < k →
  (ts_closed ts → ts_live ts → k < 2 ^ 51 →
   ∃ res, ∀ fuel, (enough_fuel k ts ≤ fuel)%nat →
                  generate_all_minimal_regions_v1 fuel k ts = Ok res)
  ∧ ∀ fuel regions ex it,
      generate_all_minimal_regions_v1 fuel k ts = Ok (regions, ex, it) →
      ∀ m, m ∈ regions →
        is_region m ts = Ok true
        ∧ (∃ p, get_power_of_multiset m = Ok p ∧ p ≤ k)
        ∧ (is_trivial m = false ∨ seed ts m).
Proof.
  intros Hk. split; [apply search_returns|].
  intros fuel regions ex it H m Hm.
  destruct (discovered_are_regions _ _ _ _ _ _ H m Hm) as [Hreg [Hs|Hv]].
  - split; [done|]. split; [|by right].
    destruct (seed_region_power ts m Hs Hreg) as (p & Hp & Hle).
    exists p. split; [done|lia].
  - apply valid_candidate_true in Hv as (p & Hp & Hle & Htriv).
    split; [done|]. split; [by exists p|by left].
Qed.

Lemma returned_regions_are_bounded_regions_witness :
  (∃ res, ∀ fuel, (enough_fuel 1 sample_ts ≤ fuel)%nat →
                  generate_all_minimal_regions_v1 fuel 1 sample_ts = Ok res)
  ∧ generate_all_minimal_regions_v1 50 1 sample_ts
    = Ok (sample_regions, sample_explored, 10%nat)
  ∧ is_region m_0110 sample_ts = Ok true
  ∧ (∃ p, get_power_of_multiset m_0110 = Ok p ∧ p ≤ 1)
  ∧ (is_trivial m_0110 = false ∨ seed sample_ts m_0110).
Proof.
  destruct (returned_regions_are_bounded_regions 1 sample_ts) as [Hret Hprop].
  { lia. }
  assert (Hrun : generate_all_minimal_regions_v1 50 1 sample_ts
                 = Ok (sample_regions, sample_explored, 10%nat)).
  { vm_compute. reflexivity. }
  split; [|split].
  - apply Hret.
    + apply (bool_decide_unpack _). vm_compute. exact I.
    + apply (bool_decide_unpack _). vm_compute. exact I.
    + reflexivity.
  - exact Hrun.
  - apply (Hprop 50%nat sample_regions sample_explored 10%nat Hrun).
    apply (bool_decide_unpack _). vm_compute. exact I.
Defined.

(** C1 as stated fails: on the single self-loop with [k = 1] the driver
    returns the excitation set [{s1: 1}], which is trivial. *)
Lemma self_loop_returns_trivial_region :
  0 < 1
  ∧ generate_all_minimal_regions_v1 5 1 self_loop_ts
    = Ok ([m_s1_one], [inl m_s1_one], 2%nat)
  ∧ is_trivial m_s1_one = true.
Proof. split; [lia|]. split; vm_compute; reflexivity. Qed.

(** C2: the returned list has no two equal markings, and no returned
    marking contains another one: of two different returned markings
    each exceeds the other at some state.  The search does return on the
    systems described at [search_returns]. *)
Theorem returned_regions_are_minimal k ts :
  ts_closed ts →
  (ts_live ts → k < 2 ^ 51 →
   ∃ res, ∀ fuel, (enough_fuel k ts ≤ fuel)%nat →
                  generate_all_minimal_regions_v1 fuel k ts = Ok res)
  ∧ ∀ fuel regions ex it,
      generate_all_minimal_regions_v1 fuel k ts = Ok (regions, ex, it) →
      NoDup regions
      ∧ ∀ r r', r ∈ regions → r' ∈ regions → r ≠ r' →
          ¬ (∀ s, s ∈ state_set ts →
               ∃ v v', r !! s = Some v ∧ r' !! s = Some v' ∧ v' ≤ v).
Proof.
  intros Hc. split; [by apply search_returns|].
  intros fuel regions ex it H.
  destruct (discovered_have_state_domain _ _ _ _ _ _ Hc H)
    as (d & Hdom & Hnd & Hr).
  split; [done|]. intros r r' Hin Hin' Hne Hle.
  destruct (Hr r Hin) as [Hd Hkeep]. destruct (Hr r' Hin') as [Hd' _].
  pose proof (proj1 (Forall_forall _ _) Hdom r Hd) as Hdr.
  pose proof (proj1 (Forall_forall _ _) Hdom r' Hd') as Hdr'.
  pose proof (has_no_other_subset_true d r Hkeep r' Hd' (not_eq_sym Hne))
    as Hsub.
  destruct (is_subset_same_dom r' r) as (res & Hres & Hfalse);
    [congruence|].
  rewrite Hsub in Hres. injection Hres as <-.
  destruct (Hfalse eq_refl) as (s & v' & v & Hv' & Hv & Hlt).
  destruct (Hle s) as (w & w' & Hw & Hw' & Hww).
  { rewrite <- Hdr. apply elem_of_dom. by eexists. }
  rewrite Hv in Hw. rewrite Hv' in Hw'. injection Hw as <-.
  injection Hw' as <-. lia.
Qed.

Lemma returned_regions_are_minimal_witness :
  (∃ res, ∀ fuel, (enough_fuel 1 sample_ts ≤ fuel)%nat →
                  generate_all_minimal_regions_v1 fuel 1 sample_ts = Ok res)
  ∧ generate_all_minimal_regions_v1 50 1 sample_ts
    = Ok (sample_regions, sample_explored, 10%nat)
  ∧ NoDup sample_regions
  ∧ ∀ r r', r ∈ sample_regions → r' ∈ sample_regions → r ≠ r' →
      ¬ (∀ s, s ∈ state_set sample_ts →
           ∃ v v', r !! s = Some v ∧ r' !! s = Some v' ∧ v' ≤ v).
Proof.
  destruct (returned_regions_are_minimal 1 sample_ts) as [Hret Hprop].
  { apply (bool_decide_unpack _). vm_compute. exact I. }
  assert (Hrun : generate_all_minimal_regions_v1 50 1 sample_ts
                 = Ok (sample_regions, sample_explored, 10%nat)).
  { vm_compute. reflexivity. }
  split; [|split].
  - apply Hret.
    + apply (bool_decide_unpack _). vm_compute. exact I.
    + reflexivity.
  - exact Hrun.
  - exact (Hprop 50%nat sample_regions sample_explored 10%nat Hrun).
Defined.

(** With [k <= 0] no expansion of a marking with non-negative
    multiplicities passes the validity test, unless it is the marking
    itself. *)
Lemma no_valid_expansion_below_one k ts (r_hat i : gmap string Z) :
  k ≤ 0 → (∀ s v, r_hat !! s = Some v → 0 ≤ v) →
  expansion_of ts r_hat i → __is_valid_candidate k i = Ok true → i = r_hat.
Proof.
  intros Hk Hnn Hexp Hv.
  apply valid_candidate_true in Hv as (p & Hp & Hle & _).
  apply power_spec in Hp as [_ Hub].
  destruct (expansion_of_dom _ _ _ Hexp) as [_ Hdom].
  apply map_eq. intros s. destruct (r_hat !! s) as [v|] eqn:Hs.
  - destruct (expansion_of_grows _ _ _ s v Hexp Hs) as (d & Hd & Hi).
    rewrite Hi. f_equal. specialize (Hub s _ Hi). specialize (Hnn s v Hs). lia.
  - apply not_elem_of_dom. rewrite Hdom. by apply not_elem_of_dom.
Qed.

(** C5, as amended: [k <= 0] is not rejected.  On a closed system whose
    events all label a transition the search runs as for any other [k]
    and returns; and on every system, whenever the search returns, what
    is returned consists of seeds (excitation or switching sets of
    events) that are regions, since no expansion result passes the
    validity test [power <= k]. *)
Theorem nonpositive_k_returns_seed_regions k ts :
  k ≤ 0 →
  (ts_closed ts → ts_live ts →
   ∃ res, ∀ fuel, (enough_fuel k ts ≤ fuel)%nat →
                  generate_all_minimal_regions_v1 fuel k ts = Ok res)
  ∧ ∀ fuel regions ex it,
      generate_all_minimal_regions_v1 fuel k ts = Ok (regions, ex, it) →
      ∀ m, m ∈ regions → seed ts m ∧ is_region m ts = Ok true.
Proof.
  intros Hk. split.
  { intros Hc Hlive. apply search_returns; [done|done|].
    assert (0 < 2 ^ 51) by reflexivity. lia. }
  intros fuel regions ex it H m Hm.
  destruct (generate_inv _ _ _ _ _ _ H) as (cs & d & it0 & Hcs & Hloop & _ & Hr).
  destruct (Hr m Hm) as [Hd _].
  eapply (candidates_loop_invariant k ts (seed ts)
            (λ m, ∀ s v, m !! s = Some v → 0 ≤ v)
            (λ m, seed ts m ∧ is_region m ts = Ok true))
    in Hloop; [| | done | | done | constructor].
  - by apply (proj1 (Forall_forall _ _) Hloop).
  - intros m' Hs s v Hv. destruct (seed_values ts m' s v Hs Hv); lia.
  - intros r_hat i Hnn Hexp Hne Hv. exfalso. apply Hne.
    by eapply no_valid_expansion_below_one.
Qed.

Lemma nonpositive_k_returns_seed_regions_witness :
  (∃ res, ∀ fuel, (enough_fuel 0 one_arc_ts ≤ fuel)%nat →
                  generate_all_minimal_regions_v1 fuel 0 one_arc_ts = Ok res)
  ∧ generate_all_minimal_regions_v1 5 0 one_arc_ts
    = Ok ([m_s1; m_s2], [inl m_s1; inl m_s2], 4%nat)
  ∧ seed one_arc_ts m_s2 ∧ is_region m_s2 one_arc_ts = Ok true.
Proof.
  destruct (nonpositive_k_returns_seed_regions 0 one_arc_ts) as [Hret Hprop].
  { lia. }
  assert (Hrun : generate_all_minimal_regions_v1 5 0 one_arc_ts
                 = Ok ([m_s1; m_s2], [inl m_s1; inl m_s2], 4%nat)).
  { vm_compute. reflexivity. }
  split; [|split].
  - apply Hret.
    + apply (bool_decide_unpack _). vm_compute. exact I.
    + apply (bool_decide_unpack _). vm_compute. exact I.
  - exact Hrun.
  - apply (Hprop 5%nat [m_s1; m_s2] [inl m_s1; inl m_s2] 4%nat Hrun).
    apply (bool_decide_unpack _). vm_compute. exact I.
Defined.

(** C5 as stated fails: with [k = 0] on the system of one arc the call is
    not rejected; it searches (its iteration count is 4) and returns two
    regions. *)
Lemma zero_k_is_not_rejected :
  0 ≤ 0
  ∧ generate_all_minimal_regions_v1 5 0 one_arc_ts
    = Ok ([m_s1; m_s2], [inl m_s1; inl m_s2], 4%nat).
Proof. split; [lia|]. vm_compute. reflexivity. Qed.

(* ================================================================= *)
(** * Further properties of the code *)

(** ** The order and the lattice of markings *)

Lemma is_subset_true (a b : gmap string Z) :
  is_subset a b = Ok true
  ↔ dom a = dom b
    ∧ ∀ s va, a !! s = Some va → ∃ vb, b !! s = Some vb ∧ va ≤ vb.
Proof.
  unfold is_subset. destruct (decide (dom a = dom b)) as [Hdom|Hdom]; simpl.
  - split.
    + intros [= H]. split; [done|]. intros s va Hs.
      rewrite forallb_forall in H. specialize (H (s, va)).
      rewrite <- list_elem_of_In, elem_of_dict_items in H.
      specialize (H Hs). simpl in H.
      destruct (b !! s) as [vb|]; [|done]. exists vb. split; [done|].
      by apply Z.leb_le.
    + intros [_ H]. f_equal. apply forallb_forall. intros [s va] Hin.
      apply list_elem_of_In, elem_of_dict_items in Hin. simpl.
      destruct (H s va Hin) as (vb & -> & Hle). by apply Z.leb_le.
  - split; [done|]. by intros [? _].
Qed.

(** X1: [is_subset] never raises: it returns [True] when the key sets agree
    and every multiplicity of the first marking is at most that of the
    second, and [False] in every other case. *)
Theorem is_subset_returns (a b : gmap string Z) :
  ∃ res, is_subset a b = Ok res
         ∧ (res = true
            ↔ dom a = dom b
              ∧ ∀ s va, a !! s = Some va →
                        ∃ vb, b !! s = Some vb ∧ va ≤ vb).
Proof.
  destruct (is_subset_ok a b) as [res Hres]. exists res. split; [done|].
  rewrite <- is_subset_true, Hres. split; [by intros ->|by intros [= ->]].
Qed.

Lemma is_subset_refl (a : gmap string Z) : is_subset a a = Ok true.
Proof.
  apply is_subset_true. split; [done|]. intros s va Hs. exists va.
  split; [done|lia].
Qed.

Lemma is_subset_antisym (a b : gmap string Z) :
  is_subset a b = Ok true → is_subset b a = Ok true → a = b.
Proof.
  intros [Hdom Hab]%is_subset_true [_ Hba]%is_subset_true.
  apply map_eq. intros s. destruct (a !! s) as [va|] eqn:Ha.
  - destruct (Hab s va Ha) as (vb & Hb & Hle).
    destruct (Hba s vb Hb) as (va' & Ha' & Hle').
    rewrite Hb. f_equal. assert (va' = va) by congruence. lia.
  - symmetry. apply not_elem_of_dom. rewrite <- Hdom.
    by apply not_elem_of_dom.
Qed.

Lemma is_subset_trans (a b c : gmap string Z) :
  is_subset a b = Ok true → is_subset b c = Ok true →
  is_subset a c = Ok true.
Proof.
  intros [Hdom Hab]%is_subset_true [Hdom' Hbc]%is_subset_true.
  apply is_subset_true. split; [congruence|]. intros s va Ha.
  destruct (Hab s va Ha) as (vb & Hb & Hle).
  destruct (Hbc s vb Hb) as (vc & Hc & Hle').
  exists vc. split; [done|lia].
Qed.

(** X2: [is_subset] is a partial order on markings: reflexive, antisymmetric
    (two markings below each other are equal dictionaries) and
    transitive. *)
Theorem is_subset_partial_order (a b c : gmap string Z) :
  is_subset a a = Ok true
  ∧ (is_subset a b = Ok true → is_subset b a = Ok true → a = b)
  ∧ (is_subset a b = Ok true → is_subset b c = Ok true →
     is_subset a c = Ok true).
Proof.
  split; [apply is_subset_refl|].
  split; [apply is_subset_antisym|apply is_subset_trans].
Qed.

Lemma zip_lookup_same_dom (f : Z → Z → Z) (a b : gmap string Z) s va :
  dom a = dom b → a !! s = Some va →
  ∃ vb, b !! s = Some vb ∧ map_zip_with f a b !! s = Some (f va vb).
Proof.
  intros Hdom Ha.
  assert (Hb : is_Some (b !! s)).
  { apply elem_of_dom. rewrite <- Hdom. apply elem_of_dom. by eexists. }
  destruct Hb as [vb Hb]. exists vb. split; [done|].
  rewrite map_lookup_zip_with, Ha, Hb. done.
Qed.

(** X3: On markings over one domain, [union] is the least upper bound and
    [intersection] the greatest lower bound for [is_subset], and each
    absorbs the other. *)
Theorem union_intersection_lattice (a b : gmap string Z) :
  dom a = dom b →
  ∃ u i,
    get_union_of_multisets a b = Ok (Some u)
    ∧ get_intersection_of_multisets a b = Ok (Some i)
    ∧ is_subset a u = Ok true ∧ is_subset b u = Ok true
    ∧ (∀ c, is_subset a c = Ok true → is_subset b c = Ok true →
            is_subset u c = Ok true)
    ∧ is_subset i a = Ok true ∧ is_subset i b = Ok true
    ∧ (∀ c, is_subset c a = Ok true → is_subset c b = Ok true →
            is_subset c i = Ok true)
    ∧ get_union_of_multisets a i = Ok (Some a)
    ∧ get_intersection_of_multisets a u = Ok (Some a).
Proof.
  intros Hdom. exists (map_zip_with Z.max a b), (map_zip_with Z.min a b).
  pose proof (dom_zip_same (f:=Z.max) a b Hdom) as Hdu.
  pose proof (dom_zip_same (f:=Z.min) a b Hdom) as Hdi.
  split; [by apply union_same_dom|].
  split; [by apply intersection_same_dom|].
  assert (Hlu : ∀ s va vb, a !! s = Some va → b !! s = Some vb →
            map_zip_with Z.max a b !! s = Some (Z.max va vb)).
  { intros s va vb Ha Hb. by rewrite map_lookup_zip_with, Ha, Hb. }
  assert (Hli : ∀ s va vb, a !! s = Some va → b !! s = Some vb →
            map_zip_with Z.min a b !! s = Some (Z.min va vb)).
  { intros s va vb Ha Hb. by rewrite map_lookup_zip_with, Ha, Hb. }
  assert (Hboth : ∀ s va, a !! s = Some va → ∃ vb, b !! s = Some vb).
  { intros s va Ha. apply elem_of_dom. rewrite <- Hdom. apply elem_of_dom.
    by eexists. }
  assert (Hboth' : ∀ s vb, b !! s = Some vb → ∃ va, a !! s = Some va).
  { intros s vb Hb. apply elem_of_dom. rewrite Hdom. apply elem_of_dom.
    by eexists. }
  repeat split.
  - apply is_subset_true. split; [done|]. intros s va Ha.
    destruct (Hboth s va Ha) as [vb Hb]. rewrite (Hlu s va vb Ha Hb).
    eexists. split; [done|lia].
  - apply is_subset_true. split; [congruence|]. intros s vb Hb.
    destruct (Hboth' s vb Hb) as [va Ha]. rewrite (Hlu s va vb Ha Hb).
    eexists. split; [done|lia].
  - intros c [Hdc Hac]%is_subset_true [_ Hbc]%is_subset_true.
    apply is_subset_true. split; [congruence|]. intros s v Hs.
    assert (Ha : is_Some (a !! s)).
    { apply elem_of_dom. rewrite <- Hdu. apply elem_of_dom. by eexists. }
    destruct Ha as [va Ha]. destruct (Hboth s va Ha) as [vb Hb].
    rewrite (Hlu s va vb Ha Hb) in Hs. injection Hs as <-.
    destruct (Hac s va Ha) as (vc & Hc & Hle).
    destruct (Hbc s vb Hb) as (vc' & Hc' & Hle').
    exists vc. split; [done|]. assert (vc' = vc) by congruence. lia.
  - apply is_subset_true. split; [done|]. intros s v Hs.
    assert (Ha : is_Some (a !! s)).
    { apply elem_of_dom. rewrite <- Hdi. apply elem_of_dom. by eexists. }
    destruct Ha as [va Ha]. destruct (Hboth s va Ha) as [vb Hb].
    rewrite (Hli s va vb Ha Hb) in Hs. injection Hs as <-.
    exists va. split; [done|lia].
  - apply is_subset_true. split; [congruence|]. intros s v Hs.
    assert (Ha : is_Some (a !! s)).
    { apply elem_of_dom. rewrite <- Hdi. apply elem_of_dom. by eexists. }
    destruct Ha as [va Ha]. destruct (Hboth s va Ha) as [vb Hb].
    rewrite (Hli s va vb Ha Hb) in Hs. injection Hs as <-.
    exists vb. split; [done|lia].
  - intros c [Hdc Hca]%is_subset_true [_ Hcb]%is_subset_true.
    apply is_subset_true. split; [congruence|]. intros s vc Hc.
    destruct (Hca s vc Hc) as (va & Ha & Hle).
    destruct (Hcb s vc Hc) as (vb & Hb & Hle').
    rewrite (Hli s va vb Ha Hb). eexists. split; [done|lia].
  - rewrite union_same_dom by congruence. do 2 f_equal.
    apply map_eq. intros s. rewrite map_lookup_zip_with.
    destruct (a !! s) as [va|] eqn:Ha; [|done]. simpl.
    destruct (Hboth s va Ha) as [vb Hb]. rewrite (Hli s va vb Ha Hb).
    simpl. f_equal. lia.
  - rewrite intersection_same_dom by congruence. do 2 f_equal.
    apply map_eq. intros s. rewrite map_lookup_zip_with.
    destruct (a !! s) as [va|] eqn:Ha; [|done]. simpl.
    destruct (Hboth s va Ha) as [vb Hb]. rewrite (Hlu s va vb Ha Hb).
    simpl. f_equal. lia.
Qed.

Lemma union_intersection_lattice_witness :
  ∃ u i,
    get_union_of_multisets m_a m_b = Ok (Some u)
    ∧ get_intersection_of_multisets m_a m_b = Ok (Some i)
    ∧ is_subset m_a u = Ok true ∧ is_subset m_b u = Ok true
    ∧ (∀ c, is_subset m_a c = Ok true → is_subset m_b c = Ok true →
            is_subset u c = Ok true)
    ∧ is_subset i m_a = Ok true ∧ is_subset i m_b = Ok true
    ∧ (∀ c, is_subset c m_a = Ok true → is_subset c m_b = Ok true →
            is_subset c i = Ok true)
    ∧ get_union_of_multisets m_a i = Ok (Some m_a)
    ∧ get_intersection_of_multisets m_a u = Ok (Some m_a).
Proof.
  apply (union_intersection_lattice m_a m_b).
  apply (bool_decide_unpack _). vm_compute. exact I.
Defined.

(** ** Difference, bounds and validity *)

(** X4: On markings over one domain [difference] is the saturating pointwise
    difference; together with the intersection it rebuilds the first
    marking, and it is all-zero exactly when the first marking is a subset
    of the second. *)
Theorem difference_of_multisets_spec (a b : gmap string Z) :
  dom a = dom b →
  ∃ d i,
    get_difference_of_multisets a b = Ok (Some d)
    ∧ get_intersection_of_multisets a b = Ok (Some i)
    ∧ dom d = dom a
    ∧ (∀ s va vb, a !! s = Some va → b !! s = Some vb →
         d !! s = Some (Z.max 0 (va - vb)))
    ∧ (∀ s va, a !! s = Some va →
         ∃ vi vd, i !! s = Some vi ∧ d !! s = Some vd ∧ vi + vd = va)
    ∧ (is_subset a b = Ok true ↔ ∀ s v, d !! s = Some v → v = 0).
Proof.
  intros Hdom.
  exists (map_zip_with (λ x y, Z.max 0 (x - y)) a b), (map_zip_with Z.min a b).
  split.
  { unfold get_difference_of_multisets. rewrite decide_True; done. }
  split; [by apply intersection_same_dom|].
  split.
  { rewrite dom_map_zip_with_L, <- Hdom. apply intersection_idemp_L. }
  assert (Hboth : ∀ s va, a !! s = Some va → ∃ vb, b !! s = Some vb).
  { intros s va Ha. apply elem_of_dom. rewrite <- Hdom. apply elem_of_dom.
    by eexists. }
  split; [|split].
  - intros s va vb Ha Hb. by rewrite map_lookup_zip_with, Ha, Hb.
  - intros s va Ha. destruct (Hboth s va Ha) as [vb Hb].
    exists (Z.min va vb), (Z.max 0 (va - vb)).
    rewrite !map_lookup_zip_with, Ha, Hb. simpl. repeat split; lia.
  - rewrite is_subset_true. split.
    + intros [_ Hle] s v Hs. rewrite map_lookup_zip_with in Hs.
      destruct (a !! s) as [va|] eqn:Ha; [|done].
      destruct (Hle s va Ha) as (vb & Hb & Hvv). rewrite Hb in Hs.
      simpl in Hs. injection Hs as <-. lia.
    + intros Hz. split; [done|]. intros s va Ha.
      destruct (Hboth s va Ha) as [vb Hb]. exists vb. split; [done|].
      specialize (Hz s (Z.max 0 (va - vb))).
      rewrite map_lookup_zip_with, Ha, Hb in Hz. specialize (Hz eq_refl). lia.
Qed.

Lemma difference_of_multisets_spec_witness :
  ∃ d i,
    get_difference_of_multisets m_a m_b = Ok (Some d)
    ∧ get_intersection_of_multisets m_a m_b = Ok (Some i)
    ∧ dom d = dom m_a
    ∧ (∀ s va vb, m_a !! s = Some va → m_b !! s = Some vb →
         d !! s = Some (Z.max 0 (va - vb)))
    ∧ (∀ s va, m_a !! s = Some va →
         ∃ vi vd, i !! s = Some vi ∧ d !! s = Some vd ∧ vi + vd = va)
    ∧ (is_subset m_a m_b = Ok true ↔ ∀ s v, d !! s = Some v → v = 0).
Proof.
  apply (difference_of_multisets_spec m_a m_b).
  apply (bool_decide_unpack _). vm_compute. exact I.
Defined.

Lemma k_bounded_true (k : Z) (m : gmap string Z) :
  is_multiset_k_bounded k m = true ↔ ∀ s v, m !! s = Some v → v ≤ k.
Proof.
  unfold is_multiset_k_bounded. rewrite forallb_forall. split.
  - intros H s v Hs. apply Z.leb_le, H, list_elem_of_In, elem_of_dict_values.
    by exists s.
  - intros H v Hv. apply list_elem_of_In, elem_of_dict_values in Hv as [s Hs].
    apply Z.leb_le. by eapply H.
Qed.

Lemma is_trivial_true (m : gmap string Z) :
  is_trivial m = true ↔ ∀ s v, m !! s = Some v → 1 ≤ v.
Proof.
  unfold is_trivial. rewrite forallb_forall. split.
  - intros H s v Hs. apply Z.leb_le, H, list_elem_of_In, elem_of_dict_values.
    by exists s.
  - intros H v Hv. apply list_elem_of_In, elem_of_dict_values in Hv as [s Hs].
    apply Z.leb_le. by eapply H.
Qed.

Lemma k_bounded_power (k : Z) (m : gmap string Z) (p : Z) :
  get_power_of_multiset m = Ok p → is_multiset_k_bounded k m = (p <=? k).
Proof.
  intros Hp. apply power_spec in Hp as [[s Hs] Hub].
  destruct (p <=? k) eqn:Hle.
  - apply Z.leb_le in Hle. apply k_bounded_true. intros s' v Hv.
    specialize (Hub s' v Hv). lia.
  - apply Z.leb_gt in Hle. apply not_true_is_false. intros Hb.
    pose proof (proj1 (k_bounded_true k m) Hb s p Hs). lia.
Qed.

Lemma valid_candidate_decomposes (k : Z) (m : gmap string Z) :
  __is_valid_candidate k m
  = if decide (m = ∅) then Raise ValueError
    else Ok (is_multiset_k_bounded k m && negb (is_trivial m)).
Proof.
  destruct (decide (m = ∅)) as [->|Hne]; [reflexivity|].
  destruct (power_ok m Hne) as [p Hp]. unfold __is_valid_candidate.
  rewrite Hp. simpl. rewrite (k_bounded_power k m p Hp).
  by destruct (p <=? k).
Qed.

(** X5: [is_multiset_k_bounded] agrees with the power, and the validity test
    of the search is built from it: a marking with a non-empty domain is
    k-bounded exactly when its power is at most [k], and
    [__is_valid_candidate] returns "k-bounded and not trivial" on it; the
    empty marking is k-bounded for every [k], but its power and its
    validity test raise [ValueError]. *)
Theorem k_bounded_agrees_with_power (k : Z) (m : gmap string Z) :
  (m ≠ ∅ →
   ∃ p, get_power_of_multiset m = Ok p
        ∧ (is_multiset_k_bounded k m = true ↔ p ≤ k)
        ∧ __is_valid_candidate k m
          = Ok (is_multiset_k_bounded k m && negb (is_trivial m)))
  ∧ (m = ∅ →
     is_multiset_k_bounded k m = true
     ∧ get_power_of_multiset m = Raise ValueError
     ∧ __is_valid_candidate k m = Raise ValueError).
Proof.
  split.
  - intros Hne. destruct (power_ok m Hne) as [p Hp]. exists p.
    split; [done|]. split.
    + rewrite (k_bounded_power k m p Hp). apply Z.leb_le.
    + rewrite valid_candidate_decomposes. by rewrite decide_False.
  - intros ->. repeat split.
Qed.

(** X6: [get_k_topset] keeps the key set, replaces the multiplicities below
    [k] by 0 and keeps the others; applying it twice changes nothing more,
    and on a marking with non-negative multiplicities the result is a
    subset of the marking. *)
Theorem k_topset_spec (k : Z) (m : gmap string Z) :
  dom (get_k_topset k m) = dom m
  ∧ (∀ s v, m !! s = Some v →
       get_k_topset k m !! s = Some (if v <? k then 0 else v))
  ∧ get_k_topset k (get_k_topset k m) = get_k_topset k m
  ∧ ((∀ s v, m !! s = Some v → 0 ≤ v) →
     is_subset (get_k_topset k m) m = Ok true).
Proof.
  unfold get_k_topset. split; [apply dom_fmap_L|]. split; [|split].
  - intros s v Hs. by rewrite lookup_fmap, Hs.
  - apply map_eq. intros s. rewrite !lookup_fmap.
    destruct (m !! s) as [v|]; [|done]. simpl. f_equal.
    destruct (v <? k) eqn:Hv; [|by rewrite Hv].
    destruct (0 <? k); done.
  - intros Hnn. apply is_subset_true. split; [apply dom_fmap_L|].
    intros s w Hs. rewrite lookup_fmap in Hs.
    destruct (m !! s) as [v|] eqn:Hm; [|done]. simpl in Hs.
    injection Hs as <-. exists v. split; [done|]. specialize (Hnn s v Hm).
    destruct (v <? k); lia.
Qed.

(** X7: The support of a marking lists, without repetition, exactly the keys
    whose multiplicity is positive. *)
Theorem support_of_region_spec (m : gmap string Z) :
  NoDup (get_support_of_region m)
  ∧ ∀ s, s ∈ get_support_of_region m ↔ ∃ v, m !! s = Some v ∧ 0 < v.
Proof.
  unfold get_support_of_region. split.
  - eapply sublist_NoDup; [apply (NoDup_fst_dict_items m)|].
    apply fmap_sublist, sublist_filter.
  - intros s. rewrite list_elem_of_fmap. split.
    + intros ([s' v] & -> & Hin). apply list_elem_of_filter in Hin as [Hv Hin].
      apply elem_of_dict_items in Hin. by exists v.
    + intros (v & Hs & Hv). exists (s, v). split; [done|].
      apply list_elem_of_filter. split; [done|]. by apply elem_of_dict_items.
Qed.

(** X8: On a closed system the two expansions raise [ValueError] exactly on
    the multisets that [is_valid_multiset] rejects, and return a marking on
    the others. *)
Theorem expansion_raises_iff_invalid g e (m : gmap string Z) ts :
  ts_closed ts →
  (is_valid_multiset m ts = false →
   get_multiset_expansion_on_event_by_g g e m ts = Raise ValueError
   ∧ get_multiset_expansion_on_event_by_G g e m ts = Raise ValueError)
  ∧ (is_valid_multiset m ts = true →
     ∃ r1 r2, get_multiset_expansion_on_event_by_g g e m ts = Ok r1
              ∧ get_multiset_expansion_on_event_by_G g e m ts = Ok r2
              ∧ is_valid_multiset r1 ts = true
              ∧ is_valid_multiset r2 ts = true).
Proof.
  intros Hc. unfold is_valid_multiset. split.
  - intros Hv%bool_decide_eq_false_1.
    unfold get_multiset_expansion_on_event_by_g,
      get_multiset_expansion_on_event_by_G.
    rewrite !decide_False by done. done.
  - intros Hv%bool_decide_eq_true_1.
    destruct (expansion_by_g_ok g e m ts Hc Hv) as [r1 H1].
    destruct (expansion_by_G_ok g e m ts Hc Hv) as [r2 H2].
    exists r1, r2. split; [done|]. split; [done|].
    apply expansion_by_g_inv in H1 as (_ & Hd1 & _).
    apply expansion_by_G_inv in H2 as (_ & Hd2 & _).
    split; apply bool_decide_eq_true_2; congruence.
Qed.

Lemma expansion_raises_iff_invalid_witness :
  (is_valid_multiset m_s1_s3 sample_ts = false →
   get_multiset_expansion_on_event_by_g 0 "c" m_s1_s3 sample_ts
   = Raise ValueError
   ∧ get_multiset_expansion_on_event_by_G 0 "c" m_s1_s3 sample_ts
     = Raise ValueError)
  ∧ (is_valid_multiset m_0101 sample_ts = true →
     ∃ r1 r2, get_multiset_expansion_on_event_by_g 0 "c" m_0101 sample_ts
              = Ok r1
              ∧ get_multiset_expansion_on_event_by_G 0 "c" m_0101 sample_ts
                = Ok r2
              ∧ is_valid_multiset r1 sample_ts = true
              ∧ is_valid_multiset r2 sample_ts = true).
Proof.
  split.
  - apply (expansion_raises_iff_invalid 0 "c" m_s1_s3 sample_ts).
    apply (bool_decide_unpack _). vm_compute. exact I.
  - apply (expansion_raises_iff_invalid 0 "c" m_0101 sample_ts).
    apply (bool_decide_unpack _). vm_compute. exact I.
Defined.

(** ** Queries on the transition system *)

(** X9: For an event that the system does not know both seed functions
    return [None]; for a known event they return the indicator markings of
    the sources and of the targets of its arcs: 1 on such a state (also on
    one the system does not list), 0 on the other states of the system,
    and no other key. *)
Theorem excitation_and_switching_sets_are_indicators e ts :
  (e ∉ get_event_names ts →
   get_excitation_set_by_event e ts = Ok None
   ∧ get_switching_set_by_event e ts = Ok None)
  ∧ (e ∈ get_event_names ts →
     ∃ er sr,
       get_excitation_set_by_event e ts = Ok (Some er)
       ∧ get_switching_set_by_event e ts = Ok (Some sr)
       ∧ (∀ s, er !! s
               = if decide (Exists (λ t, st_event t = e ∧ st_from t = s)
                                   (get_all_state_transitions ts))
                 then Some 1
                 else if decide (s ∈ get_state_names ts) then Some 0
                      else None)
       ∧ (∀ s, sr !! s
               = if decide (Exists (λ t, st_event t = e ∧ st_to t = s)
                                   (get_all_state_transitions ts))
                 then Some 1
                 else if decide (s ∈ get_state_names ts) then Some 0
                      else None)).
Proof.
  split.
  - intros Hne. unfold get_excitation_set_by_event, get_switching_set_by_event.
    rewrite !decide_False by done. done.
  - intros He. unfold get_excitation_set_by_event, get_switching_set_by_event.
    rewrite !decide_True by done. simpl. eexists _, _.
    split; [done|]. split; [done|].
    split; intros s; rewrite mark_arcs_lookup, zero_dict_lookup, lookup_empty;
      done.
Qed.

Lemma gradients_raise (m : gmap string Z) (l : list state_transition) :
  ¬ Forall (λ t, is_Some (m !! st_from t) ∧ is_Some (m !! st_to t)) l →
  for_each (gradient_of_arc m) l = Raise TypeError.
Proof.
  induction l as [|t l IH]; intros Hn.
  - destruct Hn. constructor.
  - cbn [for_each].
    destruct (gradient_of_arc m t) as [v| |] eqn:Hv; cbn [mbind py_bind].
    + rewrite IH; [done|]. intros Hl. apply Hn. constructor; [|done].
      unfold gradient_of_arc in Hv.
      destruct (m !! st_to t), (m !! st_from t); try done; eauto.
    + unfold gradient_of_arc in Hv.
      destruct (m !! st_to t), (m !! st_from t); congruence.
    + unfold gradient_of_arc in Hv.
      destruct (m !! st_to t), (m !! st_from t); congruence.
Qed.

Lemma gradients_values (m : gmap string Z) (l : list state_transition) :
  Forall (λ t, is_Some (m !! st_from t) ∧ is_Some (m !! st_to t)) l →
  for_each (gradient_of_arc m) l
  = Ok ((λ t, default 0 (m !! st_to t) - default 0 (m !! st_from t)) <$> l).
Proof.
  intros H. apply for_each_pure. eapply Forall_impl; [exact H|].
  intros t [[b Hb] [a Ha]]. unfold gradient_of_arc. by rewrite Ha, Hb.
Qed.

(** X10: [get_gradient_of_event] returns, in the order of the arcs, the
    difference target minus source for each arc of the event when the
    marking is defined on both ends of each of them, and raises
    [TypeError] as soon as one end of such an arc is no key of the
    marking.  The arcs of the other events play no part. *)
Theorem gradient_of_event_outcome e (m : gmap string Z) ts :
  (Forall (λ t, is_Some (m !! st_from t) ∧ is_Some (m !! st_to t))
          (get_state_transition_by_event e ts) →
   get_gradient_of_event e m ts
   = Ok ((λ t, default 0 (m !! st_to t) - default 0 (m !! st_from t))
           <$> get_state_transition_by_event e ts))
  ∧ (¬ Forall (λ t, is_Some (m !! st_from t) ∧ is_Some (m !! st_to t))
              (get_state_transition_by_event e ts) →
     get_gradient_of_event e m ts = Raise TypeError).
Proof.
  unfold get_gradient_of_event, get_state_transition_by_event. split.
  - apply gradients_values.
  - apply gradients_raise.
Qed.

Lemma for_each_ext {A B} (f g : A → py B) (l : list A) :
  (∀ x, x ∈ l → f x = g x) → for_each f l = for_each g l.
Proof.
  induction l as [|x l IH]; intros H; [done|]. cbn [for_each].
  rewrite (H x) by left. rewrite IH; [done|].
  intros y Hy. apply H. by right.
Qed.

Lemma gradients_shift (c : Z) (m : gmap string Z) ts :
  get_gradients_for_multisets ((λ v, v + c) <$> m) ts
  = get_gradients_for_multisets m ts.
Proof.
  unfold get_gradients_for_multisets. apply for_each_ext. intros e _.
  unfold get_gradient_of_event. f_equal. apply for_each_ext. intros t _.
  unfold gradient_of_arc. rewrite !lookup_fmap.
  destruct (m !! st_to t) as [a|], (m !! st_from t) as [b|]; try done.
  simpl. f_equal. lia.
Qed.

(** X11: Adding one constant to every multiplicity changes neither the verdict
    of [is_region] nor the list of illegal events: both read the marking
    through its gradients only. *)
Theorem region_tests_are_shift_invariant (c : Z) (m : gmap string Z) ts :
  is_region ((λ v, v + c) <$> m) ts = is_region m ts
  ∧ get_illegal_events ((λ v, v + c) <$> m) ts = get_illegal_events m ts.
Proof.
  unfold is_region, get_illegal_events. by rewrite gradients_shift.
Qed.

Lemma illegal_entries_none (l : list (string * list Z)) :
  (for_each illegal_entry l ≫= λ lst : list (option illegal_event),
     Ok (omap id lst)) = Ok []
  ↔ Forall (λ kg, len_set kg.2 = 1%nat) l.
Proof.
  induction l as [|kg l IH].
  - split; [constructor|done].
  - cbn [for_each].
    assert (Hcase : (len_set kg.2 = 1%nat ∧ illegal_entry kg = Ok None)
                    ∨ (len_set kg.2 ≠ 1%nat ∧ illegal_entry kg ≠ Ok None)).
    { unfold illegal_entry. case_bool_decide; [by left|right].
      split; [done|].
      destruct (py_min kg.2); cbn [mbind py_bind]; try done.
      destruct (py_max kg.2); cbn [mbind py_bind]; try done.
      destruct (__get_gradient_for_binary_search _ _);
        cbn [mbind py_bind]; done. }
    destruct Hcase as [[Hlen ->]|[Hlen Hne]].
    + cbn [mbind py_bind].
      destruct (for_each illegal_entry l) as [ys| |] eqn:Hys;
        cbn [mbind py_bind] in *.
      * cbn [omap]. simpl. rewrite IH.
        split; [by constructor|by intros [_ ?]%Forall_cons].
      * split; [done|]. intros [_ H]%Forall_cons. by apply IH in H.
      * split; [done|]. intros [_ H]%Forall_cons. by apply IH in H.
    + split; [|by intros [? _]%Forall_cons].
      destruct (illegal_entry kg) as [[x|]| |]; cbn [mbind py_bind];
        try done.
      destruct (for_each illegal_entry l); cbn [mbind py_bind]; done.
Qed.

(** X12: [get_illegal_events] returns the empty list exactly when [is_region]
    returns [True]. *)
Theorem no_illegal_event_iff_region (m : gmap string Z) ts :
  get_illegal_events m ts = Ok [] ↔ is_region m ts = Ok true.
Proof.
  unfold get_illegal_events, is_region.
  destruct (get_gradients_for_multisets m ts) as [gs| |];
    cbn [mbind py_bind]; [|done|done].
  rewrite illegal_entries_none, merge_sort_Permutation.
  rewrite Forall_forall. split.
  - intros H. f_equal. apply forallb_forall. intros kg Hkg.
    apply bool_decide_eq_true_2, H. by apply list_elem_of_In.
  - intros [= H] kg Hkg. rewrite forallb_forall in H.
    eapply bool_decide_eq_true_1, H. by apply list_elem_of_In.
Qed.

(** ** Illegal events and the selection *)

Lemma gradient_of_event_elem e (m : gmap string Z) ts g v :
  get_gradient_of_event e m ts = Ok g →
  v ∈ g ↔ ∃ t a b, t ∈ get_all_state_transitions ts ∧ st_event t = e
                   ∧ m !! st_from t = Some a ∧ m !! st_to t = Some b
                   ∧ v = b - a.
Proof.
  unfold get_gradient_of_event. intros H. apply for_each_Forall2 in H.
  assert (Harc : ∀ t w, gradient_of_arc m t = Ok w ↔
            ∃ a b, m !! st_from t = Some a ∧ m !! st_to t = Some b
                   ∧ w = b - a).
  { intros t w. unfold gradient_of_arc.
    destruct (m !! st_to t) as [b|], (m !! st_from t) as [a|]; split;
      try done; try (intros (? & ? & ? & ? & ?); done).
    - intros [= <-]. by exists a, b.
    - intros (a' & b' & [= <-] & [= <-] & ->). done. }
  split.
  - intros Hv. apply list_elem_of_lookup in Hv as [i Hi].
    destruct (Forall2_lookup_r _ _ _ _ _ H Hi) as (t & Ht & Hg).
    assert (Hin : t ∈ filter (λ st, st_event st = e)
                    (get_all_state_transitions ts)).
    { apply list_elem_of_lookup. by exists i. }
    apply list_elem_of_filter in Hin as [He Hin].
    apply Harc in Hg as (a & b & Ha & Hb & ->). by exists t, a, b.
  - intros (t & a & b & Hin & He & Ha & Hb & ->).
    assert (Hf : t ∈ filter (λ st, st_event st = e)
                   (get_all_state_transitions ts)).
    { by apply list_elem_of_filter. }
    apply list_elem_of_lookup in Hf as [i Hi].
    destruct (Forall2_lookup_l _ _ _ _ _ H Hi) as (w & Hw & Hg).
    apply Harc in Hg as (a' & b' & Ha' & Hb' & ->).
    assert (a' = a) as -> by congruence.
    assert (b' = b) as -> by congruence.
    apply list_elem_of_lookup. by exists i.
Qed.

Lemma min_lt_max (g : list Z) (g_min g_max : Z) :
  len_set g ≠ 1%nat → py_min g = Ok g_min → py_max g = Ok g_max →
  g_min < g_max.
Proof.
  intros Hlen Hmin Hmax.
  apply py_min_spec in Hmin as [Hmin_in Hlb].
  apply py_max_spec in Hmax as [Hmax_in Hub].
  destruct (Z.eq_dec g_min g_max) as [Heq|Hne].
  - exfalso. apply Hlen. apply len_set_1. exists g_min. intros x. split.
    + intros Hx. specialize (Hlb x Hx). specialize (Hub x Hx). lia.
    + by intros ->.
  - specialize (Hlb g_max Hmax_in). lia.
Qed.

(** X13: On a closed system whose events all label an arc, and on a marking
    over its states with multiplicities below 2^51 in absolute value,
    [get_illegal_events] returns, and every tuple [(e, g_min, g_max, g_e)]
    of its list names an event of the system, the least and the greatest
    gradient over the arcs of [e] (each attained by an arc), with
    [g_min < g_max] and [g_min <= g_e < g_max]. *)
Theorem illegal_events_bracket_the_midpoint (m : gmap string Z) ts :
  ts_closed ts → ts_live ts → dom m = state_set ts →
  (∀ s v, m !! s = Some v → Z.abs v < 2 ^ 51) →
  ∃ l, get_illegal_events m ts = Ok l
       ∧ ∀ e g_min g_max g_e, (e, g_min, g_max, g_e) ∈ l →
           e ∈ get_event_names ts
           ∧ (∃ t a b, t ∈ get_all_state_transitions ts ∧ st_event t = e
                       ∧ m !! st_from t = Some a ∧ m !! st_to t = Some b
                       ∧ b - a = g_min)
           ∧ (∃ t a b, t ∈ get_all_state_transitions ts ∧ st_event t = e
                       ∧ m !! st_from t = Some a ∧ m !! st_to t = Some b
                       ∧ b - a = g_max)
           ∧ (∀ t a b, t ∈ get_all_state_transitions ts → st_event t = e →
                       m !! st_from t = Some a → m !! st_to t = Some b →
                       g_min ≤ b - a ≤ g_max)
           ∧ g_min < g_max ∧ g_min ≤ g_e < g_max.
Proof.
  intros Hc Hlive Hdom Hb.
  destruct (illegal_events_of_live_system m ts Hc Hdom) as (l & Hl & Hin);
    [intros e He; by apply ts_live_spec|done|].
  exists l. split; [done|]. intros e g_min g_max g_e Hx.
  apply Hin in Hx as (e' & g & g_min' & g_max' & He & Hg & Hlen & Hmin & Hmax
                      & [= -> -> -> ->]).
  pose proof (min_lt_max g _ _ Hlen Hmin Hmax) as Hlt.
  apply py_min_spec in Hmin as [Hmin_in Hlb].
  apply py_max_spec in Hmax as [Hmax_in Hub].
  split; [done|].
  apply (gradient_of_event_elem _ _ _ _ _ Hg) in Hmin_in
    as (t1 & a1 & b1 & ? & ? & ? & ? & ->).
  apply (gradient_of_event_elem _ _ _ _ _ Hg) in Hmax_in
    as (t2 & a2 & b2 & ? & ? & ? & ? & ->).
  split; [by exists t1, a1, b1|]. split; [by exists t2, a2, b2|].
  split.
  - intros t a b Ht Het Ha Hb'.
    assert (Hv : b - a ∈ g).
    { apply (gradient_of_event_elem _ _ _ _ _ Hg). by exists t, a, b. }
    split; [by apply Hlb|by apply Hub].
  - split; [done|]. split.
    + apply Z.div_le_lower_bound; lia.
    + apply Z.div_lt_upper_bound; lia.
Qed.

Lemma m_0101_small : ∀ s v, m_0101 !! s = Some v → Z.abs v < 2 ^ 51.
Proof.
  intros s v Hs. apply elem_of_dict_items in Hs.
  assert (H : Forall (λ kv : string * Z, Z.abs kv.2 < 2 ^ 51)
                     (dict_items m_0101)).
  { apply (bool_decide_unpack _). vm_compute. exact I. }
  by apply (proj1 (Forall_forall _ _) H (s, v)).
Qed.

Lemma illegal_events_bracket_the_midpoint_witness :
  ∃ l, get_illegal_events m_0101 sample_ts = Ok l
       ∧ ∀ e g_min g_max g_e, (e, g_min, g_max, g_e) ∈ l →
           e ∈ get_event_names sample_ts
           ∧ (∃ t a b, t ∈ get_all_state_transitions sample_ts
                       ∧ st_event t = e
                       ∧ m_0101 !! st_from t = Some a
                       ∧ m_0101 !! st_to t = Some b
                       ∧ b - a = g_min)
           ∧ (∃ t a b, t ∈ get_all_state_transitions sample_ts
                       ∧ st_event t = e
                       ∧ m_0101 !! st_from t = Some a
                       ∧ m_0101 !! st_to t = Some b
                       ∧ b - a = g_max)
           ∧ (∀ t a b, t ∈ get_all_state_transitions sample_ts →
                       st_event t = e →
                       m_0101 !! st_from t = Some a →
                       m_0101 !! st_to t = Some b →
                       g_min ≤ b - a ≤ g_max)
           ∧ g_min < g_max ∧ g_min ≤ g_e < g_max.
Proof.
  apply (illegal_events_bracket_the_midpoint m_0101 sample_ts).
  - apply (bool_decide_unpack _). vm_compute. exact I.
  - apply (bool_decide_unpack _). vm_compute. exact I.
  - apply (bool_decide_unpack _). vm_compute. exact I.
  - apply m_0101_small.
Defined.

(** X14: The selection raises [ValueError] on the empty list, and otherwise
    returns the first tuple of the list among those whose [|g_e|] is the
    greatest. *)
Theorem selection_takes_first_largest_midpoint (l : list illegal_event) :
  (l = [] → __get_event_gradient_for_expansion l = Raise ValueError)
  ∧ (l ≠ [] →
     ∃ x i, __get_event_gradient_for_expansion l = Ok x
            ∧ l !! i = Some x
            ∧ (∀ y, y ∈ l → Z.abs y.2 ≤ Z.abs x.2)
            ∧ (∀ j y, (j < i)%nat → l !! j = Some y →
                      Z.abs y.2 < Z.abs x.2)).
Proof.
  split; [by intros ->|]. intros Hne.
  destruct l as [|x0 rest] eqn:Hl; [done|].
  destruct (__get_event_gradient_for_expansion (x0 :: rest)) as [x| |] eqn:Hx;
    [|done|done].
  destruct (select_first_max _ _ Hx) as (i & Hi & Hub & Hfirst).
  by exists x, i.
Qed.

(** ** The expansions as least repairs *)

Lemma by_g_repairs g e (r r1 : gmap string Z) ts :
  ts_closed ts →
  get_multiset_expansion_on_event_by_g g e r ts = Ok r1 →
  is_subset r r1 = Ok true
  ∧ repairs_sources ts e g r r1
  ∧ ∀ r', is_subset r r' = Ok true → repairs_sources ts e g r r' →
          is_subset r1 r' = Ok true.
Proof.
  intros Hc H1. destruct (expansion_by_g_inv _ _ _ _ _ H1) as (Hdom & Hd1 & Hl).
  assert (Hspec : ∀ s v, r !! s = Some v →
            ∃ d, r1 !! s = Some (v + d) ∧ delta_g_spec ts r e s g d).
  { intros s v Hs. destruct (Hl s v Hs) as (d & Hd & Hr1).
    destruct (delta_g_meets_spec g r e s ts Hc Hdom) as (d' & Hd' & Hsp).
    exists d. split; [done|]. congruence. }
  split; [|split].
  - apply is_subset_true. split; [done|]. intros s v Hs.
    destruct (Hl s v Hs) as (d & Hd & Hr1). apply delta_g_nonneg in Hd.
    exists (v + d). split; [done|lia].
  - intros s to v' rt Harc Hs Hto.
    destruct (closed_lookup ts r (s, e, to) Hc Hdom Harc) as [[rs Hrs] _].
    unfold st_from in Hrs. simpl in Hrs.
    destruct (Hspec s rs Hrs) as (d & Hr1 & [[Hno _]|(M & [_ Hub] & ->)]).
    + by destruct (Hno to).
    + assert (v' = rs + Z.max 0 M) as -> by congruence.
      specialize (Hub (rt - rs - g)).
      assert (rt - rs - g ≤ M); [|lia].
      apply Hub. by exists to, rt, rs.
  - intros r' Hsub Hrep. apply is_subset_true in Hsub as [Hdom' Hle].
    apply is_subset_true. split; [congruence|]. intros s v1 Hs1.
    assert (is_Some (r !! s)) as [rs Hrs].
    { apply elem_of_dom. rewrite <- Hd1. apply elem_of_dom. by eexists. }
    destruct (Hle s rs Hrs) as (v' & Hv' & Hrv').
    exists v'. split; [done|].
    destruct (Hspec s rs Hrs) as (d & Hr1 & [[_ ->]|(M & [HM _] & ->)]).
    + assert (v1 = rs + 0) as -> by congruence. lia.
    + assert (v1 = rs + Z.max 0 M) as -> by congruence.
      destruct HM as (to & rt & rs' & Harc & Hrt & Hrs' & ->).
      assert (rs' = rs) as -> by congruence.
      specialize (Hrep s to v' rt Harc Hv' Hrt). lia.
Qed.

Lemma by_G_repairs g e (r r2 : gmap string Z) ts :
  ts_closed ts →
  get_multiset_expansion_on_event_by_G g e r ts = Ok r2 →
  is_subset r r2 = Ok true
  ∧ repairs_targets ts e g r r2
  ∧ ∀ r', is_subset r r' = Ok true → repairs_targets ts e g r r' →
          is_subset r2 r' = Ok true.
Proof.
  intros Hc H2. destruct (expansion_by_G_inv _ _ _ _ _ H2) as (Hdom & Hd2 & Hl).
  assert (Hspec : ∀ s v, r !! s = Some v →
            ∃ d, r2 !! s = Some (v + d) ∧ delta_G_spec ts r e s g d).
  { intros s v Hs. destruct (Hl s v Hs) as (d & Hd & Hr2).
    destruct (delta_G_meets_spec g r e s ts Hc Hdom) as (d' & Hd' & Hsp).
    exists d. split; [done|]. congruence. }
  split; [|split].
  - apply is_subset_true. split; [done|]. intros s v Hs.
    destruct (Hl s v Hs) as (d & Hd & Hr2). apply delta_G_nonneg in Hd.
    exists (v + d). split; [done|lia].
  - intros from s rf v' Harc Hfrom Hs.
    destruct (closed_lookup ts r (from, e, s) Hc Hdom Harc) as [_ [rs Hrs]].
    unfold st_to in Hrs. simpl in Hrs.
    destruct (Hspec s rs Hrs) as (d & Hr2 & [[Hno _]|(M & [_ Hub] & ->)]).
    + by destruct (Hno from).
    + assert (v' = rs + Z.max 0 M) as -> by congruence.
      specialize (Hub (rf - rs + g)).
      assert (rf - rs + g ≤ M); [|lia].
      apply Hub. by exists from, rf, rs.
  - intros r' Hsub Hrep. apply is_subset_true in Hsub as [Hdom' Hle].
    apply is_subset_true. split; [congruence|]. intros s v2 Hs2.
    assert (is_Some (r !! s)) as [rs Hrs].
    { apply elem_of_dom. rewrite <- Hd2. apply elem_of_dom. by eexists. }
    destruct (Hle s rs Hrs) as (v' & Hv' & Hrv').
    exists v'. split; [done|].
    destruct (Hspec s rs Hrs) as (d & Hr2 & [[_ ->]|(M & [HM _] & ->)]).
    + assert (v2 = rs + 0) as -> by congruence. lia.
    + assert (v2 = rs + Z.max 0 M) as -> by congruence.
      destruct HM as (from & rf & rs' & Harc & Hrf & Hrs' & ->).
      assert (rs' = rs) as -> by congruence.
      specialize (Hrep from s rf v' Harc Hrf Hv'). lia.
Qed.

(** X15: The expansion by [g] on the sources is the least repair: its result
    contains the marking, no arc of the event keeps a gradient above [g]
    once its source is read in the result, and every marking that contains
    the given one and repairs the event in this way contains the result. *)
Theorem expansion_by_g_is_least_repair g e (r : gmap string Z) ts :
  ts_closed ts → dom r = state_set ts →
  ∃ r1, get_multiset_expansion_on_event_by_g g e r ts = Ok r1
        ∧ is_subset r r1 = Ok true
        ∧ repairs_sources ts e g r r1
        ∧ ∀ r', is_subset r r' = Ok true → repairs_sources ts e g r r' →
                is_subset r1 r' = Ok true.
Proof.
  intros Hc Hdom. destruct (expansion_by_g_ok g e r ts Hc Hdom) as [r1 H1].
  exists r1. split; [done|]. by apply (by_g_repairs g e r r1 ts).
Qed.

Lemma expansion_by_g_is_least_repair_witness :
  ∃ r1, get_multiset_expansion_on_event_by_g 0 "c" m_0101 sample_ts = Ok r1
        ∧ is_subset m_0101 r1 = Ok true
        ∧ repairs_sources sample_ts "c" 0 m_0101 r1
        ∧ ∀ r', is_subset m_0101 r' = Ok true →
                repairs_sources sample_ts "c" 0 m_0101 r' →
                is_subset r1 r' = Ok true.
Proof.
  apply (expansion_by_g_is_least_repair 0 "c" m_0101 sample_ts).
  - apply (bool_decide_unpack _). vm_compute. exact I.
  - apply (bool_decide_unpack _). vm_compute. exact I.
Defined.

(** X16: The expansion by [G] on the targets is the least repair: its result
    contains the marking, no arc of the event keeps a gradient below [g]
    once its target is read in the result, and every marking that contains
    the given one and repairs the event in this way contains the result. *)
Theorem expansion_by_G_is_least_repair g e (r : gmap string Z) ts :
  ts_closed ts → dom r = state_set ts →
  ∃ r2, get_multiset_expansion_on_event_by_G g e r ts = Ok r2
        ∧ is_subset r r2 = Ok true
        ∧ repairs_targets ts e g r r2
        ∧ ∀ r', is_subset r r' = Ok true → repairs_targets ts e g r r' →
                is_subset r2 r' = Ok true.
Proof.
  intros Hc Hdom. destruct (expansion_by_G_ok g e r ts Hc Hdom) as [r2 H2].
  exists r2. split; [done|]. by apply (by_G_repairs g e r r2 ts).
Qed.

Lemma expansion_by_G_is_least_repair_witness :
  ∃ r2, get_multiset_expansion_on_event_by_G 1 "c" m_0101 sample_ts = Ok r2
        ∧ is_subset m_0101 r2 = Ok true
        ∧ repairs_targets sample_ts "c" 1 m_0101 r2
        ∧ ∀ r', is_subset m_0101 r' = Ok true →
                repairs_targets sample_ts "c" 1 m_0101 r' →
                is_subset r2 r' = Ok true.
Proof.
  apply (expansion_by_G_is_least_repair 1 "c" m_0101 sample_ts).
  - apply (bool_decide_unpack _). vm_compute. exact I.
  - apply (bool_decide_unpack _). vm_compute. exact I.
Defined.

Lemma by_g_fixed g e (r : gmap string Z) ts :
  ts_closed ts → dom r = state_set ts →
  get_multiset_expansion_on_event_by_g g e r ts = Ok r
  ↔ repairs_sources ts e g r r.
Proof.
  intros Hc Hdom. split.
  - intros H. by destruct (by_g_repairs g e r r ts Hc H) as (_ & ? & _).
  - intros Hrep. destruct (expansion_by_g_ok g e r ts Hc Hdom) as [r1 H1].
    destruct (by_g_repairs g e r r1 ts Hc H1) as (Hsub & _ & Hleast).
    rewrite H1. f_equal. apply is_subset_antisym; [|done].
    apply Hleast; [apply is_subset_refl|done].
Qed.

Lemma by_G_fixed g e (r : gmap string Z) ts :
  ts_closed ts → dom r = state_set ts →
  get_multiset_expansion_on_event_by_G g e r ts = Ok r
  ↔ repairs_targets ts e g r r.
Proof.
  intros Hc Hdom. split.
  - intros H. by destruct (by_G_repairs g e r r ts Hc H) as (_ & ? & _).
  - intros Hrep. destruct (expansion_by_G_ok g e r ts Hc Hdom) as [r2 H2].
    destruct (by_G_repairs g e r r2 ts Hc H2) as (Hsub & _ & Hleast).
    rewrite H2. f_equal. apply is_subset_antisym; [|done].
    apply Hleast; [apply is_subset_refl|done].
Qed.

(** X17: An expansion leaves the marking as it is exactly when the event needs
    no repair: by [g] when no arc of the event has a gradient above [g],
    by [G] when none has a gradient below [g]. *)
Theorem expansion_fixed_points g e (r : gmap string Z) ts :
  ts_closed ts → dom r = state_set ts →
  (get_multiset_expansion_on_event_by_g g e r ts = Ok r
   ↔ ∀ s to a b, (s, e, to) ∈ get_all_state_transitions ts →
                 r !! s = Some a → r !! to = Some b → b - a ≤ g)
  ∧ (get_multiset_expansion_on_event_by_G g e r ts = Ok r
     ↔ ∀ s to a b, (s, e, to) ∈ get_all_state_transitions ts →
                   r !! s = Some a → r !! to = Some b → g ≤ b - a).
Proof.
  intros Hc Hdom. split.
  - rewrite (by_g_fixed g e r ts Hc Hdom). unfold repairs_sources.
    split; intros H s to a b; apply H.
  - rewrite (by_G_fixed g e r ts Hc Hdom). unfold repairs_targets.
    split; intros H.
    + intros s to a b Harc Ha Hb. by apply (H s to a b).
    + intros from s rf v' Harc Hf Hs. by apply (H from s rf v').
Qed.

Lemma expansion_fixed_points_witness :
  (get_multiset_expansion_on_event_by_g 0 "c" m_0101 sample_ts = Ok m_0101
   ↔ ∀ s to a b, (s, "c"%string, to) ∈ get_all_state_transitions sample_ts →
                 m_0101 !! s = Some a → m_0101 !! to = Some b → b - a ≤ 0)
  ∧ (get_multiset_expansion_on_event_by_G 0 "c" m_0101 sample_ts = Ok m_0101
     ↔ ∀ s to a b, (s, "c"%string, to) ∈ get_all_state_transitions sample_ts →
                   m_0101 !! s = Some a → m_0101 !! to = Some b → 0 ≤ b - a).
Proof.
  apply (expansion_fixed_points 0 "c" m_0101 sample_ts).
  - apply (bool_decide_unpack _). vm_compute. exact I.
  - apply (bool_decide_unpack _). vm_compute. exact I.
Defined.

(** X18: In a round of the expansion loop on a marking of the space that is
    not a region (closed system, every event on an arc, [k] below 2^51)
    the list of illegal events is not empty, and both expansions on the
    selected event, by [g_e] and by [g_e + 1], return a marking that
    contains the given one and differs from it. *)
Theorem round_expansions_make_progress k ts (m : gmap string Z) :
  ts_closed ts → ts_live ts → k < 2 ^ 51 →
  in_space k ts m → is_region m ts = Ok false →
  ∃ lst e g_min g_max g_e r_1 r_2,
    get_illegal_events m ts = Ok lst
    ∧ __get_event_gradient_for_expansion lst = Ok (e, g_min, g_max, g_e)
    ∧ get_multiset_expansion_on_event_by_g g_e e m ts = Ok r_1
    ∧ get_multiset_expansion_on_event_by_G (g_e + 1) e m ts = Ok r_2
    ∧ is_subset m r_1 = Ok true ∧ r_1 ≠ m
    ∧ is_subset m r_2 = Ok true ∧ r_2 ≠ m.
Proof.
  intros Hc Hlive Hk Hsp Hreg. pose proof Hsp as [Hdom Hrange].
  destruct (chosen_event_ok k ts m Hc Hlive Hk Hsp Hreg)
    as (lst & [[[e g_min] g_max] g_e] & Hlst & Hsel).
  assert (Hsmall : ∀ s v, m !! s = Some v → Z.abs v < 2 ^ 51).
  { intros s v Hv. specialize (Hrange s v Hv).
    assert (Z.max k 1 < 2 ^ 51) by (apply Z.max_lub_lt; [done|reflexivity]).
    lia. }
  destruct (illegal_events_of_live_system m ts Hc Hdom) as (l & Hl & Hin);
    [intros e' He'; by apply ts_live_spec|done|].
  assert (l = lst) as -> by congruence.
  destruct (select_first_max _ _ Hsel) as (i & Hi & _).
  assert (Hx : (e, g_min, g_max, g_e) ∈ lst).
  { apply list_elem_of_lookup. by exists i. }
  apply Hin in Hx as (e' & g & g_min' & g_max' & He & Hg & Hlen & Hmin & Hmax
                      & [= -> -> -> ->]).
  pose proof (min_lt_max g _ _ Hlen Hmin Hmax) as Hlt.
  apply py_min_spec in Hmin as [Hmin_in _].
  apply py_max_spec in Hmax as [Hmax_in _].
  apply (gradient_of_event_elem _ _ _ _ _ Hg) in Hmin_in
    as ([[s1 e1] t1] & a1 & b1 & Harc1 & He1 & Ha1 & Hb1 & Hgmin).
  apply (gradient_of_event_elem _ _ _ _ _ Hg) in Hmax_in
    as ([[s2 e2] t2] & a2 & b2 & Harc2 & He2 & Ha2 & Hb2 & Hgmax).
  unfold st_event, st_from, st_to in *. simpl in *. subst e1 e2.
  destruct (expansion_by_g_ok ((g_min' + g_max') / 2) e' m ts Hc Hdom)
    as [r_1 H1].
  destruct (expansion_by_G_ok ((g_min' + g_max') / 2 + 1) e' m ts Hc Hdom)
    as [r_2 H2].
  exists lst, e', g_min', g_max', ((g_min' + g_max') / 2), r_1, r_2.
  split; [done|]. split; [done|]. split; [done|]. split; [done|].
  destruct (by_g_repairs _ _ _ _ _ Hc H1) as (Hsub1 & _ & _).
  destruct (by_G_repairs _ _ _ _ _ Hc H2) as (Hsub2 & _ & _).
  assert (Hmid : g_min' ≤ (g_min' + g_max') / 2 < g_max').
  { split; [apply Z.div_le_lower_bound; lia
           |apply Z.div_lt_upper_bound; lia]. }
  split; [done|]. split.
  { intros ->. apply (by_g_fixed _ _ _ _ Hc Hdom) in H1.
    specialize (H1 s2 t2 a2 b2 Harc2 Ha2 Hb2). lia. }
  split; [done|].
  intros ->. apply (by_G_fixed _ _ _ _ Hc Hdom) in H2.
  specialize (H2 s1 t1 a1 b1 Harc1 Ha1 Hb1). lia.
Qed.

Lemma m_0101_in_space : in_space 1 sample_ts m_0101.
Proof.
  split; [apply (bool_decide_unpack _); vm_compute; exact I|].
  intros s v Hs. apply elem_of_dict_items in Hs.
  assert (H : Forall (λ kv : string * Z, 0 ≤ kv.2 ≤ Z.max 1 1)
                     (dict_items m_0101)).
  { apply (bool_decide_unpack _). vm_compute. exact I. }
  by apply (proj1 (Forall_forall _ _) H (s, v)).
Qed.

Lemma round_expansions_make_progress_witness :
  ∃ lst e g_min g_max g_e r_1 r_2,
    get_illegal_events m_0101 sample_ts = Ok lst
    ∧ __get_event_gradient_for_expansion lst = Ok (e, g_min, g_max, g_e)
    ∧ get_multiset_expansion_on_event_by_g g_e e m_0101 sample_ts = Ok r_1
    ∧ get_multiset_expansion_on_event_by_G (g_e + 1) e m_0101 sample_ts
      = Ok r_2
    ∧ is_subset m_0101 r_1 = Ok true ∧ r_1 ≠ m_0101
    ∧ is_subset m_0101 r_2 = Ok true ∧ r_2 ≠ m_0101.
Proof.
  apply (round_expansions_make_progress 1 sample_ts m_0101).
  - apply (bool_decide_unpack _). vm_compute. exact I.
  - apply (bool_decide_unpack _). vm_compute. exact I.
  - reflexivity.
  - apply m_0101_in_space.
  - vm_compute. reflexivity.
Defined.

(** ** Duplicates and supersets *)

Lemma remove_duplicates_loop_none seen (l : list (option (gmap string Z))) :
  None ∈ l → remove_duplicates_loop seen l = Raise AttributeError.
Proof.
  revert seen. induction l as [|[d|] l IH]; intros seen Hin.
  - by apply not_elem_of_nil in Hin.
  - apply elem_of_cons in Hin as [?|Hin]; [done|].
    cbn [remove_duplicates_loop]. case_decide; [by apply IH|].
    by rewrite IH.
  - done.
Qed.

Lemma remove_duplicates_loop_some seen (ms : list (gmap string Z)) :
  ∃ l', remove_duplicates_loop seen (Some <$> ms) = Ok l'
        ∧ NoDup l' ∧ sublist l' ms
        ∧ (∀ m, m ∈ l' ↔ m ∈ ms ∧ m ∉ seen)
        ∧ (NoDup ms → (∀ m, m ∈ ms → m ∉ seen) → l' = ms).
Proof.
  revert seen. induction ms as [|d ms IH]; intros seen.
  - exists []. split; [done|]. split; [constructor|]. split; [done|].
    split; [|done]. intros m. split; [by intros ?%not_elem_of_nil|].
    by intros [?%not_elem_of_nil _].
  - rewrite fmap_cons. cbn [remove_duplicates_loop].
    destruct (decide (d ∈ seen)) as [Hin|Hnin].
    + destruct (IH seen) as (l' & -> & Hnd & Hsub & Hel & Hid).
      exists l'. split; [done|]. split; [done|].
      split; [by constructor|]. split.
      * intros m. rewrite Hel, elem_of_cons. split; [tauto|].
        intros [[->|?] ?]; done.
      * intros _ Hd. destruct (Hd d); [left|done].
    + destruct (IH (d :: seen)) as (l' & -> & Hnd & Hsub & Hel & Hid).
      exists (d :: l'). split; [done|]. split.
      { constructor; [|done]. intros Hd. apply Hel in Hd as [_ Hd].
        apply Hd. left. }
      split; [by constructor|]. split.
      * intros m. rewrite !elem_of_cons, Hel, elem_of_cons. split.
        -- intros [->|[? ?]]; [by split; [left|]|]. split; [by right|tauto].
        -- intros [[->|?] ?]; [by left|].
           destruct (decide (m = d)) as [->|?]; [by left|right]. tauto.
      * intros [Hd Hnd']%NoDup_cons Hs. f_equal. apply Hid; [done|].
        intros m Hm [->|?]%elem_of_cons; [done|].
        apply (Hs m); [by right|done].
Qed.

(** X19: [__remove_duplicates] raises [AttributeError] when the list holds a
    [None]; on a list of dictionaries it returns the sublist of the first
    occurrences: without repetition, with the same elements, and the list
    itself when that has no repetition. *)
Theorem remove_duplicates_outcome :
  (∀ l, None ∈ l → __remove_duplicates l = Raise AttributeError)
  ∧ ∀ ms, ∃ l', __remove_duplicates (Some <$> ms) = Ok l'
                ∧ NoDup l' ∧ sublist l' ms
                ∧ (∀ m, m ∈ l' ↔ m ∈ ms)
                ∧ (NoDup ms → l' = ms).
Proof.
  split.
  - intros l. apply remove_duplicates_loop_none.
  - intros ms.
    destruct (remove_duplicates_loop_some [] ms)
      as (l' & Hl' & Hnd & Hsub & Hel & Hid).
    exists l'. split; [done|]. split; [done|]. split; [done|]. split.
    + intros m. rewrite Hel. split; [by intros [? _]|].
      intros ?. split; [done|]. apply not_elem_of_nil.
    + intros Hms. apply Hid; [done|]. intros m _. apply not_elem_of_nil.
Qed.

Lemma has_subset_true (m : gmap string Z) (l : list (gmap string Z)) :
  __has_subset_of_list m l = Ok true
  ↔ ∃ m', m' ∈ l ∧ is_subset m' m = Ok true.
Proof.
  induction l as [|x l IH]; cbn [__has_subset_of_list].
  - split; [done|]. by intros (? & ?%not_elem_of_nil & _).
  - destruct (is_subset_ok x m) as [[] Hx]; rewrite Hx; cbn [mbind py_bind].
    + split; [|done]. intros _. exists x. split; [left|done].
    + rewrite IH. split.
      * intros (m' & ? & ?). exists m'. split; [by right|done].
      * intros (m' & [->|?]%elem_of_cons & Hm'); [congruence|by exists m'].
Qed.

Lemma has_no_other_subset_iff (l : list (gmap string Z)) (m : gmap string Z) :
  has_no_other_subset l m = Ok true
  ↔ ∀ m', m' ∈ l → is_subset m' m = Ok true → m' = m.
Proof.
  unfold has_no_other_subset.
  destruct (has_subset_of_list_ok m (filter (λ e, e ≠ m) l)) as [b Hb].
  rewrite Hb. cbn [mbind py_bind]. destruct b; simpl.
  - split; [done|]. intros Hmin. exfalso.
    apply has_subset_true in Hb as (m' & [Hne Hin]%list_elem_of_filter & Hs).
    by apply Hne, Hmin.
  - split; [|done]. intros _ m' Hin Hs.
    destruct (decide (m' = m)) as [|Hne]; [done|]. exfalso.
    assert (Hex : __has_subset_of_list m (filter (λ e, e ≠ m) l) = Ok true).
    { apply has_subset_true. exists m'. split; [|done].
      by apply list_elem_of_filter. }
    congruence.
Qed.

Lemma filter_py_elem {A} (f : A → py bool) (l l' : list A) :
  filter_py f l = Ok l' → ∀ x, x ∈ l' ↔ x ∈ l ∧ f x = Ok true.
Proof.
  revert l'. induction l as [|y l IH]; intros l'; cbn [filter_py].
  - intros [= <-] x. split; [by intros ?%not_elem_of_nil|].
    by intros [?%not_elem_of_nil _].
  - intros H. bind_inv H. rename a into b. bind_inv H. injection H as <-.
    intros x. specialize (IH a Ha0 x). destruct b.
    + rewrite !elem_of_cons, IH. split; [|tauto].
      intros [->|[? ?]]; [by split; [left|]|]. split; [by right|done].
    + rewrite IH, elem_of_cons. split; [tauto|].
      intros [[->|?] Hx]; [congruence|done].
Qed.

(** Below every marking of a list there is a marking of the list that is
    minimal for [is_subset] among the candidates. *)
Lemma minimal_below (l cands : list (gmap string Z)) :
  ∀ m, m ∈ l →
    ∃ m0, m0 ∈ l ∧ is_subset m0 m = Ok true
          ∧ ∀ m', m' ∈ cands → m' ∈ l → is_subset m' m0 = Ok true → m' = m0.
Proof.
  induction cands as [|c cands IH]; intros m Hm.
  - exists m. split; [done|]. split; [apply is_subset_refl|].
    by intros m' ?%not_elem_of_nil.
  - destruct (IH m Hm) as (m0 & Hm0 & Hsub0 & Hmin0).
    assert (Hcase : (c ∈ l ∧ is_subset c m0 = Ok true ∧ c ≠ m0)
                    ∨ (c ∈ l → is_subset c m0 = Ok true → c = m0)).
    { destruct (decide (c ∈ l)) as [Hc|Hc]; [|by right].
      destruct (decide (c = m0)) as [Heq|Hne]; [by right|].
      destruct (is_subset_ok c m0) as [[] Hcs]; [by left|right].
      intros _ Hs. congruence. }
    destruct Hcase as [(Hc & Hcs & Hne)|Hno].
    + destruct (IH c Hc) as (m1 & Hm1 & Hsub1 & Hmin1).
      exists m1. split; [done|]. split.
      { eapply is_subset_trans; [exact Hsub1|].
        eapply is_subset_trans; [exact Hcs|exact Hsub0]. }
      intros m' [->|Hin]%elem_of_cons Hl Hs.
      * by apply is_subset_antisym.
      * by apply Hmin1.
    + exists m0. split; [done|]. split; [done|].
      intros m' [->|Hin]%elem_of_cons Hl Hs.
      * by apply Hno.
      * by apply Hmin0.
Qed.

Lemma remove_supersets_min (l : list (gmap string Z)) :
  ∃ l', __remove_supersets l = Ok l'
        ∧ (∀ m, m ∈ l' ↔
             m ∈ l ∧ ∀ m', m' ∈ l → is_subset m' m = Ok true → m' = m)
        ∧ (∀ m, m ∈ l → ∃ m0, m0 ∈ l' ∧ is_subset m0 m = Ok true).
Proof.
  unfold __remove_supersets.
  destruct (filter_py_ok (has_no_other_subset l) l) as [l' Hl'];
    [apply has_no_other_subset_ok|].
  exists l'. split; [done|].
  pose proof (filter_py_elem _ _ _ Hl') as Hel.
  assert (Hiff : ∀ m, m ∈ l' ↔
            m ∈ l ∧ ∀ m', m' ∈ l → is_subset m' m = Ok true → m' = m).
  { intros m. by rewrite Hel, has_no_other_subset_iff. }
  split; [done|]. intros m Hm.
  destruct (minimal_below l l m Hm) as (m0 & Hm0 & Hs & Hmin).
  exists m0. split; [|done]. apply Hiff. split; [done|].
  intros m' Hin Hs'. by apply Hmin.
Qed.

(** X20: [__remove_supersets] never raises and returns, as a sublist of its
    argument, exactly the markings that contain no other marking of the
    list; every marking of the list contains one of those. *)
Theorem remove_supersets_keeps_the_minimal (l : list (gmap string Z)) :
  ∃ l', __remove_supersets l = Ok l'
        ∧ sublist l' l
        ∧ (∀ m, m ∈ l' ↔
             m ∈ l ∧ ∀ m', m' ∈ l → is_subset m' m = Ok true → m' = m)
        ∧ (∀ m, m ∈ l → ∃ m0, m0 ∈ l' ∧ is_subset m0 m = Ok true).
Proof.
  destruct (remove_supersets_min l) as (l' & Hl' & Hiff & Hcov).
  exists l'. split; [done|]. split; [|done].
  unfold __remove_supersets in Hl'. by apply filter_py_spec in Hl' as [? _].
Qed.

(** X21: [__is_minimal_region] raises [ValueError] on the empty marking; on
    another marking it returns [True] exactly when the marking is
    k-bounded, not trivial, and contains no marking of the list.  The
    membership test of the code adds nothing: a marking of the list
    contains itself. *)
Theorem is_minimal_region_outcome (k : Z) (m : gmap string Z)
    (regions : list (gmap string Z)) :
  (m = ∅ → __is_minimal_region k m regions = Raise ValueError)
  ∧ (m ≠ ∅ →
     ∃ b, __is_minimal_region k m regions = Ok b
          ∧ (b = true ↔
               is_multiset_k_bounded k m = true ∧ is_trivial m = false
               ∧ ∀ m', m' ∈ regions → is_subset m' m = Ok false)).
Proof.
  unfold __is_minimal_region. rewrite valid_candidate_decomposes.
  destruct (decide (m = ∅)) as [Hm|Hm]; split; try done.
  - intros _. cbn [mbind py_bind].
    assert (Hnone : (∀ m', m' ∈ regions → is_subset m' m = Ok false)
                    ↔ __has_subset_of_list m regions = Ok false).
    { destruct (has_subset_of_list_ok m regions) as [[] Hb].
      - split; [|congruence]. intros Hall. exfalso.
        apply has_subset_true in Hb as (m' & Hin & Hs).
        specialize (Hall m' Hin). congruence.
      - split; [done|]. intros _. by apply has_subset_false. }
    destruct (is_multiset_k_bounded k m) eqn:Hk; simpl;
      [|exists false; split; [done|]; split; [done|by intros [? _]]].
    destruct (is_trivial m) eqn:Ht; simpl;
      [exists false; split; [done|]; split; [done|by intros (_ & ? & _)]|].
    destruct (decide (m ∈ regions)) as [Hin|Hnin].
    + exists false. split; [done|]. split; [done|]. intros (_ & _ & Hall).
      specialize (Hall m Hin). rewrite is_subset_refl in Hall. done.
    + destruct (has_subset_of_list_ok m regions) as [b Hb]. rewrite Hb.
      cbn [mbind py_bind]. exists (negb b). split; [done|].
      rewrite Hnone, Hb. destruct b; simpl; split; try done.
      by intros (_ & _ & ?).
Qed.

(** X22: [__remove_duplicates_from_list] drops every dictionary that agrees
    with the target on each key of the target, not only the copies of the
    target: among the dictionaries with the keys of the target it drops
    the target alone, and for the empty target it drops everything. *)
Theorem remove_duplicates_from_list_drops_extensions
    (lst : list (gmap string Z)) (target : gmap string Z) :
  sublist (__remove_duplicates_from_list lst target) lst
  ∧ (∀ d, d ∈ __remove_duplicates_from_list lst target
          ↔ d ∈ lst ∧ ¬ target ⊆ d)
  ∧ (∀ d, d ∈ lst → dom d = dom target →
          (d ∈ __remove_duplicates_from_list lst target ↔ d ≠ target))
  ∧ (target = ∅ → __remove_duplicates_from_list lst target = []).
Proof.
  assert (Hall : ∀ d : gmap string Z,
            forallb (λ kv, bool_decide (d !! kv.1 = Some kv.2))
                    (dict_items target) = true ↔ target ⊆ d).
  { intros d. rewrite forallb_forall, map_subseteq_spec. split.
    - intros H s v Hs. apply (bool_decide_eq_true_1 _ (H (s, v)
        (proj1 (list_elem_of_In _ _) (proj2 (elem_of_dict_items _ _ _) Hs)))).
    - intros H [s v] Hin. apply bool_decide_eq_true_2. simpl. apply H.
      by apply elem_of_dict_items, list_elem_of_In. }
  assert (Hel : ∀ d, d ∈ __remove_duplicates_from_list lst target
                     ↔ d ∈ lst ∧ ¬ target ⊆ d).
  { intros d. unfold __remove_duplicates_from_list.
    rewrite list_elem_of_filter, <- Hall, not_true_iff_false. tauto. }
  split; [apply sublist_filter|]. split; [done|]. split.
  - intros d Hd Hdom. rewrite Hel. split.
    + intros [_ Hn] ->. by apply Hn.
    + intros Hne. split; [done|]. intros Hsub. apply Hne.
      apply map_eq. intros s. destruct (target !! s) as [v|] eqn:Hs.
      * by apply (lookup_weaken _ _ _ _ Hs).
      * apply not_elem_of_dom. rewrite Hdom. by apply not_elem_of_dom.
  - intros ->. apply elem_of_nil_inv. intros d Hd.
    apply Hel in Hd as [_ Hn]. apply Hn, map_empty_subseteq.
Qed.

(** ** Pre-regions and post-regions *)

Lemma indicator_subset (key : state_transition → string) e ts
    (m ind : gmap string Z) :
  ts_closed ts → dom m = state_set ts → e ∈ get_event_names ts →
  key = st_from ∨ key = st_to →
  ind = foldl (λ acc st, if decide (st_event st = e)
                         then <[key st := 1]> acc else acc)
              (foldl (λ acc k, <[k := 0]> acc) ∅ (get_state_names ts))
              (get_all_state_transitions ts) →
  is_subset ind m = Ok true
  ↔ (∀ s v, m !! s = Some v → 0 ≤ v)
    ∧ ∀ t v, t ∈ get_all_state_transitions ts → st_event t = e →
             m !! key t = Some v → 1 ≤ v.
Proof.
  intros Hc Hdom He Hkey Hind.
  assert (Hseed : seed ts ind).
  { exists e. split; [done|]. destruct Hkey as [-> | ->]; [left|right].
    - unfold get_excitation_set_by_event. rewrite decide_True by done.
      by rewrite Hind.
    - unfold get_switching_set_by_event. rewrite decide_True by done.
      by rewrite Hind. }
  pose proof (seed_dom ts ind Hc Hseed) as Hdi.
  assert (Hmark : ∀ t, t ∈ get_all_state_transitions ts → st_event t = e →
            ind !! key t = Some 1).
  { intros t Ht Het. rewrite Hind, mark_arcs_lookup.
    rewrite decide_True; [done|]. apply Exists_exists. by exists t. }
  rewrite is_subset_true. split.
  - intros [_ Hle]. split.
    + intros s v Hs.
      assert (is_Some (ind !! s)) as [va Hva].
      { apply elem_of_dom. rewrite Hdi, <- Hdom. apply elem_of_dom.
        by eexists. }
      destruct (Hle s va Hva) as (vb & Hvb & Hlev).
      assert (vb = v) as -> by congruence.
      destruct (seed_values ts ind s va Hseed Hva); lia.
    + intros t v Ht Het Hv.
      destruct (Hle _ _ (Hmark t Ht Het)) as (vb & Hvb & Hlev).
      assert (vb = v) as -> by congruence. done.
  - intros [Hnn Hsrc]. split; [congruence|]. intros s va Hva.
    assert (is_Some (m !! s)) as [vb Hvb].
    { apply elem_of_dom. rewrite Hdom, <- Hdi. apply elem_of_dom.
      by eexists. }
    exists vb. split; [done|]. pose proof Hva as Hva'.
    rewrite Hind, mark_arcs_lookup in Hva'.
    destruct (decide (Exists (λ st, st_event st = e ∧ key st = s)
                             (get_all_state_transitions ts))) as [Hex|Hnex].
    + injection Hva' as <-.
      apply Exists_exists in Hex as (t & Ht & Het & Hk).
      apply (Hsrc t vb Ht Het). by rewrite Hk.
    + specialize (Hnn s vb Hvb).
      destruct (seed_values ts ind s va Hseed Hva) as [-> | ->]; [done|].
      exfalso. rewrite zero_dict_lookup, lookup_empty in Hva'.
      by case_decide.
Qed.

Lemma preregion_cases e (m : gmap string Z) ts :
  ts_closed ts → dom m = state_set ts →
  ∃ reg, is_region m ts = Ok reg
    ∧ (e ∈ get_event_names ts →
       ∃ b, is_preregion_of_event e m ts = Ok b
            ∧ (b = true ↔
                 reg = true
                 ∧ (∀ s v, m !! s = Some v → 0 ≤ v)
                 ∧ ∀ t v, t ∈ get_all_state_transitions ts → st_event t = e →
                          m !! st_from t = Some v → 1 ≤ v))
    ∧ (e ∉ get_event_names ts →
       is_preregion_of_event e m ts
       = if reg then Raise AttributeError else Ok false).
Proof.
  intros Hc Hdom. destruct (is_region_ok m ts Hc Hdom) as [reg Hreg].
  exists reg. split; [done|]. unfold is_preregion_of_event. split.
  - intros He. unfold get_excitation_set_by_event.
    rewrite decide_True by done. cbn [try_except_ValueError mbind py_bind].
    rewrite Hreg. cbn [mbind py_bind]. destruct reg.
    + cbn [is_subset_of_result].
      destruct (is_subset_ok
                  (foldl (λ acc st, if decide (st_event st = e)
                                    then <[st_from st := 1]> acc else acc)
                     (foldl (λ acc k, <[k := 0]> acc) ∅ (get_state_names ts))
                     (get_all_state_transitions ts)) m) as [b Hb].
      exists b. split; [done|].
      rewrite <- (indicator_subset st_from e ts m _ Hc Hdom He
                    (or_introl eq_refl) eq_refl), Hb.
      split; [intros ->; done|]. by intros [_ [= ->]].
    + exists false. split; [done|]. split; [done|]. by intros [? _].
  - intros He. unfold get_excitation_set_by_event.
    rewrite decide_False by done. cbn [try_except_ValueError mbind py_bind].
    rewrite Hreg. by destruct reg.
Qed.

Lemma postregion_cases e (m : gmap string Z) ts :
  ts_closed ts → dom m = state_set ts →
  ∃ reg, is_region m ts = Ok reg
    ∧ (e ∈ get_event_names ts →
       ∃ b, is_postregion_of_event e m ts = Ok b
            ∧ (b = true ↔
                 reg = true
                 ∧ (∀ s v, m !! s = Some v → 0 ≤ v)
                 ∧ ∀ t v, t ∈ get_all_state_transitions ts → st_event t = e →
                          m !! st_to t = Some v → 1 ≤ v))
    ∧ (e ∉ get_event_names ts →
       is_postregion_of_event e m ts
       = if reg then Raise AttributeError else Ok false).
Proof.
  intros Hc Hdom. destruct (is_region_ok m ts Hc Hdom) as [reg Hreg].
  exists reg. split; [done|]. unfold is_postregion_of_event. split.
  - intros He. unfold get_switching_set_by_event.
    rewrite decide_True by done. cbn [try_except_ValueError mbind py_bind].
    rewrite Hreg. cbn [mbind py_bind]. destruct reg.
    + cbn [is_subset_of_result].
      destruct (is_subset_ok
                  (foldl (λ acc st, if decide (st_event st = e)
                                    then <[st_to st := 1]> acc else acc)
                     (foldl (λ acc k, <[k := 0]> acc) ∅ (get_state_names ts))
                     (get_all_state_transitions ts)) m) as [b Hb].
      exists b. split; [done|].
      rewrite <- (indicator_subset st_to e ts m _ Hc Hdom He
                    (or_intror eq_refl) eq_refl), Hb.
      split; [intros ->; done|]. by intros [_ [= ->]].
    + exists false. split; [done|]. split; [done|]. by intros [? _].
  - intros He. unfold get_switching_set_by_event.
    rewrite decide_False by done. cbn [try_except_ValueError mbind py_bind].
    rewrite Hreg. by destruct reg.
Qed.

(** X23: [is_preregion_of_event] and [is_postregion_of_event] on a marking
    over the states of a closed system.  For an event of the system the
    first returns [True] exactly when the marking is a region without
    negative multiplicity that gives at least 1 to the source of every
    arc of the event, the second likewise with the targets.  For an event
    that the system does not have, both return [False] when the marking
    is no region and raise [AttributeError] when it is one. *)
Theorem pre_and_post_region_outcome e (m : gmap string Z) ts :
  ts_closed ts → dom m = state_set ts →
  ∃ reg, is_region m ts = Ok reg
    ∧ (e ∈ get_event_names ts →
       (∃ b, is_preregion_of_event e m ts = Ok b
             ∧ (b = true ↔
                  reg = true
                  ∧ (∀ s v, m !! s = Some v → 0 ≤ v)
                  ∧ ∀ t v, t ∈ get_all_state_transitions ts →
                           st_event t = e →
                           m !! st_from t = Some v → 1 ≤ v))
       ∧ (∃ b, is_postregion_of_event e m ts = Ok b
               ∧ (b = true ↔
                    reg = true
                    ∧ (∀ s v, m !! s = Some v → 0 ≤ v)
                    ∧ ∀ t v, t ∈ get_all_state_transitions ts →
                             st_event t = e →
                             m !! st_to t = Some v → 1 ≤ v)))
    ∧ (e ∉ get_event_names ts →
       is_preregion_of_event e m ts
       = (if reg then Raise AttributeError else Ok false)
       ∧ is_postregion_of_event e m ts
         = (if reg then Raise AttributeError else Ok false)).
Proof.
  intros Hc Hdom.
  destruct (preregion_cases e m ts Hc Hdom) as (reg & Hreg & Hpre & Hpre').
  destruct (postregion_cases e m ts Hc Hdom)
    as (reg' & Hreg' & Hpost & Hpost').
  assert (reg' = reg) as -> by congruence.
  exists reg. split; [done|]. split.
  - intros He. split; [by apply Hpre|by apply Hpost].
  - intros He. split; [by apply Hpre'|by apply Hpost'].
Qed.

Lemma pre_and_post_region_outcome_witness :
  ∃ reg, is_region m_0110 sample_ts = Ok reg
    ∧ ("c"%string ∈ get_event_names sample_ts →
       (∃ b, is_preregion_of_event "c" m_0110 sample_ts = Ok b
             ∧ (b = true ↔
                  reg = true
                  ∧ (∀ s v, m_0110 !! s = Some v → 0 ≤ v)
                  ∧ ∀ t v, t ∈ get_all_state_transitions sample_ts →
                           st_event t = "c"%string →
                           m_0110 !! st_from t = Some v → 1 ≤ v))
       ∧ (∃ b, is_postregion_of_event "c" m_0110 sample_ts = Ok b
               ∧ (b = true ↔
                    reg = true
                    ∧ (∀ s v, m_0110 !! s = Some v → 0 ≤ v)
                    ∧ ∀ t v, t ∈ get_all_state_transitions sample_ts →
                             st_event t = "c"%string →
                             m_0110 !! st_to t = Some v → 1 ≤ v)))
    ∧ ("c"%string ∉ get_event_names sample_ts →
       is_preregion_of_event "c" m_0110 sample_ts
       = (if reg then Raise AttributeError else Ok false)
       ∧ is_postregion_of_event "c" m_0110 sample_ts
         = (if reg then Raise AttributeError else Ok false)).
Proof.
  apply (pre_and_post_region_outcome "c" m_0110 sample_ts).
  - apply (bool_decide_unpack _). vm_compute. exact I.
  - apply (bool_decide_unpack _). vm_compute. exact I.
Defined.

(** ** The search driver *)

(** X24: The search never runs forever: from [enough_fuel] rounds on, the
    model of [generate_all_minimal_regions_v1] has one and the same
    outcome, a result or an exception, whatever the system and [k]. *)
Theorem search_never_runs_forever k ts :
  ∃ out, out ≠ OutOfFuel
         ∧ ∀ fuel, (enough_fuel k ts ≤ fuel)%nat →
                   generate_all_minimal_regions_v1 fuel k ts = out.
Proof.
  exists (generate_all_minimal_regions_v1 (enough_fuel k ts) k ts).
  split; [by apply search_ends|].
  intros fuel Hle. by apply search_outcome_is_stable.
Qed.

Lemma generate_stages fuel k ts regions ex it :
  generate_all_minimal_regions_v1 fuel k ts = Ok (regions, ex, it) →
  ∃ cs0 cs1 cs discovered it0 temp,
    get_candidates ts = Ok cs0
    ∧ __remove_duplicates cs0 = Ok cs1
    ∧ __remove_supersets cs1 = Ok cs
    ∧ candidates_loop fuel k ts cs [] [] 0%nat = Ok (discovered, ex, it0)
    ∧ __remove_supersets discovered = Ok temp
    ∧ __remove_duplicates (Some <$> temp) = Ok regions.
Proof.
  unfold generate_all_minimal_regions_v1. intros H.
  bind_inv H. rename a into cs0. bind_inv H. rename a into cs1.
  bind_inv H. rename a into cs. bind_inv H.
  destruct a as [[discovered ex0] it0].
  bind_inv H. rename a into temp. bind_inv H. injection H as <- <- <-.
  by exists cs0, cs1, cs, discovered, it0, temp.
Qed.

Lemma get_candidates_all_seeds ts l c :
  get_candidates ts = Ok l → seed ts c → Some c ∈ l.
Proof.
  unfold get_candidates, get_excitation_sets, get_switching_sets.
  intros H (e & He & Hc). bind_inv H. rename a into xs. bind_inv H.
  rename a into ys. injection H as <-.
  apply for_each_Forall2 in Ha, Ha0.
  apply list_elem_of_lookup in He as [i Hi]. apply elem_of_app.
  destruct Hc as [Hc|Hc]; [left|right].
  - destruct (Forall2_lookup_l _ _ _ _ _ Ha Hi) as (y & Hy & Hf).
    rewrite Hc in Hf. injection Hf as <-.
    apply list_elem_of_fmap. exists (e, Some c). split; [done|].
    apply list_elem_of_lookup. by exists i.
  - destruct (Forall2_lookup_l _ _ _ _ _ Ha0 Hi) as (y & Hy & Hf).
    rewrite Hc in Hf. injection Hf as <-.
    apply list_elem_of_fmap. exists (e, Some c). split; [done|].
    apply list_elem_of_lookup. by exists i.
Qed.

Lemma elem_of_pop {A} (l : list A) (idx : nat) (x y : A) :
  l !! idx = Some y → x ∈ l → x = y ∨ x ∈ delete idx l.
Proof.
  revert idx. induction l as [|z l IH]; intros [|idx]; simpl; try done.
  - intros [= ->] [->|?]%elem_of_cons; [by left|by right].
  - intros Hl [->|Hx]%elem_of_cons; [right; left|].
    destruct (IH idx Hl Hx); [by left|right; by right].
Qed.

Lemma route_grows k ts i r d ex r' d' ex' :
  route k ts i (r, d, ex) = Ok (r', d', ex') → d ⊆ d'.
Proof.
  unfold route. destruct (decide (inr (dict_values i) ∈ ex)) as [|_].
  { by intros [= <- <- <-]. }
  intros H. bind_inv H. destruct a.
  - bind_inv H. destruct a; injection H as <- <- <-; [|done].
    intros x Hx. apply elem_of_app. by left.
  - by injection H as <- <- <-.
Qed.

Lemma expansion_loop_grows fuel k ts r d ex n d' ex' n' :
  expansion_loop fuel k ts r d ex n = Ok (d', ex', n') → d ⊆ d'.
Proof.
  revert r d ex n. induction fuel as [|fuel IH]; intros r d ex n.
  { destruct r; simpl; [|done]. by intros [= <- <- <-]. }
  destruct r as [|m0 r0]; [simpl; by intros [= <- <- <-]|].
  set (r := m0 :: r0). intros H.
  cbn [expansion_loop] in H. fold r in H.
  bind_inv H. rename a into idx. bind_inv H. destruct a as [r_hat r1].
  destruct (decide (inr (dict_values r_hat) ∈ ex)) as [|Hnin].
  { by apply IH in H. }
  bind_inv H. rename a into lst. bind_inv H.
  destruct a as [[[e g_min] g_max] g_e].
  bind_inv H. rename a into r_1. bind_inv H. rename a into r_2.
  bind_inv H. destruct a as [[ra da] exa].
  bind_inv H. destruct a as [[rb db] exb].
  apply route_grows in Ha5, Ha6. apply IH in H.
  intros x Hx. by apply H, Ha6, Ha5.
Qed.

Lemma candidates_loop_covers fuel k ts cs d ex n d' ex' n' :
  candidates_loop fuel k ts cs d ex n = Ok (d', ex', n') →
  d ⊆ d' ∧ ∀ c, c ∈ cs → is_region c ts = Ok true → c ∈ d'.
Proof.
  revert cs d ex n. induction fuel as [|fuel IH]; intros cs d ex n.
  { destruct cs; simpl; [|done]. intros [= <- <- <-]. split; [done|].
    by intros c ?%not_elem_of_nil. }
  destruct cs as [|m0 cs0].
  { simpl. intros [= <- <- <-]. split; [done|].
    by intros c ?%not_elem_of_nil. }
  set (cs := m0 :: cs0). intros H.
  cbn [candidates_loop] in H. fold cs in H.
  bind_inv H. rename a into idx. bind_inv H. destruct a as [r_tilde cs1].
  apply py_pop_spec in Ha0 as (Hidx & -> & _ & _).
  bind_inv H. destruct a.
  - destruct (decide (r_tilde ∈ d)) as [Hin|Hnin].
    + apply IH in H as [Hsub Hcov]. split; [done|]. intros c Hc Hreg.
      destruct (elem_of_pop _ _ c _ Hidx Hc) as [->|Hc'];
        [by apply Hsub|by apply Hcov].
    + apply IH in H as [Hsub Hcov]. split.
      * intros x Hx. apply Hsub, elem_of_app. by left.
      * intros c Hc Hreg.
        destruct (elem_of_pop _ _ c _ Hidx Hc) as [->|Hc'];
          [|by apply Hcov].
        apply Hsub, elem_of_app. right. left.
  - bind_inv H. destruct a as [[d1 ex1] n1].
    apply IH in H as [Hsub Hcov]. unfold multiset_expansion in Ha1.
    apply expansion_loop_grows in Ha1. split.
    + intros x Hx. by apply Hsub, Ha1.
    + intros c Hc Hreg.
      destruct (elem_of_pop _ _ c _ Hidx Hc) as [->|Hc'];
        [congruence|by apply Hcov].
Qed.

Lemma discovered_extend_a_seed fuel k ts cs discovered ex it :
  ts_closed ts → Forall (seed ts) cs →
  candidates_loop fuel k ts cs [] [] 0%nat = Ok (discovered, ex, it) →
  Forall (λ m, ∃ c, seed ts c ∧ is_subset c m = Ok true) discovered.
Proof.
  intros Hc Hcs Hloop.
  eapply (candidates_loop_invariant k ts (seed ts)
            (λ m, ∃ c, seed ts c ∧ is_subset c m = Ok true)
            (λ m, ∃ c, seed ts c ∧ is_subset c m = Ok true));
    [ | | | exact Hloop | done | constructor].
  - intros m Hm. exists m. split; [done|apply is_subset_refl].
  - intros m Hm _. exists m. split; [done|apply is_subset_refl].
  - intros r_hat i (c & Hseed & Hsub) (g & e & Hexp) _ _.
    assert (Hgrow : is_subset r_hat i = Ok true).
    { destruct Hexp as [H|H].
      - by destruct (by_g_repairs _ _ _ _ _ Hc H) as [? _].
      - by destruct (by_G_repairs _ _ _ _ _ Hc H) as [? _]. }
    split; intros _; exists c; (split; [done|]);
      by eapply is_subset_trans.
Qed.

(** X25: Every returned region of a closed system contains the excitation set
    or the switching set of some event; so it is defined exactly on the
    states of the system and has no negative multiplicity. *)
Theorem returned_regions_extend_a_seed k ts fuel regions ex it :
  ts_closed ts →
  generate_all_minimal_regions_v1 fuel k ts = Ok (regions, ex, it) →
  ∀ m, m ∈ regions →
    (∃ c, seed ts c ∧ is_subset c m = Ok true)
    ∧ dom m = state_set ts
    ∧ ∀ s v, m !! s = Some v → 0 ≤ v.
Proof.
  intros Hc H m Hm.
  destruct (generate_inv _ _ _ _ _ _ H)
    as (cs & d & it0 & Hcs & Hloop & _ & Hr).
  destruct (Hr m Hm) as [Hd _].
  pose proof (discovered_extend_a_seed _ _ _ _ _ _ _ Hc Hcs Hloop) as Hall.
  destruct (proj1 (Forall_forall _ _) Hall m Hd) as (c & Hseed & Hsub).
  split; [by exists c|].
  apply is_subset_true in Hsub as [Hdom Hle].
  pose proof (seed_dom ts c Hc Hseed) as Hdc. split; [congruence|].
  intros s v Hs.
  assert (is_Some (c !! s)) as [vc Hvc].
  { apply elem_of_dom. rewrite Hdom. apply elem_of_dom. by eexists. }
  destruct (Hle s vc Hvc) as (v' & Hv' & Hlev).
  assert (v' = v) as -> by congruence.
  destruct (seed_values ts c s vc Hseed Hvc); lia.
Qed.

Lemma returned_regions_extend_a_seed_witness :
  (∃ c, seed sample_ts c ∧ is_subset c m_0110 = Ok true)
  ∧ dom m_0110 = state_set sample_ts
  ∧ ∀ s v, m_0110 !! s = Some v → 0 ≤ v.
Proof.
  apply (returned_regions_extend_a_seed 1 sample_ts 50%nat sample_regions
           sample_explored 10%nat).
  - apply (bool_decide_unpack _). vm_compute. exact I.
  - vm_compute. reflexivity.
  - apply (bool_decide_unpack _). vm_compute. exact I.
Defined.

(** X26: No minimal seed that is a region is lost: on a closed system, the
    excitation or switching set of an event that is a region and contains
    no other such set is among the returned regions. *)
Theorem minimal_seed_regions_are_returned k ts fuel regions ex it c :
  ts_closed ts →
  generate_all_minimal_regions_v1 fuel k ts = Ok (regions, ex, it) →
  seed ts c → is_region c ts = Ok true →
  (∀ c', seed ts c' → is_subset c' c = Ok true → c' = c) →
  c ∈ regions.
Proof.
  intros Hc H Hseed Hreg Hmin.
  destruct (generate_stages _ _ _ _ _ _ H)
    as (cs0 & cs1 & cs & d & it0 & temp & H0 & H1 & H2 & Hloop & H3 & H4).
  pose proof (get_candidates_seeds ts cs0 H0) as Hseeds.
  pose proof (get_candidates_all_seeds ts cs0 c H0 Hseed) as Hc0.
  destruct (get_candidates_ok ts) as [l0 Hl0].
  assert (cs0 = Some <$> l0) as -> by congruence.
  destruct (remove_duplicates_loop_some [] l0) as (l1 & Hl1 & _ & _ & Hel1 & _).
  assert (l1 = cs1) as -> by (unfold __remove_duplicates in H1; congruence).
  assert (Hseed1 : ∀ m, m ∈ cs1 → seed ts m).
  { intros m [Hm _]%Hel1.
    assert (Hs : Some m ∈ Some <$> l0) by (apply list_elem_of_fmap; eauto).
    destruct (proj1 (Forall_forall _ _) Hseeds _ Hs) as (m' & [= <-] & ?).
    done. }
  assert (Hc1 : c ∈ cs1).
  { apply Hel1. split; [|apply not_elem_of_nil].
    apply list_elem_of_fmap in Hc0 as (c' & [= <-] & ?). done. }
  pose proof (filter_py_elem _ _ _ H2) as Hel2.
  assert (Hc2 : c ∈ cs).
  { apply Hel2. split; [done|]. apply has_no_other_subset_iff.
    intros m' Hm' Hs. apply Hmin; [by apply Hseed1|done]. }
  assert (Hcs : Forall (seed ts) cs).
  { apply Forall_forall. intros m [Hm _]%Hel2. by apply Hseed1. }
  destruct (candidates_loop_covers _ _ _ _ _ _ _ _ _ _ Hloop) as [_ Hcov].
  pose proof (Hcov c Hc2 Hreg) as Hd.
  pose proof (discovered_extend_a_seed _ _ _ _ _ _ _ Hc Hcs Hloop) as Hall.
  pose proof (filter_py_elem _ _ _ H3) as Hel3.
  assert (Hct : c ∈ temp).
  { apply Hel3. split; [done|]. apply has_no_other_subset_iff.
    intros m' Hm' Hs.
    destruct (proj1 (Forall_forall _ _) Hall m' Hm') as (c' & Hs' & Hsub').
    assert (c' = c) as ->.
    { apply Hmin; [done|]. by eapply is_subset_trans. }
    by apply is_subset_antisym. }
  destruct (remove_duplicates_loop_some [] temp) as (l4 & Hl4 & _ & _ & Hel4 & _).
  assert (l4 = regions) as -> by (unfold __remove_duplicates in H4; congruence).
  apply Hel4. split; [done|apply not_elem_of_nil].
Qed.

Lemma minimal_seed_regions_are_returned_witness : m_s1 ∈ [m_s1; m_s2].
Proof.
  apply (minimal_seed_regions_are_returned 0 one_arc_ts 5%nat [m_s1; m_s2]
           [inl m_s1; inl m_s2] 4%nat m_s1).
  - apply (bool_decide_unpack _). vm_compute. exact I.
  - vm_compute. reflexivity.
  - exists "a"%string. split; [left|]. left. vm_compute. reflexivity.
  - vm_compute. reflexivity.
  - intros c' (e & He & Hc') Hsub.
    apply list_elem_of_singleton in He as ->.
    destruct Hc' as [Hc'|Hc'].
    + assert (H : get_excitation_set_by_event "a" one_arc_ts = Ok (Some m_s1))
        by (vm_compute; reflexivity).
      congruence.
    + assert (H : get_switching_set_by_event "a" one_arc_ts = Ok (Some m_s2))
        by (vm_compute; reflexivity).
      assert (c' = m_s2) as -> by congruence.
      vm_compute in Hsub. discriminate.
Defined.

Lemma for_each_raises {A B} (f : A → py B) (E : exn) (l : list A) :
  (∀ x, x ∈ l → (∃ y, f x = Ok y) ∨ f x = Raise E) →
  (∃ x, x ∈ l ∧ f x = Raise E) →
  for_each f l = Raise E.
Proof.
  induction l as [|x l IH]; intros Hall (x0 & Hin & Hx0).
  - by apply not_elem_of_nil in Hin.
  - cbn [for_each]. destruct (Hall x) as [[y Hy]|Hr]; [left| |].
    + rewrite Hy. cbn [mbind py_bind]. rewrite IH; [done| |].
      * intros z Hz. apply Hall. by right.
      * apply elem_of_cons in Hin as [->|Hin]; [congruence|by exists x0].
    + by rewrite Hr.
Qed.

Lemma illegal_events_raise_on_isolated_event (m : gmap string Z) ts e :
  ts_closed ts → dom m = state_set ts →
  (∀ s v, m !! s = Some v → Z.abs v < 2 ^ 51) →
  e ∈ get_event_names ts →
  (∀ t, t ∈ get_all_state_transitions ts → st_event t ≠ e) →
  get_illegal_events m ts = Raise ValueError.
Proof.
  intros Hc Hdom Hsmall He Hno. unfold get_illegal_events.
  destruct (for_each_ok
              (λ e, grad ← get_gradient_of_event e m ts; Ok (e, grad))
              (get_event_names ts)) as [gs Hgs].
  { apply Forall_forall. intros e' _.
    destruct (gradient_of_event_closed m ts e' Hc Hdom) as (g & Hg & _).
    rewrite Hg. simpl. by eexists. }
  unfold get_gradients_for_multisets. rewrite Hgs. cbn [mbind py_bind].
  apply gradients_inv in Hgs.
  assert (Hnil : ∀ kg : string * list Z,
            kg.2 = [] → illegal_entry kg = Raise ValueError).
  { intros [e' g] Hg. simpl in Hg. subst g. reflexivity. }
  rewrite (for_each_raises illegal_entry ValueError); [done| |].
  - intros kg Hin. rewrite merge_sort_Permutation in Hin.
    apply list_elem_of_lookup in Hin as [i Hi].
    destruct (Forall2_lookup_r _ _ _ _ _ Hgs Hi) as (e' & He' & <- & Hg).
    destruct (gradient_of_event_closed m ts kg.1 Hc Hdom)
      as (g & Hg' & _ & Hb).
    assert (g = kg.2) as -> by congruence.
    destruct (decide (kg.2 = [])) as [Hz|Hnz]; [right; by apply Hnil|left].
    destruct (illegal_entry_spec kg Hnz) as (g_min & g_max & _ & _ & ->).
    + intros v Hv. change (2 ^ 52) with (2 ^ 51 + 2 ^ 51). by apply Hb.
    + by eexists.
  - apply list_elem_of_lookup in He as [i Hi].
    destruct (Forall2_lookup_l _ _ _ _ _ Hgs Hi) as (kg & Hkg & Hk1 & Hg).
    exists kg. split.
    + rewrite merge_sort_Permutation. apply list_elem_of_lookup. by exists i.
    + apply Hnil.
      destruct (gradient_of_event_closed m ts e Hc Hdom)
        as (g & Hg' & Hempty & _).
      assert (g = kg.2) as <- by congruence.
      by apply Hempty.
Qed.

(** X27: On a closed system one of whose events labels no arc the search
    raises [ValueError], for every [k]: the first candidate is no region,
    and [min] of the empty gradient list of that event raises in
    [get_illegal_events]. *)
Theorem search_raises_on_isolated_event k ts e fuel :
  ts_closed ts → e ∈ get_event_names ts →
  (∀ t, t ∈ get_all_state_transitions ts → st_event t ≠ e) →
  (2 ≤ fuel)%nat →
  generate_all_minimal_regions_v1 fuel k ts = Raise ValueError.
Proof.
  intros Hc He Hno Hfuel.
  destruct fuel as [|[|fuel]]; [lia|lia|clear Hfuel].
  unfold generate_all_minimal_regions_v1.
  destruct (get_candidates_ok ts) as [l0 Hl0].
  pose proof (get_candidates_seeds ts _ Hl0) as Hseeds.
  assert (Hex : ∃ c, seed ts c).
  { eexists. exists e. split; [done|]. left.
    unfold get_excitation_set_by_event. rewrite decide_True by done.
    reflexivity. }
  destruct Hex as [c Hseed].
  pose proof (get_candidates_all_seeds ts _ c Hl0 Hseed) as Hc0.
  rewrite Hl0. cbn [mbind py_bind]. unfold __remove_duplicates.
  destruct (remove_duplicates_loop_some [] l0) as (l1 & -> & _ & _ & Hel1 & _).
  cbn [mbind py_bind].
  destruct (remove_supersets_min l1) as (cs & -> & Hel2 & Hcov).
  cbn [mbind py_bind].
  assert (Hseed_cs : ∀ m, m ∈ cs → seed ts m).
  { intros m [[Hm _]%Hel1 _]%Hel2.
    assert (Hs : Some m ∈ Some <$> l0) by (apply list_elem_of_fmap; eauto).
    destruct (proj1 (Forall_forall _ _) Hseeds _ Hs) as (m' & [= <-] & ?).
    done. }
  assert (Hne : cs ≠ []).
  { destruct (Hcov c) as (m0 & Hm0 & _).
    - apply Hel1. split; [|apply not_elem_of_nil].
      apply list_elem_of_fmap in Hc0 as (c' & [= <-] & ?). done.
    - intros ->. by apply not_elem_of_nil in Hm0. }
  destruct cs as [|c0 cs0]; [done|]. set (cs := c0 :: cs0) in *.
  cbn [candidates_loop]. fold cs. unfold candidates_round.
  destruct (pop_by_sum_ok py_argmin cs py_argmin_lt Hne)
    as (idx & r_tilde & cs1 & -> & Hpop).
  cbn [mbind py_bind]. rewrite Hpop. cbn [mbind py_bind].
  apply py_pop_spec in Hpop as (_ & _ & Hin & _).
  pose proof (Hseed_cs _ Hin) as Hst.
  pose proof (seed_dom ts r_tilde Hc Hst) as Hdom.
  destruct (is_region_ok r_tilde ts Hc Hdom) as [[] Hreg].
  { exfalso. by apply (isolated_event_never_region r_tilde ts e). }
  rewrite Hreg. cbn [mbind py_bind].
  unfold multiset_expansion. cbn [expansion_loop]. unfold expansion_round.
  cbn [fmap list_fmap py_argmax foldl fst mbind py_bind py_pop lookup
       list_lookup delete list_delete].
  rewrite decide_False by apply not_elem_of_nil.
  rewrite (illegal_events_raise_on_isolated_event r_tilde ts e);
    [done|done|done| |done|done].
  intros s v Hv. destruct (seed_values ts r_tilde s v Hst Hv) as [-> | ->];
    reflexivity.
Qed.

Lemma search_raises_on_isolated_event_witness :
  generate_all_minimal_regions_v1 2 1 isolated_event_ts = Raise ValueError.
Proof.
  apply (search_raises_on_isolated_event 1 isolated_event_ts "a" 2).
  - apply (bool_decide_unpack _). vm_compute. exact I.
  - apply (bool_decide_unpack _). vm_compute. exact I.
  - intros t Ht. vm_compute in Ht. by apply not_elem_of_nil in Ht.
  - lia.
Defined.

(** ** Building a transition system *)

Lemma ensure_event_fields e o :
  obj_events (__ensure_event_exists e o) = {[ e ]} ∪ obj_events o
  ∧ obj_states (__ensure_event_exists e o) = obj_states o
  ∧ obj_transitions (__ensure_event_exists e o) = obj_transitions o.
Proof.
  unfold __ensure_event_exists, __add_event.
  destruct (decide (e ∈ obj_events o)); simpl; [|done].
  split; [set_solver|done].
Qed.

Lemma ensure_state_fields s o :
  obj_states (__ensure_state_exists s o)
  = obj_states o ∪ ({[ s ]} ∖ {[ EmptyString ]})
  ∧ obj_events (__ensure_state_exists s o) = obj_events o
  ∧ obj_transitions (__ensure_state_exists s o) = obj_transitions o.
Proof.
  unfold __ensure_state_exists, __add_state.
  destruct (decide (s ∈ obj_states o)); simpl; [split; [set_solver|done]|].
  destruct (decide (s = EmptyString)); simpl; split; try done; set_solver.
Qed.

Lemma add_transition_fields e f t o :
  (f, e, t) ∉ obj_transitions o →
  ∃ flag o', add_transition e f t o = Ok (flag, o')
    ∧ obj_events o' = {[ e ]} ∪ obj_events o
    ∧ obj_states o' = obj_states o ∪ ({[ f; t ]} ∖ {[ EmptyString ]})
    ∧ (flag = true ↔ f ∈ obj_states o' ∧ t ∈ obj_states o')
    ∧ obj_transitions o'
      = (if flag : bool then {[ (f, e, t) ]} ∪ obj_transitions o
         else obj_transitions o).
Proof.
  intros Hnew. unfold add_transition. rewrite decide_False by done.
  cbv zeta. unfold get_state_by_name.
  set (o1 := __ensure_event_exists e o).
  set (o2 := __ensure_state_exists f o1).
  set (o3 := __ensure_state_exists t o2).
  destruct (ensure_event_fields e o) as (He1 & Hs1 & Ht1).
  destruct (ensure_state_fields f o1) as (Hs2 & He2 & Ht2).
  destruct (ensure_state_fields t o2) as (Hs3 & He3 & Ht3).
  fold o1 in He1, Hs1, Ht1. fold o2 in He2, Hs2, Ht2.
  fold o3 in He3, Hs3, Ht3.
  assert (HE : obj_events o3 = {[ e ]} ∪ obj_events o) by congruence.
  assert (HS : obj_states o3
               = obj_states o ∪ ({[ f; t ]} ∖ {[ EmptyString ]})).
  { rewrite Hs3, Hs2, Hs1. clear. set_solver. }
  assert (HT : obj_transitions o3 = obj_transitions o) by congruence.
  destruct (decide (f ∈ obj_states o3)) as [Hf|Hf];
    [destruct (decide (t ∈ obj_states o3)) as [Ht|Ht]|].
  - eexists true, _. split; [done|]. simpl.
    split; [done|]. split; [done|]. split; [done|]. by rewrite HT.
  - exists false, o3. split; [done|]. split; [done|]. split; [done|].
    split; [|done]. split; [done|]. by intros [_ ?].
  - exists false, o3. split; [done|]. split; [done|]. split; [done|].
    split; [|done]. split; [done|]. by intros [? _].
Qed.

Lemma add_transition_wf e f t o flag o' :
  obj_wf o → add_transition e f t o = Ok (flag, o') →
  obj_wf o' ∧ (flag = true ↔ f ≠ EmptyString ∧ t ≠ EmptyString).
Proof.
  intros [Hempty Hwf] H.
  destruct (decide ((f, e, t) ∈ obj_transitions o)) as [Hin|Hnew].
  { unfold add_transition in H. by rewrite decide_True in H. }
  destruct (add_transition_fields e f t o Hnew)
    as (flag' & o'' & H' & HE & HS & Hflag & HT).
  rewrite H in H'. injection H' as <- <-.
  assert (Hflag' : flag = true ↔ f ≠ EmptyString ∧ t ≠ EmptyString).
  { rewrite Hflag, HS. set_solver. }
  split; [|done]. split; [rewrite HS; set_solver|].
  intros st Hst. rewrite HT in Hst. rewrite HS, HE.
  destruct flag.
  - apply elem_of_union in Hst as [->%elem_of_singleton|Hst].
    + destruct (proj1 Hflag' eq_refl). unfold st_from, st_to, st_event.
      simpl. set_solver.
    + destruct (Hwf st Hst) as (? & ? & ?). set_solver.
  - destruct (Hwf st Hst) as (? & ? & ?). set_solver.
Qed.

Lemma system_of_closed o : obj_wf o → ts_closed (system_of o).
Proof.
  intros [_ Hwf]. apply Forall_forall. intros st Hst. simpl in Hst.
  apply elem_of_elements in Hst. destruct (Hwf st Hst) as (? & ? & _).
  simpl. by rewrite !elem_of_elements.
Qed.

(** X28: [add_transition] raises [ValueError] when the triple is already a
    transition and leaves the object as it was.  Otherwise it registers
    the event and the two states, except a state of the empty name, and
    it adds the transition and returns [True] exactly when both states
    then exist; with an empty state name it returns [False] and the
    event stays without that transition.  The object it leaves is closed
    when the one it found had no state of the empty name and was
    closed. *)
Theorem add_transition_outcome e f t o :
  ((f, e, t) ∈ obj_transitions o → add_transition e f t o = Raise ValueError)
  ∧ ((f, e, t) ∉ obj_transitions o →
     ∃ flag o', add_transition e f t o = Ok (flag, o')
       ∧ obj_events o' = {[ e ]} ∪ obj_events o
       ∧ obj_states o' = obj_states o ∪ ({[ f; t ]} ∖ {[ EmptyString ]})
       ∧ (flag = true ↔ f ∈ obj_states o' ∧ t ∈ obj_states o')
       ∧ obj_transitions o'
         = (if flag : bool then {[ (f, e, t) ]} ∪ obj_transitions o
            else obj_transitions o)
       ∧ (obj_wf o →
          obj_wf o' ∧ ts_closed (system_of o')
          ∧ (flag = true ↔ f ≠ EmptyString ∧ t ≠ EmptyString))).
Proof.
  split.
  - intros Hin. unfold add_transition. by rewrite decide_True.
  - intros Hnew.
    destruct (add_transition_fields e f t o Hnew)
      as (flag & o' & H & HE & HS & Hflag & HT).
    exists flag, o'. repeat (split; [done|]). intros Hwf.
    destruct (add_transition_wf e f t o flag o' Hwf H) as [Hwf' Hne].
    split; [done|]. split; [by apply system_of_closed|done].
Qed.

Lemma batch_spec (sts : list state_transition) (o : ts_object) :
  obj_wf o →
  ∃ added o', add_transitions_batch sts o = Ok (added, o')
    ∧ obj_wf o'
    ∧ (∀ st, st ∈ obj_transitions o' ↔
             st ∈ obj_transitions o
             ∨ (st ∈ sts ∧ st_from st ≠ EmptyString
                ∧ st_to st ≠ EmptyString))
    ∧ (∀ e, e ∈ obj_events o' ↔
            e ∈ obj_events o ∨ ∃ st, st ∈ sts ∧ st_event st = e)
    ∧ (∀ s, s ∈ obj_states o' ↔
            s ∈ obj_states o
            ∨ (s ≠ EmptyString
               ∧ ∃ st, st ∈ sts ∧ (st_from st = s ∨ st_to st = s)))
    ∧ NoDup added
    ∧ (∀ st, st ∈ added ↔
             (st ∉ obj_transitions o)
             ∧ st ∈ sts ∧ st_from st ≠ EmptyString
             ∧ st_to st ≠ EmptyString).
Proof.
  revert o. induction sts as [|[[f e] t] sts IH]; intros o Hwf.
  - exists [], o. split; [done|]. split; [done|].
    split; [set_solver|]. split; [set_solver|]. split; [set_solver|].
    split; [constructor|set_solver].
  - cbn [add_transitions_batch].
    destruct (decide ((f, e, t) ∈ obj_transitions o)) as [Hin|Hnew].
    + unfold add_transition. rewrite decide_True by done.
      destruct (IH o Hwf) as (added & o' & -> & Hwf' & HT & HE & HS & Hnd & Hadd).
      destruct Hwf as [Hempty Hwf].
      destruct (Hwf _ Hin) as (Hf & Ht & He).
      unfold st_from, st_to, st_event in Hf, Ht, He. simpl in Hf, Ht, He.
      exists added, o'. split; [done|]. split; [done|].
      split; [|split; [|split; [|split; [done|]]]].
      * intros st. rewrite HT, elem_of_cons. split; [tauto|].
        intros [?|[[->|?] ?]]; auto.
      * intros e'. rewrite HE. split.
        -- intros [?|(st & ? & ?)]; [by left|right]. exists st.
           split; [by right|done].
        -- intros [?|(st & [->|?]%elem_of_cons & <-)]; [by left|by left|].
           right. by exists st.
      * intros s. rewrite HS. split.
        -- intros [?|(? & st & ? & ?)]; [by left|right]. split; [done|].
           exists st. split; [by right|done].
        -- intros [?|(Hne & st & [->|?]%elem_of_cons & Hs)]; [by left| |].
           ++ left. unfold st_from, st_to in Hs. simpl in Hs.
              by destruct Hs as [<-|<-].
           ++ right. split; [done|]. by exists st.
      * intros st. rewrite Hadd, elem_of_cons. split; [tauto|].
        intros (Hn & [->|?] & ?); [done|tauto].
    + destruct (add_transition_fields e f t o Hnew)
        as (flag & o1 & H & HE1 & HS1 & Hflag & HT1).
      destruct (add_transition_wf e f t o flag o1 Hwf H) as [Hwf1 Hne].
      rewrite H.
      destruct (IH o1 Hwf1)
        as (added & o' & -> & Hwf' & HT & HE & HS & Hnd & Hadd).
      cbn [mbind py_bind]. eexists _, o'. split; [done|]. split; [done|].
      assert (HT1' : ∀ st, st ∈ obj_transitions o1 ↔
                st ∈ obj_transitions o
                ∨ (st = (f, e, t) ∧ f ≠ EmptyString ∧ t ≠ EmptyString)).
      { intros st. rewrite HT1. destruct flag.
        - rewrite elem_of_union, elem_of_singleton.
          pose proof (proj1 Hne eq_refl). tauto.
        - split; [tauto|]. intros [?|(_ & Hft)]; [done|].
          apply Hne in Hft. done. }
      split; [|split; [|split; [|split]]].
      * intros st. rewrite HT, HT1', elem_of_cons. split.
        -- intros [[?|(-> & ? & ?)]|(? & ? & ?)]; auto.
        -- intros [?|[[->|?] [? ?]]]; auto.
      * intros e'. rewrite HE, HE1, elem_of_union, elem_of_singleton. split.
        -- intros [[->|?]|(st & ? & ?)]; [right|by left|right].
           ++ exists (f, e, t). split; [left|done].
           ++ exists st. split; [by right|done].
        -- intros [?|(st & [->|?]%elem_of_cons & <-)]; [auto|auto|].
           right. by exists st.
      * intros s. rewrite HS, HS1. split.
        -- intros [Hs|(? & st & ? & ?)].
           ++ apply elem_of_union in Hs as [?|Hs]; [by left|right].
              apply elem_of_difference in Hs as [Hs Hne'].
              split; [set_solver|]. exists (f, e, t). split; [left|].
              unfold st_from, st_to. simpl. set_solver.
           ++ right. split; [done|]. exists st. split; [by right|done].
        -- intros [?|(Hne' & st & [->|?]%elem_of_cons & Hs)].
           ++ left. set_solver.
           ++ left. unfold st_from, st_to in Hs. simpl in Hs. set_solver.
           ++ right. split; [done|]. by exists st.
      * destruct flag; [|done]. constructor; [|done].
        intros Hin. apply Hadd in Hin as [Hn _]. apply Hn.
        rewrite HT1. set_solver.
      * intros st. destruct flag.
        -- rewrite elem_of_cons, Hadd, HT1', elem_of_cons.
           pose proof (proj1 Hne eq_refl) as [? ?]. split.
           ++ intros [->|(Hn & ? & ? & ?)]; [by repeat split; auto|].
              repeat split; auto.
           ++ intros (Hn & [->|?] & ? & ?); [by left|].
              destruct (decide (st = (f, e, t))) as [->|?]; [by left|].
              right. repeat split; auto. intros [?|(? & _)]; done.
        -- rewrite Hadd, HT1', elem_of_cons. split.
           ++ intros (Hn & ? & ? & ?). repeat split; auto.
           ++ intros (Hn & [->|?] & Hf & Ht).
              { exfalso. unfold st_from, st_to in Hf, Ht. simpl in Hf, Ht.
                assert (false = true) by (by apply Hne). done. }
              repeat split; auto. intros [?|(-> & _)]; [done|].
              unfold st_from, st_to in Hf, Ht. simpl in Hf, Ht.
              assert (false = true) by (by apply Hne). done.
Qed.

Lemma new_ts_wf : obj_wf new_ts.
Proof. split; [set_solver|]. intros st Hst. set_solver. Qed.

(** X29: [add_transitions_batch] on a fresh object never raises, and the system
    it builds is closed: its transitions are the triples of the list with
    two non-empty state names, its events all the events of the list, its
    states the non-empty state names of the list.  The list it returns
    holds each of those transitions once.  Every event of the system
    labels a transition exactly when each event of the list occurs in one
    triple with two non-empty state names. *)
Theorem built_systems_are_closed (sts : list state_transition) :
  ∃ added o, add_transitions_batch sts new_ts = Ok (added, o)
    ∧ ts_closed (system_of o)
    ∧ (∀ st, st ∈ get_all_state_transitions (system_of o) ↔
             st ∈ sts ∧ st_from st ≠ EmptyString ∧ st_to st ≠ EmptyString)
    ∧ (∀ e, e ∈ get_event_names (system_of o) ↔
            ∃ st, st ∈ sts ∧ st_event st = e)
    ∧ (∀ s, s ∈ get_state_names (system_of o) ↔
            s ≠ EmptyString
            ∧ ∃ st, st ∈ sts ∧ (st_from st = s ∨ st_to st = s))
    ∧ NoDup added
    ∧ (∀ st, st ∈ added ↔ st ∈ get_all_state_transitions (system_of o))
    ∧ (ts_live (system_of o) ↔
       ∀ st, st ∈ sts →
             ∃ st', st' ∈ sts ∧ st_event st' = st_event st
                    ∧ st_from st' ≠ EmptyString ∧ st_to st' ≠ EmptyString).
Proof.
  destruct (batch_spec sts new_ts new_ts_wf)
    as (added & o & H & Hwf & HT & HE & HS & Hnd & Hadd).
  exists added, o. split; [done|]. split; [by apply system_of_closed|].
  assert (HT' : ∀ st, st ∈ get_all_state_transitions (system_of o) ↔
             st ∈ sts ∧ st_from st ≠ EmptyString ∧ st_to st ≠ EmptyString).
  { intros st. simpl. rewrite elem_of_elements, HT. clear. set_solver. }
  assert (HE' : ∀ e, e ∈ get_event_names (system_of o) ↔
            ∃ st, st ∈ sts ∧ st_event st = e).
  { intros e. simpl. rewrite elem_of_elements, HE. clear. set_solver. }
  split; [done|]. split; [done|]. split.
  { intros s. simpl. rewrite elem_of_elements, HS. clear. set_solver. }
  split; [done|]. split.
  { intros st. rewrite Hadd, HT'. set_solver. }
  unfold ts_live. rewrite Forall_forall. split.
  - intros Hlive st Hst.
    assert (He : st_event st ∈ get_event_names (system_of o)).
    { apply HE'. by exists st. }
    apply Hlive, Exists_exists in He as (st' & Hst' & Hev).
    apply HT' in Hst' as (? & ? & ?). by exists st'.
  - intros Hall e He. apply HE' in He as (st & Hst & <-).
    destruct (Hall st Hst) as (st' & Hst' & Hev & Hf & Ht).
    apply Exists_exists. exists st'. split; [|done]. by apply HT'.
Qed.

(** [create_sample_ts()] builds the sample system of this file, with
    [s_1] as its initial state. *)
Example create_sample_ts_builds_sample_ts :
  ∃ o, create_sample_ts = Ok o
       ∧ obj_states o = state_set sample_ts
       ∧ obj_events o = list_to_set (get_event_names sample_ts)
       ∧ obj_transitions o = list_to_set (get_all_state_transitions sample_ts)
       ∧ obj_initial_states o = {[ "s_1"%string ]}.
Proof.
  eexists. split; [vm_compute; reflexivity|].
  repeat split; apply (bool_decide_unpack _); vm_compute; exact I.
Qed.

(** ** The first search driver *)

Lemma all_markings_elem (states : list string) (K : Z) (m : gmap string Z) :
  dom m = list_to_set states → (∀ s v, m !! s = Some v → 0 ≤ v ≤ K) →
  m ∈ all_markings states K.
Proof.
  revert m. induction states as [|s states IH]; intros m Hdom Hrange.
  - simpl in Hdom. apply dom_empty_inv_L in Hdom as ->. left.
  - cbn [all_markings foldr]. fold (all_markings states K).
    assert (is_Some (m !! s)) as [x Hx].
    { apply elem_of_dom. rewrite Hdom. set_solver. }
    apply list_elem_of_bind. exists x. split.
    + apply list_elem_of_fmap.
      destruct (decide (s ∈ states)) as [Hin|Hnin].
      * exists m. split; [by rewrite insert_id|]. apply IH; [|done].
        rewrite Hdom. set_solver.
      * exists (delete s m). split; [by rewrite insert_delete_id|].
        apply IH.
        -- rewrite dom_delete_L, Hdom. set_solver.
        -- intros s' v Hv. apply lookup_delete_Some in Hv as [_ Hv].
           by eapply Hrange.
    + apply elem_of_seqZ. specialize (Hrange s x Hx). lia.
Qed.

Lemma in_space_marking k ts (m : gmap string Z) :
  in_space k ts m → m ∈ all_markings (get_state_names ts) (Z.max k 1).
Proof. intros [Hdom Hrange]. by apply all_markings_elem. Qed.

Lemma o_route_spec k (r : gmap string Z) cands ex cands' ex' :
  o_route k r cands ex = Ok (cands', ex') →
  (cands' = cands ++ [r] ∧ ex' = ex ∧ __is_valid_candidate k r = Ok true)
  ∨ (cands' = cands ∧ ex' = ex ++ [r]).
Proof.
  unfold o_route, __is_valid_candidate. intros H. bind_inv H.
  rename a into p. rewrite Ha. cbn [mbind py_bind].
  destruct (p <=? k); simpl in *.
  - destruct (is_trivial r); simpl in *; injection H as <- <-; auto.
  - injection H as <- <-. auto.
Qed.

Lemma o_route_ok k (r : gmap string Z) cands ex :
  r ≠ ∅ → ∃ res, o_route k r cands ex = Ok res.
Proof.
  intros Hne. destruct (power_ok r Hne) as [p Hp]. unfold o_route.
  rewrite Hp. cbn [mbind py_bind].
  destruct ((p <=? k) && negb (is_trivial r)); by eexists.
Qed.

Lemma o_loop_returns k ts fuel cands minimal explored n :
  ts_closed ts → ts_live ts → k < 2 ^ 51 →
  Forall (in_space k ts) cands → Forall (in_space k ts) minimal →
  NoDup minimal →
  (3 * length (filter (λ m, m ∉ minimal)
                 (all_markings (get_state_names ts) (Z.max k 1)))
   + length cands < fuel)%nat →
  ∃ minimal' explored' n',
    o_loop fuel k ts cands minimal explored n = Ok (minimal', explored', n')
    ∧ NoDup minimal' ∧ Forall (in_space k ts) minimal'
    ∧ ∀ c, c ∈ cands ∨ c ∈ minimal → c ∈ minimal'.
Proof.
  intros Hc Hlive Hk. revert cands minimal explored n.
  induction fuel as [|fuel IH]; intros cands minimal explored n HC HM Hnd Hfuel.
  { lia. }
  destruct cands as [|c0 cands0].
  { exists minimal, explored, n. repeat split; try done.
    intros c [?%not_elem_of_nil|?]; done. }
  set (cands := c0 :: cands0) in *. cbn [o_loop]. fold cands.
  unfold o_round.
  assert (is_Some (cands !! Nat.pred (length cands))) as [candidate Hlook].
  { apply lookup_lt_is_Some. simpl. lia. }
  unfold py_pop at 1. rewrite Hlook. cbn [mbind py_bind].
  set (rest := delete (Nat.pred (length cands)) cands).
  assert (Hlen : S (length rest) = length cands).
  { unfold rest. rewrite length_delete by by eexists.
    apply lookup_lt_Some in Hlook. lia. }
  assert (Hin : candidate ∈ cands).
  { apply list_elem_of_lookup. by eexists. }
  assert (Hsp : in_space k ts candidate).
  { by apply (proj1 (Forall_forall _ _) HC). }
  assert (HR : Forall (in_space k ts) rest).
  { apply Forall_forall. intros x Hx.
    apply (proj1 (Forall_forall _ _) HC).
    eapply sublist_subseteq; [apply sublist_delete|exact Hx]. }
  assert (Hcover : ∀ c, c ∈ cands → c = candidate ∨ c ∈ rest).
  { intros c Hcin. by apply (elem_of_pop _ _ _ _ Hlook). }
  destruct (decide (candidate ∈ minimal)) as [Hold|Hnew].
  { destruct (IH rest minimal (explored ++ [candidate]) (S n) HR HM Hnd)
      as (m' & e' & n' & Hrun & Hnd' & HM' & Hcov); [clearbody cands; lia|].
    exists m', e', n'. split; [done|]. split; [done|]. split; [done|].
    intros c [Hcin|?]; [|by apply Hcov; right].
    destruct (Hcover c Hcin) as [->|?]; apply Hcov; auto. }
  assert (Hnd1 : NoDup (minimal ++ [candidate])).
  { apply NoDup_app. split; [done|]. split; [|apply NoDup_singleton].
    intros x Hx ->%list_elem_of_singleton. done. }
  assert (HM1 : Forall (in_space k ts) (minimal ++ [candidate])).
  { apply Forall_app. split; [done|]. by constructor. }
  assert (Hlt : (length (filter (λ m, m ∉ minimal ++ [candidate])
                   (all_markings (get_state_names ts) (Z.max k 1)))
                 < length (filter (λ m, m ∉ minimal)
                     (all_markings (get_state_names ts) (Z.max k 1))))%nat).
  { apply (filter_length_lt _ _ _ candidate);
      [|by apply in_space_marking|done|].
    - intros m Hn Hm. apply Hn, elem_of_app. by left.
    - intros Hn. apply Hn, elem_of_app. right. left. }
  assert (Hcov1 : ∀ m' : list (gmap string Z),
            (∀ c, c ∈ rest ∨ c ∈ minimal ++ [candidate] → c ∈ m') →
            ∀ c, c ∈ cands ∨ c ∈ minimal → c ∈ m').
  { intros m' Hcov c [Hcin|Hcm].
    - destruct (Hcover c Hcin) as [->|?]; apply Hcov; [right|by left].
      apply elem_of_app. right. left.
    - apply Hcov. right. apply elem_of_app. by left. }
  destruct Hsp as [Hdom Hrange].
  destruct (is_region_ok candidate ts Hc Hdom) as [reg Hreg].
  rewrite Hreg. cbn [mbind py_bind]. destruct reg.
  { destruct (IH rest (minimal ++ [candidate]) (explored ++ [candidate])
                (S n) HR HM1 Hnd1)
      as (m' & e' & n' & Hrun & Hnd' & HM' & Hcov); [clearbody cands; lia|].
    exists m', e', n'. split; [done|]. split; [done|]. split; [done|].
    by apply Hcov1. }
  destruct (chosen_event_ok k ts candidate Hc Hlive Hk (conj Hdom Hrange) Hreg)
    as (lst & [[[e g_min] g_max] g_e] & Hlst & Hsel).
  rewrite Hlst. cbn [mbind py_bind]. rewrite Hsel. cbn [mbind py_bind].
  destruct (expansion_by_g_ok g_e e candidate ts Hc Hdom) as [r_1 H1].
  destruct (expansion_by_G_ok (g_e + 1) e candidate ts Hc Hdom) as [r_2 H2].
  rewrite H1. cbn [mbind py_bind].
  assert (Hne : ∀ i, expansion_of ts candidate i → i ≠ ∅).
  { intros i Hexp ->. apply expansion_of_dom in Hexp as [_ Hdi].
    rewrite dom_empty_L in Hdi.
    apply is_region_false_inv in Hreg as (e' & g & He' & _).
    destruct (ts_live_spec ts e' Hlive He') as (t & Ht & _).
    apply (closed_states_nonempty ts t Hc Ht). congruence. }
  assert (Hexp1 : expansion_of ts candidate r_1) by (by exists g_e, e; left).
  assert (Hexp2 : expansion_of ts candidate r_2)
    by (by exists (g_e + 1), e; right).
  destruct (o_route_ok k r_1 rest (explored ++ [candidate]) (Hne _ Hexp1))
    as [[ca exa] Ha].
  rewrite Ha. cbn [mbind py_bind]. rewrite H2. cbn [mbind py_bind].
  destruct (o_route_ok k r_2 ca exa (Hne _ Hexp2)) as [[cb exb] Hb].
  rewrite Hb. cbn [mbind py_bind].
  assert (HCa : Forall (in_space k ts) ca ∧ (length ca ≤ S (length rest))%nat
                ∧ rest ⊆ ca).
  { apply o_route_spec in Ha as [(-> & _ & Hv)|[-> _]].
    - split; [|split].
      + apply Forall_app. split; [done|]. constructor; [|done].
        by apply (valid_expansion_in_space k ts candidate).
      + rewrite length_app. simpl. lia.
      + intros x Hx. apply elem_of_app. by left.
    - split; [done|]. split; [lia|done]. }
  destruct HCa as (HCa & Hla & Hsa).
  assert (HCb : Forall (in_space k ts) cb ∧ (length cb ≤ S (length ca))%nat
                ∧ ca ⊆ cb).
  { apply o_route_spec in Hb as [(-> & _ & Hv)|[-> _]].
    - split; [|split].
      + apply Forall_app. split; [done|]. constructor; [|done].
        by apply (valid_expansion_in_space k ts candidate).
      + rewrite length_app. simpl. lia.
      + intros x Hx. apply elem_of_app. by left.
    - split; [done|]. split; [lia|done]. }
  destruct HCb as (HCb & Hlb & Hsb).
  destruct (IH cb (minimal ++ [candidate]) exb (S n) HCb HM1 Hnd1)
    as (m' & e' & n' & Hrun & Hnd' & HM' & Hcov); [clearbody cands; lia|].
  exists m', e', n'. split; [done|]. split; [done|]. split; [done|].
  apply Hcov1. intros c [Hcr|Hcm]; apply Hcov; [left|by right].
  by apply Hsb, Hsa.
Qed.

Lemma filter_py_region_ok ts (l : list (gmap string Z)) :
  ts_closed ts → Forall (λ m, dom m = state_set ts) l →
  ∃ l', filter_py (λ ms, is_region ms ts) l = Ok l'.
Proof.
  intros Hc. induction 1 as [|m l Hm _ [l' IH]]; [by exists []|].
  cbn [filter_py]. destruct (is_region_ok m ts Hc Hm) as [b ->].
  cbn [mbind py_bind]. rewrite IH. cbn [mbind py_bind]. by eexists.
Qed.

(** X30: On a closed system whose events all label an arc, and for [k] below
    2^51, the first driver returns with a budget of [o_enough_fuel]
    rounds or more.  What it returns are regions over the states of the
    system with multiplicities between 0 and [max(k, 1)], without
    repetition and none containing another; and every excitation or
    switching set that is a region contains one of them. *)
Theorem first_search_returns_minimal_regions k ts fuel :
  ts_closed ts → ts_live ts → k < 2 ^ 51 →
  (o_enough_fuel k ts ≤ fuel)%nat →
  ∃ regions explored it,
    generate_all_minimal_regions_o fuel k ts = Ok (regions, explored, it)
    ∧ NoDup regions
    ∧ (∀ m, m ∈ regions → is_region m ts = Ok true ∧ in_space k ts m)
    ∧ (∀ m m', m ∈ regions → m' ∈ regions →
               is_subset m' m = Ok true → m' = m)
    ∧ (∀ c, seed ts c → is_region c ts = Ok true →
            ∃ m, m ∈ regions ∧ is_subset m c = Ok true).
Proof.
  intros Hc Hlive Hk Hfuel. unfold generate_all_minimal_regions_o.
  destruct (get_candidates_ok ts) as [l0 Hl0].
  pose proof (get_candidates_seeds ts _ Hl0) as Hseeds.
  pose proof (get_candidates_length ts _ Hl0) as Hlen.
  rewrite Hl0. cbn [mbind py_bind].
  assert (Hom : omap id (Some <$> l0) = l0).
  { clear. induction l0 as [|x l IH]; [done|].
    rewrite fmap_cons. change (omap id (Some x :: (Some <$> l)))
      with (x :: omap id (Some <$> l)). by rewrite IH. }
  rewrite Hom. rewrite length_fmap in Hlen.
  assert (Hseed0 : ∀ m, m ∈ l0 → seed ts m).
  { intros m Hm.
    assert (Hs : Some m ∈ Some <$> l0) by (apply list_elem_of_fmap; eauto).
    destruct (proj1 (Forall_forall _ _) Hseeds _ Hs) as (m' & [= <-] & ?).
    done. }
  destruct (o_loop_returns k ts fuel l0 [] [] 0%nat Hc Hlive Hk)
    as (minimal & explored & it & -> & Hnd & HM & Hcov).
  { apply Forall_forall. intros m Hm. apply seed_in_space; [by apply Hseed0|].
    apply seed_dom; [done|by apply Hseed0]. }
  { constructor. }
  { constructor. }
  { unfold o_enough_fuel in Hfuel.
    pose proof (length_filter (λ m : gmap string Z, m ∉ [])
                  (all_markings (get_state_names ts) (Z.max k 1))).
    lia. }
  cbn [mbind py_bind].
  destruct (filter_py_region_ok ts minimal Hc) as [temp Htemp].
  { eapply Forall_impl; [exact HM|]. by intros m [? _]. }
  rewrite Htemp. cbn [mbind py_bind].
  pose proof (filter_py_elem _ _ _ Htemp) as Hel.
  apply filter_py_spec in Htemp as [Hsub _].
  destruct (remove_supersets_min temp) as (regions & Hregions & Hiff & Hcover).
  unfold __remove_supersets in Hregions. rewrite Hregions.
  cbn [mbind py_bind]. eexists _, _, _. split; [done|].
  apply filter_py_spec in Hregions as [Hsub' _].
  split.
  { eapply sublist_NoDup; [|exact Hsub'].
    eapply sublist_NoDup; [exact Hnd|exact Hsub]. }
  split; [|split].
  - intros m [[Hm Hreg]%Hel _]%Hiff. split; [done|].
    by apply (proj1 (Forall_forall _ _) HM).
  - intros m m' [_ Hmin]%Hiff [Hm' _]%Hiff Hs. by apply Hmin.
  - intros c Hseed Hreg.
    assert (Hin0 : c ∈ l0).
    { pose proof (get_candidates_all_seeds ts _ c Hl0 Hseed) as Hc0.
      apply list_elem_of_fmap in Hc0 as (c' & [= <-] & ?). done. }
    apply Hcover, Hel. split; [|done]. apply Hcov. by left.
Qed.

Lemma first_search_returns_minimal_regions_witness :
  ∃ regions explored it,
    generate_all_minimal_regions_o (o_enough_fuel 1 one_arc_ts) 1 one_arc_ts
    = Ok (regions, explored, it)
    ∧ NoDup regions
    ∧ (∀ m, m ∈ regions →
            is_region m one_arc_ts = Ok true ∧ in_space 1 one_arc_ts m)
    ∧ (∀ m m', m ∈ regions → m' ∈ regions →
               is_subset m' m = Ok true → m' = m)
    ∧ (∀ c, seed one_arc_ts c → is_region c one_arc_ts = Ok true →
            ∃ m, m ∈ regions ∧ is_subset m c = Ok true).
Proof.
  apply (first_search_returns_minimal_regions 1 one_arc_ts).
  - apply (bool_decide_unpack _). vm_compute. exact I.
  - apply (bool_decide_unpack _). vm_compute. exact I.
  - reflexivity.
  - lia.
Defined.
